(** * Pacman (Main.py): collision, teleport, power pill, pickups, levels

    A shallow embedding of the simulation core of [Main.py] and the
    properties of its natural-language specification.

    Conventions of the embedding.
    - Python numbers.  Tile sizes, scores, lives and cell codes are Python
      ints and are modelled as [Z].  Positions, speeds and clock readings
      are ints or floats in the source ([tile_size / 4], [speed /= 2],
      [time.time()]); they are modelled as exact rationals [Q].  The floats
      that occur in positions and speeds are small integers divided by 2 or
      4; they are exactly representable and their sums and quotients by the
      tile size round to the same integers, so nothing is lost.
      [int(x)] truncates toward 0.
    - Python exceptions.  A computation that can raise returns a [result];
      [Raise e] propagates like an uncaught exception.
    - pygame.  [pygame.Rect] stores integer coordinates and truncates float
      arguments; [Rect.colliderect] is transcribed from pygame 2.
    - Sounds, images (also the image that [Ghost.__init__] draws with
      [random.choice]), drawing and the frame clock have no effect on the
      simulation state and are left out.
    - Lists are modelled as values.  The only list objects that the source
      shares are the position lists, which it copies before it writes, and
      the first and last row of a loaded grid, which are never written
      (lemma [reachable_border]); [mygame.ghosts], which
      [collision_pacman_ghost] refills while it iterates over it, is read
      from the game at every step of that loop.
    - [time.time()] and [random] are inputs: every operation that reads
      the clock or draws a random number receives the value read.
    - Files are inputs: the construction of a game receives the "levels" of
      config.json and the level files at the default paths ([Assets]), and
      merges the default levels in as [_load_config_with_defaults] does.
    - The menus, the screen resolution and the table of high scores are
      modelled on the attributes they read and write ([InputClock],
      [Screen], the list of high scores); the keyboard and the event queue
      are inputs.  Drawing and the settings and high-score files are left
      out. *)

From Stdlib Require Import ZArith QArith Lia.
From stdpp Require Import base option list numbers strings gmap.

Local Open Scope Z_scope.

(** ** Python primitives *)

Inductive exn : Type :=
  | IndexError
  | ZeroDivisionError
  | ValueError
  | KeyError
  | FileNotFoundError
  | OSError.

Inductive result (A : Type) : Type :=
  | Ok (a : A)
  | Raise (e : exn).
Arguments Ok {A} a.
Arguments Raise {A} e.

Definition bind {A B : Type} (m : result A) (k : A -> result B) : result B :=
  match m with
  | Ok a => k a
  | Raise e => Raise e
  end.

Notation "x <- m ;; k" := (bind m (fun x => k))
  (at level 100, m at next level, right associativity).

(** [int(x)] on a number: truncation toward zero. *)
Definition py_int (q : Q) : Z := Z.quot (Qnum q) (Z.pos (Qden q)).

(** [x / n] for an int [n]: true division, [ZeroDivisionError] on 0. *)
Definition py_div (x : Q) (n : Z) : result Q :=
  if decide (n = 0) then Raise ZeroDivisionError else Ok (x / inject_Z n)%Q.

(** [l[y]] for an index produced by [range(len(...))] or [enumerate]. *)
Definition item {A : Type} (l : list A) (i : nat) : result A :=
  match l !! i with
  | Some a => Ok a
  | None => Raise IndexError
  end.

(** List subscripts with an arbitrary int: negative indices count from the
    end, anything outside [-len, len) is an [IndexError]. *)
Definition py_index (len : nat) (i : Z) : option nat :=
  if decide (0 <= i < Z.of_nat len) then Some (Z.to_nat i)
  else if decide (- Z.of_nat len <= i < 0) then Some (Z.to_nat (Z.of_nat len + i))
  else None.

Definition getitem {A : Type} (l : list A) (i : Z) : result A :=
  match py_index (length l) i with
  | Some k => item l k
  | None => Raise IndexError
  end.

Definition setitem {A : Type} (l : list A) (i : Z) (a : A) : result (list A) :=
  match py_index (length l) i with
  | Some k => Ok (<[k := a]> l)
  | None => Raise IndexError
  end.

(** The equally likely outcomes of [random.randint(a, b)]: a, a+1, ..., b. *)
Definition randint (a b : Z) : list Z := seqZ a (b - a + 1).

(** Probability of an event under a uniform draw from a list of outcomes. *)
Definition probability {A : Type} (event : A -> bool) (outcomes : list A) : Q :=
  (Z.of_nat (length (filter (fun a => event a = true) outcomes)) #
   Pos.of_nat (length outcomes))%Q.

(** ** pygame.Rect *)

Record Rect : Type := mkRect {
  rect_x : Z;
  rect_y : Z;
  rect_w : Z;
  rect_h : Z
}.

(** [pygame.Rect(x, y, w, h)]: float arguments are truncated. *)
Definition pygame_Rect (x y w h : Q) : Rect :=
  mkRect (py_int x) (py_int y) (py_int w) (py_int h).

(** [A.colliderect(B)], pygame 2: empty rectangles collide with nothing;
    otherwise the open intervals must overlap on both axes. *)
Definition colliderect (A B : Rect) : bool :=
  if (rect_w A =? 0) || (rect_h A =? 0) || (rect_w B =? 0) || (rect_h B =? 0)
  then false
  else
    (Z.min (rect_x A) (rect_x A + rect_w A) <? Z.max (rect_x B) (rect_x B + rect_w B)) &&
    (Z.min (rect_y A) (rect_y A + rect_h A) <? Z.max (rect_y B) (rect_y B + rect_h B)) &&
    (Z.max (rect_x A) (rect_x A + rect_w A) >? Z.min (rect_x B) (rect_x B + rect_w B)) &&
    (Z.max (rect_y A) (rect_y A + rect_h A) >? Z.min (rect_y B) (rect_y B + rect_h B)).

(** ** The grid *)

(** [mygame.matrix]: rows of integer cell codes. *)
Abbreviation Matrix := (list (list Z)).

(** Positions are two-element lists [[x, y]]. *)
Abbreviation Pos := (Q * Q)%type.

Inductive direction : Type := Up | Down | Left | Right.

#[global] Instance direction_eq_dec : EqDecision direction.
Proof. solve_decision. Defined.

(** [Game.convert_to_pixels]. *)
Definition convert_to_pixels (tile_size : Z) (zahl : Z) : Z := zahl * tile_size.

(** The rectangle of tile (x, y), as built inside [check_collision_wall]. *)
Definition wall_rect (tile_size : Z) (x y : nat) : Rect :=
  pygame_Rect (inject_Z (convert_to_pixels tile_size (Z.of_nat x)))
              (inject_Z (convert_to_pixels tile_size (Z.of_nat y)))
              (inject_Z (convert_to_pixels tile_size 1))
              (inject_Z (convert_to_pixels tile_size 1)).

(** The entity's box moved by [speed] along [direction]. *)
Definition moved_rect (tile_size : Z) (d : direction) (speed : Q) (pos : Pos) : Rect :=
  let size := inject_Z (convert_to_pixels tile_size 1) in
  match d with
  | Up => pygame_Rect (fst pos) (snd pos - speed)%Q size size
  | Down => pygame_Rect (fst pos) (snd pos + speed)%Q size size
  | Left => pygame_Rect (fst pos - speed)%Q (snd pos) size size
  | Right => pygame_Rect (fst pos + speed)%Q (snd pos) size size
  end.

(** The two tests made on one cell of the scan of [check_collision_wall]. *)
Definition cell_blocks (tile_size : Z) (rect : Rect) (is_pacman : bool)
    (y x : nat) (c : Z) : bool :=
  ((c =? 1) && colliderect rect (wall_rect tile_size x y)) ||
  ((c =? 2) && is_pacman && colliderect rect (wall_rect tile_size x y)).

(** [for x in range(n)] over one row, starting at column [x], with the
    early [return True]. *)
Fixpoint scan_row (hit : nat -> Z -> bool) (row : list Z) (x n : nat) : result bool :=
  match n with
  | O => Ok false
  | S n' =>
      c <- item row x ;;
      if hit x c then Ok true else scan_row hit row (S x) n'
  end.

(** [for y in range(n)], starting at row [y]; the inner range is
    [range(len(matrix[0]))]. *)
Fixpoint scan_rows (hit : nat -> nat -> Z -> bool) (matrix : Matrix) (y n : nat)
    : result bool :=
  match n with
  | O => Ok false
  | S n' =>
      row0 <- item matrix 0 ;;
      row <- item matrix y ;;
      b <- scan_row (hit y) row 0 (length row0) ;;
      if b then Ok true else scan_rows hit matrix (S y) n'
  end.

(** [check_collision_wall(mygame, direction, speed, pos, is_pacman)]. *)
Definition check_collision_wall (matrix : Matrix) (tile_size : Z)
    (d : direction) (speed : Q) (pos : Pos) (is_pacman : bool) : result bool :=
  let rect := moved_rect tile_size d speed pos in
  scan_rows (cell_blocks tile_size rect is_pacman) matrix 0 (length matrix).

(** The tile a position lies on: [matrix[int(y / size)][int(x / size)]]. *)
Definition tile_at (matrix : Matrix) (tile_size : Z) (pos : Pos) : result Z :=
  ty <- py_div (snd pos) (convert_to_pixels tile_size 1) ;;
  row <- getitem matrix (py_int ty) ;;
  tx <- py_div (fst pos) (convert_to_pixels tile_size 1) ;;
  getitem row (py_int tx).

(** Where [check_for_teleport] puts a position that is on a teleporter. *)
Definition teleport_target (matrix : Matrix) (tile_size : Z) (pos : Pos)
    (d : direction) : result Pos :=
  match d with
  | Right => Ok (inject_Z (convert_to_pixels tile_size 1), snd pos)
  | Left =>
      row0 <- getitem matrix 0 ;;
      Ok (inject_Z (convert_to_pixels tile_size (Z.of_nat (length row0) - 2)), snd pos)
  | Up =>
      Ok (fst pos, inject_Z (convert_to_pixels tile_size (Z.of_nat (length matrix) - 2)))
  | Down => Ok (fst pos, inject_Z (convert_to_pixels tile_size 1))
  end.

(** [check_for_teleport(mygame, pos, direction)]: the list [pos] is changed
    in place, so the new position is returned next to the boolean. *)
Definition check_for_teleport (matrix : Matrix) (tile_size : Z) (pos : Pos)
    (d : direction) : result (bool * Pos) :=
  c <- tile_at matrix tile_size pos ;;
  if decide (c = 3) then
    pos' <- teleport_target matrix tile_size pos d ;;
    Ok (true, pos')
  else Ok (false, pos).

(** ** Entities *)

(** The attributes of [Entity] that the simulation reads or writes.  A
    [Ghost] adds images only, so it is an [Entity]; [Pacman] adds [lives]. *)
Record Entity : Type := mkEntity {
  start_pos : Pos;
  pos : Pos;
  speed : Q;
  current_direction : direction;
  alive : bool;
  frightened : bool;
  respawn_time : Q;
  original_speed : Q
}.

Abbreviation Ghost := Entity.

Record Pacman : Type := mkPacman {
  entity : Entity;
  lives : Z
}.

Definition set_pos (e : Entity) (p : Pos) : Entity :=
  mkEntity (start_pos e) p (speed e) (current_direction e) (alive e)
           (frightened e) (respawn_time e) (original_speed e).

Definition set_current_direction (e : Entity) (d : direction) : Entity :=
  mkEntity (start_pos e) (pos e) (speed e) d (alive e)
           (frightened e) (respawn_time e) (original_speed e).

(** [Entity.__init__(position, speed, images)]. *)
Definition Entity_init (position : Pos) (speed : Q) : Entity :=
  mkEntity position position speed Right true false 0%Q speed.

(** [Entity.kill(mygame, sound)], with [time.time()] read as [now]. *)
Definition Entity_kill (now : Q) (e : Entity) : Entity :=
  if alive e then
    mkEntity (start_pos e) (start_pos e) (speed e) Right false
             (frightened e) now (original_speed e)
  else e.

(** [Entity.respawn()]. *)
Definition respawn (e : Entity) : Entity :=
  mkEntity (start_pos e) (start_pos e) (original_speed e) Right true
           false 0%Q (original_speed e).

(** The position after one step of [speed] along [d]. *)
Definition advance (d : direction) (speed : Q) (p : Pos) : Pos :=
  match d with
  | Up => (fst p, (snd p - speed)%Q)
  | Down => (fst p, (snd p + speed)%Q)
  | Left => ((fst p - speed)%Q, snd p)
  | Right => ((fst p + speed)%Q, snd p)
  end.

(** [Entity.move(mygame, is_pacman)]. *)
Definition Entity_move (matrix : Matrix) (tile_size : Z) (is_pacman : bool)
    (e : Entity) : result Entity :=
  b <- check_collision_wall matrix tile_size (current_direction e) (speed e) (pos e)
         is_pacman ;;
  if b then Ok e
  else Ok (set_pos e (advance (current_direction e) (speed e) (pos e))).

(** [Ghost.__init__(mygame, position, images)]:
    [speed = int(mygame.convert_to_pixels(1) / 5)]. *)
Definition Ghost_init (tile_size : Z) (position : Pos) : Ghost :=
  Entity_init position
    (inject_Z (py_int (inject_Z (convert_to_pixels tile_size 1) / 5)%Q)).

(** [Pacman.__init__(mygame, position, images)]:
    [speed = mygame.convert_to_pixels(1) / 4], three lives. *)
Definition Pacman_init (tile_size : Z) (position : Pos) : Pacman :=
  mkPacman (Entity_init position (inject_Z (convert_to_pixels tile_size 1) / 4)%Q) 3.

(** [for x, cell in enumerate(row): if cell == value: ...], from column [x]:
    the columns of the row that hold [value]. *)
Fixpoint columns_of_value (value : Z) (row : list Z) (x : nat) : list nat :=
  match row with
  | [] => []
  | cell :: rest =>
      (if decide (cell = value) then [x] else []) ++ columns_of_value value rest (S x)
  end.

(** [for y, row in enumerate(matrix): for x, cell in enumerate(row)], from
    row [y]: the pixel coordinates [[x * tile_size, y * tile_size]] of the
    cells that hold [value], row by row. *)
Fixpoint coordinates_from (tile_size value : Z) (rows : Matrix) (y : nat) : list Pos :=
  match rows with
  | [] => []
  | row :: rest =>
      map (fun x => (inject_Z (convert_to_pixels tile_size (Z.of_nat x)),
                     inject_Z (convert_to_pixels tile_size (Z.of_nat y))))
          (columns_of_value value row 0)
      ++ coordinates_from tile_size value rest (S y)
  end.

(** [find_coordinates_of_value(mygame, value)]. *)
Definition find_coordinates_of_value (matrix : Matrix) (tile_size value : Z) : list Pos :=
  coordinates_from tile_size value matrix 0.

(** [Ghost.create_ghosts_from_matrix(mygame, images)]: one ghost per cell
    of code 5, in the same row-major order. *)
Definition create_ghosts_from_matrix (matrix : Matrix) (tile_size : Z) : list Ghost :=
  map (Ghost_init tile_size) (coordinates_from tile_size 5 matrix 0).

(** [Pacman.create_pacman_from_matrix(mygame, images)]. *)
Definition create_pacman_from_matrix (matrix : Matrix) (tile_size : Z) : result Pacman :=
  match find_coordinates_of_value matrix tile_size 7 with
  | start :: _ => Ok (Pacman_init tile_size start)
  | [] => Raise ValueError
  end.

(** [Pacman.kill(mygame, sound)]. *)
Definition Pacman_kill (now : Q) (p : Pacman) : Pacman :=
  mkPacman (Entity_kill now (entity p)) (lives p - 1).

(** ** Ghost movement *)

(** [Ghost.change_direction_random()]; [r] is the index that
    [random.choice] draws in the three-element candidate list. *)
Definition change_direction_random (r : nat) (g : Ghost) : Ghost :=
  let directions :=
    match current_direction g with
    | Up => [Up; Left; Right]
    | Down => [Down; Left; Right]
    | Left => [Up; Down; Left]
    | Right => [Up; Down; Right]
    end in
  match directions !! r with
  | Some d => set_current_direction g d
  | None => g
  end.

(** One of the four [if] statements of [Ghost.is_intersection], for the
    direction [d].  The three conjuncts are evaluated left to right and
    [check_for_teleport] writes [self.pos], so the ghost is threaded through
    together with [possible_directions]. *)
Definition probe (matrix : Matrix) (tile_size : Z) (d : direction)
    (st : Ghost * list direction) : result (Ghost * list direction) :=
  let g := fst st in
  if decide (current_direction g = d) then Ok st
  else
    blocked <- check_collision_wall matrix tile_size d (speed g) (pos g) false ;;
    if blocked then Ok st
    else
      t <- check_for_teleport matrix tile_size (pos g) (current_direction g) ;;
      if fst t then Ok (set_pos g (snd t), snd st)
      else Ok (set_pos g (snd t), snd st ++ [d]).

(** The list [possible_directions] built by [Ghost.is_intersection] and the
    ghost as the four tests leave it. *)
Definition possible_directions (matrix : Matrix) (tile_size : Z) (g : Ghost)
    : result (Ghost * list direction) :=
  s1 <- probe matrix tile_size Up (g, []) ;;
  s2 <- probe matrix tile_size Down s1 ;;
  s3 <- probe matrix tile_size Left s2 ;;
  probe matrix tile_size Right s3.

(** [Ghost.is_intersection(mygame)]: [len(possible_directions) > 1]. *)
Definition is_intersection (matrix : Matrix) (tile_size : Z) (g : Ghost)
    : result (bool * Ghost) :=
  s <- possible_directions matrix tile_size g ;;
  Ok (bool_decide (1 < length (snd s))%nat, fst s).

(** [Ghost.move(mygame)]. *)
Definition Ghost_move (matrix : Matrix) (tile_size : Z) (r : nat) (g : Ghost)
    : result Ghost :=
  blocked <- check_collision_wall matrix tile_size (current_direction g) (speed g)
               (pos g) false ;;
  if blocked then Ok (change_direction_random r g)
  else
    g1 <- Entity_move matrix tile_size false g ;;
    t <- is_intersection matrix tile_size g1 ;;
    if fst t then Ok (change_direction_random r (snd t)) else Ok (snd t).

(** ** Player movement *)

(** The four arrow keys of [pygame.key.get_pressed()]. *)
Record Keys : Type := mkKeys {
  K_UP : bool;
  K_DOWN : bool;
  K_LEFT : bool;
  K_RIGHT : bool
}.

(** [Pacman.move(mygame, keys)]. *)
Definition Pacman_move (matrix : Matrix) (tile_size : Z) (keys : Keys) (p : Pacman)
    : result Pacman :=
  let e := entity p in
  let next_direction :=
    if K_UP keys then Up
    else if K_DOWN keys then Down
    else if K_LEFT keys then Left
    else if K_RIGHT keys then Right
    else current_direction e in
  e1 <- (if decide (next_direction = current_direction e) then Ok e
         else
           blocked <- check_collision_wall matrix tile_size next_direction (speed e)
                        (pos e) true ;;
           if blocked then Ok e else Ok (set_current_direction e next_direction)) ;;
  e2 <- Entity_move matrix tile_size true e1 ;;
  Ok (mkPacman e2 (lives p)).

(** ** Levels *)

(** What [open(file_path)] and [csv.reader] deliver for a level file.  A
    cell is the value of [int(cell)], or [None] where [int] raises
    [ValueError]. *)
Inductive csv_file : Type :=
  | Missing
  | Unreadable
  | Rows (rows : list (list (option Z))).

(** The placeholder maze of [load_level_from_csv]. *)
Definition default_matrix : Matrix :=
  [[3; 3; 3; 3; 3; 3; 3; 3];
   [3; 1; 1; 1; 1; 1; 1; 3];
   [3; 1; 0; 0; 0; 0; 1; 3];
   [3; 1; 0; 7; 0; 0; 1; 3];
   [3; 1; 0; 0; 0; 0; 1; 3];
   [3; 1; 1; 1; 1; 1; 1; 3];
   [3; 3; 3; 3; 3; 3; 3; 3]].

(** [[int(cell) for cell in row]]. *)
Definition int_row (row : list (option Z)) : result (list Z) :=
  match mapM id row with
  | Some r => Ok r
  | None => Raise ValueError
  end.

(** The reading loop: empty rows are skipped. *)
Fixpoint int_rows (rows : list (list (option Z))) : result Matrix :=
  match rows with
  | [] => Ok []
  | row :: rest =>
      match row with
      | [] => int_rows rest
      | _ :: _ =>
          r <- int_row row ;;
          m <- int_rows rest ;;
          Ok (r :: m)
      end
  end.

(** The body of the [try] block of [load_level_from_csv]. *)
Definition read_level (f : csv_file) : result Matrix :=
  match f with
  | Missing => Raise FileNotFoundError
  | Unreadable => Raise OSError
  | Rows rows =>
      level_matrix <- int_rows rows ;;
      if forallb (fun row => Nat.eqb (length row) (length (hd [] level_matrix)))
                 level_matrix
      then
        let width := length (hd [] level_matrix) in
        let horizontal_border := replicate (width + 2) 3 in
        Ok (horizontal_border
              :: map (fun row => [3] ++ row ++ [3]) level_matrix
              ++ [horizontal_border])
      else Raise ValueError
  end.

(** [load_level_from_csv(file_path)]: the three [except] clauses all return
    the placeholder maze. *)
Definition load_level_from_csv (f : csv_file) : result Matrix :=
  match read_level f with
  | Ok level_matrix => Ok level_matrix
  | Raise FileNotFoundError => Ok default_matrix
  | Raise ValueError => Ok default_matrix
  | Raise _ => Ok default_matrix
  end.

(** ** The game object *)

(** The attributes of [Game] that the simulation uses.  [levels] is
    [config["levels"]] together with the files its paths name; its keys
    are the strings ["0"], ["1"], ... and are modelled by the integers they
    spell, which is how [level_up] computes them. *)
Record Game : Type := mkGame {
  levels : gmap Z csv_file;
  tile_size : Z;
  matrix : Matrix;
  level : Z;
  pacman : Pacman;
  ghosts : list Ghost;
  score : Z;
  power_pill_active : bool;
  power_pill_start_time : Q;
  game_over : bool
}.

Definition set_matrix (g : Game) (m : Matrix) : Game :=
  mkGame (levels g) (tile_size g) m (level g) (pacman g) (ghosts g) (score g)
         (power_pill_active g) (power_pill_start_time g) (game_over g).

Definition set_level (g : Game) (l : Z) : Game :=
  mkGame (levels g) (tile_size g) (matrix g) l (pacman g) (ghosts g) (score g)
         (power_pill_active g) (power_pill_start_time g) (game_over g).

Definition set_pacman (g : Game) (p : Pacman) : Game :=
  mkGame (levels g) (tile_size g) (matrix g) (level g) p (ghosts g) (score g)
         (power_pill_active g) (power_pill_start_time g) (game_over g).

Definition set_ghosts (g : Game) (gs : list Ghost) : Game :=
  mkGame (levels g) (tile_size g) (matrix g) (level g) (pacman g) gs (score g)
         (power_pill_active g) (power_pill_start_time g) (game_over g).

Definition set_score (g : Game) (s : Z) : Game :=
  mkGame (levels g) (tile_size g) (matrix g) (level g) (pacman g) (ghosts g) s
         (power_pill_active g) (power_pill_start_time g) (game_over g).

Definition set_power_pill (g : Game) (active : bool) (start : Q) : Game :=
  mkGame (levels g) (tile_size g) (matrix g) (level g) (pacman g) (ghosts g) (score g)
         active start (game_over g).

Definition set_game_over (g : Game) (b : bool) : Game :=
  mkGame (levels g) (tile_size g) (matrix g) (level g) (pacman g) (ghosts g) (score g)
         (power_pill_active g) (power_pill_start_time g) b.

(** [self.config["levels"][key]]. *)
Definition level_file (lv : gmap Z csv_file) (key : Z) : result csv_file :=
  match lv !! key with
  | Some f => Ok f
  | None => Raise KeyError
  end.

(** The files at the paths of [default_config["levels"]]:
    [assets/levels/lvl0.csv], [lvl1.csv] and [lvl2.csv]. *)
Record Assets : Type := mkAssets {
  lvl0 : csv_file;
  lvl1 : csv_file;
  lvl2 : csv_file
}.

(** [default_config["levels"]]: the keys "0", "1" and "2", with the files
    that their paths name. *)
Definition default_levels (a : Assets) : gmap Z csv_file :=
  <[0 := lvl0 a]> (<[1 := lvl1 a]> (<[2 := lvl2 a]> ∅)).

(** [merge_with_defaults(default, actual)] on the entry "levels": a key of
    the defaults that [actual] lacks is added with its default, every
    entry of [actual] stays as it is. *)
Definition merge_with_defaults (default actual : gmap Z csv_file) : gmap Z csv_file :=
  actual ∪ default.

(** [_load_config_with_defaults("config.json")], for the entry "levels".
    [loaded] is the "levels" of config.json; it is empty when the file is
    missing or is not JSON (the defaults are returned) and when the file
    has no such entry (the defaults are filled in). *)
Definition load_config_levels (a : Assets) (loaded : gmap Z csv_file)
    : gmap Z csv_file :=
  merge_with_defaults (default_levels a) loaded.

(** No file at any of the default level paths. *)
Definition no_assets : Assets := mkAssets Missing Missing Missing.

(** [Game.__init__()], as far as the simulation goes: the levels of the
    configuration with the defaults merged in, [_init_game_state],
    [_init_levels], then the ghosts and Pac-Man of level "0".  [a] and [lv]
    are the level files at the default paths and the "levels" of
    config.json; [ts] is the tile size that [_init_settings] has set.  The
    steps of [__init__] that load images, sounds, fonts and settings and
    open the window are outside the embedding: [Game_init] describes the
    game object that [__init__] builds when those steps return. *)
Definition Game_init (a : Assets) (lv : gmap Z csv_file) (ts : Z) : result Game :=
  let config_levels := load_config_levels a lv in
  f <- level_file config_levels 0 ;;
  m <- load_level_from_csv f ;;
  p <- create_pacman_from_matrix m ts ;;
  Ok (mkGame config_levels ts m 0 p (create_ghosts_from_matrix m ts) 0 false 0%Q false).

(** [try: body except FileNotFoundError: handler]. *)
Definition except_FileNotFoundError {A : Type} (body handler : result A) : result A :=
  match body with
  | Raise FileNotFoundError => handler
  | r => r
  end.

(** [Game.level_up()]. *)
Definition level_up (now : Q) (g : Game) : result Game :=
  if decide (level g < Z.of_nat (size (levels g)) - 1) then
    let g1 := set_level g (level g + 1) in
    except_FileNotFoundError
      (f <- level_file (levels g1) (level g1) ;;
       m <- load_level_from_csv f ;;
       let g2 := set_matrix g1 m in
       p <- create_pacman_from_matrix (matrix g2) (tile_size g2) ;;
       let p1 := mkPacman (entity p) (lives p + 1) in
       let p2 := Pacman_kill now p1 in
       let g3 := set_pacman g2 p2 in
       Ok (set_ghosts g3 (create_ghosts_from_matrix (matrix g3) (tile_size g3))))
      (Ok (set_game_over g1 true))
  else Ok (set_game_over g true).

(** ** Ghost update *)

(** The body of the loop of [update_ghosts] for the ghost at index [i]. *)
Definition update_ghost (matrix : Matrix) (tile_size : Z) (now : Q) (r : nat)
    (ghost : Ghost) : result Ghost :=
  if negb (alive ghost) && negb (Qle_bool (now - respawn_time ghost) 3)
  then Ok (respawn ghost)
  else if alive ghost then Ghost_move matrix tile_size r ghost
  else Ok ghost.

Fixpoint update_ghosts_from (matrix : Matrix) (tile_size : Z) (now : nat -> Q)
    (rnd : nat -> nat) (i : nat) (gs : list Ghost) : result (list Ghost) :=
  match gs with
  | [] => Ok []
  | ghost :: rest =>
      ghost' <- update_ghost matrix tile_size (now i) (rnd i) ghost ;;
      rest' <- update_ghosts_from matrix tile_size now rnd (S i) rest ;;
      Ok (ghost' :: rest')
  end.

(** [update_ghosts(mygame)]; [now i] and [rnd i] are the clock reading and
    the random draw made while ghost [i] is handled. *)
Definition update_ghosts (now : nat -> Q) (rnd : nat -> nat) (g : Game) : result Game :=
  gs <- update_ghosts_from (matrix g) (tile_size g) now rnd 0 (ghosts g) ;;
  Ok (set_ghosts g gs).

(** [handle_pacman_logic(mygame)]. *)
Definition handle_pacman_logic (keys : Keys) (now : Q) (nows : nat -> Q)
    (rnd : nat -> nat) (g : Game) : result Game :=
  let p := pacman g in
  if negb (alive (entity p)) && negb (Qle_bool (now - respawn_time (entity p)) 3)
  then Ok (set_pacman g (mkPacman (respawn (entity p)) (lives p)))
  else if alive (entity p) then
    p' <- Pacman_move (matrix g) (tile_size g) keys p ;;
    update_ghosts nows rnd (set_pacman g p')
  else Ok g.

(** ** Power pill *)

Definition frighten (ghost : Ghost) : Ghost :=
  mkEntity (start_pos ghost) (pos ghost) (speed ghost / 2)%Q (current_direction ghost)
           (alive ghost) true (respawn_time ghost) (original_speed ghost).

Definition calm (ghost : Ghost) : Ghost :=
  if frightened ghost then
    mkEntity (start_pos ghost) (pos ghost) (original_speed ghost)
             (current_direction ghost) (alive ghost) false (respawn_time ghost)
             (original_speed ghost)
  else ghost.

(** [activate_power_pill(mygame)]. *)
Definition activate_power_pill (now : Q) (g : Game) : Game :=
  if power_pill_active g then g
  else set_ghosts (set_power_pill g true now) (map frighten (ghosts g)).

(** [update_power_pill(mygame)]. *)
Definition update_power_pill (now : Q) (g : Game) : Game :=
  if power_pill_active g && negb (Qle_bool (now - power_pill_start_time g) 5)
  then set_power_pill (set_ghosts g (map calm (ghosts g))) false (power_pill_start_time g)
  else g.

(** ** Pac-Man against the ghosts *)

(** The box of an entity: [pygame.Rect(pos[0], pos[1], size, size)]. *)
Definition entity_rect (tile_size : Z) (p : Pos) : Rect :=
  pygame_Rect (fst p) (snd p) (inject_Z (convert_to_pixels tile_size 1))
              (inject_Z (convert_to_pixels tile_size 1)).

(** The body of the loop of [collision_pacman_ghost] for the ghost found at
    index [i].  [ghosts] is [mygame.ghosts] itself, so clearing and
    refilling it replaces the list the loop runs over. *)
Definition collide (pacman_rect : Rect) (now : Q) (i : nat) (ghost : Ghost)
    (g : Game) : Game :=
  if colliderect pacman_rect (entity_rect (tile_size g) (pos ghost)) then
    if frightened ghost then
      set_score (set_ghosts g (<[i := Entity_kill now ghost]> (ghosts g))) (score g + 200)
    else
      let g1 := set_pacman g (Pacman_kill now (pacman g)) in
      let g2 := set_ghosts g1 (create_ghosts_from_matrix (matrix g1) (tile_size g1)) in
      let g3 := set_power_pill g2 false (power_pill_start_time g2) in
      if decide (lives (pacman g3) <= 0) then set_game_over g3 true else g3
  else g.

(** [for ghost in ghosts]: the list iterator keeps an index and looks the
    list up afresh at every step, so after a refill the loop goes on with
    the new list at the next index.  [fuel] bounds the number of steps. *)
Fixpoint ghost_loop (fuel : nat) (pacman_rect : Rect) (now : nat -> Q) (i : nat)
    (g : Game) : Game :=
  match fuel with
  | O => g
  | S fuel' =>
      match ghosts g !! i with
      | None => g
      | Some ghost => ghost_loop fuel' pacman_rect now (S i) (collide pacman_rect (now i) i ghost g)
      end
  end.

(** [collision_pacman_ghost(mygame, mygame.pacman, mygame.ghosts)].  The
    box of Pac-Man is computed once, before the loop.  The loop ends after
    at most as many steps as the longer of the two lists it can run over. *)
Definition collision_pacman_ghost (now : nat -> Q) (g : Game) : Game :=
  let pacman_rect := entity_rect (tile_size g) (pos (entity (pacman g))) in
  ghost_loop (length (ghosts g) `max`
              length (create_ghosts_from_matrix (matrix g) (tile_size g)))
             pacman_rect now 0 g.

(** ** Pickups *)

(** [mygame.matrix[y][x] = value]. *)
Definition set_cell (m : Matrix) (y x : Z) (value : Z) : result Matrix :=
  row <- getitem m y ;;
  row' <- setitem row x value ;;
  setitem m y row'.

(** [any(0 in row for row in matrix)]. *)
Definition any_zero (m : Matrix) : bool :=
  existsb (fun row => existsb (fun c => c =? 0) row) m.

(** [handle_collisions_and_points(mygame, current_score)]; returns
    [(game_won, current_score)] and the game. *)
Definition handle_collisions_and_points (now : Q) (g : Game) (current_score : Z)
    : result (bool * Z * Game) :=
  qx <- py_div (fst (pos (entity (pacman g)))) (convert_to_pixels (tile_size g) 1) ;;
  qy <- py_div (snd (pos (entity (pacman g)))) (convert_to_pixels (tile_size g) 1) ;;
  let pacman_x := py_int qx in
  let pacman_y := py_int qy in
  row <- getitem (matrix g) pacman_y ;;
  c <- getitem row pacman_x ;;
  if decide (c = 0) then
    m <- set_cell (matrix g) pacman_y pacman_x (-1) ;;
    if negb (any_zero m) then Ok (true, current_score + 10, set_matrix g m)
    else Ok (false, current_score + 10, set_matrix g m)
  else if decide (c = -2) then
    m <- set_cell (matrix g) pacman_y pacman_x (-1) ;;
    Ok (false, current_score + 100, set_matrix g m)
  else if decide (c = -3) then
    let g1 := activate_power_pill now g in
    m <- set_cell (matrix g1) pacman_y pacman_x (-1) ;;
    Ok (false, current_score, set_matrix g1 m)
  else Ok (false, current_score, g).

(** The guard of [place_fruits]: [fruit_count < 2 and random.randint(0, 200) == 0],
    for the value [r] that [randint] draws. *)
Definition fruit_guard (fruit_count : Z) (r : Z) : bool :=
  bool_decide (fruit_count < 2) && bool_decide (r = 0).

(** [place_fruits(mygame, fruit_count)]; [r], [x] and [y] are the values
    drawn by the three calls of [random.randint] ([randint] raises
    [ValueError] on an empty range).  Returns the counter and the game. *)
Definition place_fruits (r x y : Z) (g : Game) (fruit_count : Z) : result (Z * Game) :=
  if fruit_guard fruit_count r then
    if decide (length (matrix g) = 0%nat) then Raise ValueError
    else
      row0 <- getitem (matrix g) 0 ;;
      if decide (length row0 = 0%nat) then Raise ValueError
      else
        row <- getitem (matrix g) x ;;
        c <- getitem row y ;;
        if decide (c < 1) then
          m <- set_cell (matrix g) x y (-2) ;;
          Ok (fruit_count + 1, set_matrix g m)
        else Ok (fruit_count, g)
  else Ok (fruit_count, g).

(** The teleport of Pac-Man in [play_game]. *)
Definition teleport_pacman (g : Game) : result Game :=
  let p := pacman g in
  t <- check_for_teleport (matrix g) (tile_size g) (pos (entity p))
         (current_direction (entity p)) ;;
  Ok (set_pacman g (mkPacman (set_pos (entity p) (snd t)) (lives p))).

(** ** Play *)

(** The calls that [play_game] and [start_game] make on the game object,
    each with whatever the keyboard, the clock and [random] deliver. *)
Inductive step : Game -> Game -> Prop :=
  | step_pacman_logic keys now nows rnd g g' :
      handle_pacman_logic keys now nows rnd g = Ok g' -> step g g'
  | step_collision now g :
      step g (collision_pacman_ghost now g)
  | step_teleport g g' :
      teleport_pacman g = Ok g' -> step g g'
  | step_power_pill now g :
      step g (update_power_pill now g)
  | step_points now g current_score won current_score' g' :
      handle_collisions_and_points now g current_score = Ok (won, current_score', g') ->
      step g g'
  | step_level_up now g g' :
      level_up now g = Ok g' -> step g g'
  | step_fruits r x y g fruit_count fruit_count' g' :
      place_fruits r x y g fruit_count = Ok (fruit_count', g') -> step g g'.

(** The games that play can reach from a freshly constructed [Game()]. *)
Inductive reachable : Game -> Prop :=
  | reachable_init a lv ts g : Game_init a lv ts = Ok g -> reachable g
  | reachable_step g g' : reachable g -> step g g' -> reachable g'.

(** What one pass of the loop of [play_game] reads from outside: the keys,
    the clock, and the draws of [random]. *)
Record Input : Type := mkInput {
  in_keys : Keys;
  in_now : Q;
  in_choice : nat -> nat;
  in_fruit : Z;
  in_fruit_x : Z;
  in_fruit_y : Z
}.

(** The body of the [while running] loop of [play_game], on the game and
    the locals [current_score] and [fruit_count]. *)
Definition tick (i : Input) (st : Game * Z * Z) : result (Game * Z * Z) :=
  let '(g, current_score, fruit_count) := st in
  g1 <- handle_pacman_logic (in_keys i) (in_now i) (fun _ => in_now i) (in_choice i) g ;;
  let g2 := collision_pacman_ghost (fun _ => in_now i) g1 in
  g3 <- teleport_pacman g2 ;;
  let g4 := update_power_pill (in_now i) g3 in
  t <- handle_collisions_and_points (in_now i) g4 current_score ;;
  let '(game_won, current_score', g5) := t in
  g6 <- (if game_won then level_up (in_now i) g5 else Ok g5) ;;
  f <- place_fruits (in_fruit i) (in_fruit_x i) (in_fruit_y i) g6 fruit_count ;;
  Ok (snd f, current_score', fst f).

(** The loop of [play_game] for as many passes as there are inputs; it
    stops when the game is over. *)
Fixpoint play_game_loop (inputs : list Input) (st : Game * Z * Z)
    : result (Game * Z * Z) :=
  match inputs with
  | [] => Ok st
  | i :: rest =>
      st' <- tick i st ;;
      if game_over (fst (fst st')) then Ok st' else play_game_loop rest st'
  end.

(** ** Shapes of grids *)

Definition height (m : Matrix) : nat := length m.
Definition width (m : Matrix) : nat := length (hd [] m).

(** Every row is as long as the first one. *)
Definition rectangular (m : Matrix) : Prop :=
  Forall (fun row => length row = width m) m.

(** At least two rows and two columns. *)
Definition roomy (m : Matrix) : Prop := (2 <= height m)%nat /\ (2 <= width m)%nat.

(** The first and the last row hold nothing but 3s. *)
Definition border_is_3 (m : Matrix) : Prop :=
  forall row, m !! 0%nat = Some row \/ last m = Some row -> Forall (fun c => c = 3) row.

(** The code of the cell in row [y], column [x]. *)
Definition cell (m : Matrix) (y x : nat) : option Z :=
  match m !! y with
  | Some row => row !! x
  | None => None
  end.

(** The row and column that [matrix[int(y / size)][int(x / size)]] reads
    for a position, after Python has resolved negative indices. *)
Definition occupied (m : Matrix) (ts : Z) (p : Pos) : option (nat * nat) :=
  if decide (convert_to_pixels ts 1 = 0) then None
  else
    match py_index (length m) (py_int (snd p / inject_Z (convert_to_pixels ts 1))) with
    | Some y =>
        match m !! y with
        | Some row =>
            match py_index (length row)
                    (py_int (fst p / inject_Z (convert_to_pixels ts 1))) with
            | Some x => Some (y, x)
            | None => None
            end
        | None => None
        end
    | None => None
    end.

(** ** Properties and instances used in the statements *)

(** A corridor with an invisible wall in the middle. *)
Definition corridor_with_barrier : Matrix :=
  [[3; 3; 3; 3; 3];
   [3; 0; 2; 0; 3];
   [3; 3; 3; 3; 3]].

(** A game on the first of its levels whose player is down to one life;
    none of the level files exists. *)
Definition last_life_game : Game :=
  mkGame (load_config_levels no_assets ∅) 20 default_matrix 0
         (mkPacman (Entity_init (60%Q, 60%Q) 5%Q) 1) [] 0 false 0%Q false.

(** A game on the first of its levels; the file of the second is missing. *)
Definition game_before_missing_level : Game :=
  mkGame (load_config_levels no_assets (<[0 := Rows [[Some 7; Some 0]]]> ∅)) 20
         [[3; 3; 3; 3]; [3; 7; -1; 3]; [3; 3; 3; 3]] 0
         (mkPacman (Entity_init (40%Q, 20%Q) 5%Q) 3) [] 0 false 0%Q false.

(** The speed a ghost ought to have: half its original speed while
    frightened, its original speed otherwise. *)
Definition ghost_ok (ghost : Ghost) : Prop :=
  speed ghost = if frightened ghost then (original_speed ghost / 2)%Q
                else original_speed ghost.

(** The invariant of play: every ghost has the speed it ought to have, and
    no ghost is frightened unless a power pill is active. *)
Definition power_inv (g : Game) : Prop :=
  Forall ghost_ok (ghosts g) /\
  (power_pill_active g = false -> Forall (fun ghost => frightened ghost = false) (ghosts g)).

(** What an operation on one ghost must keep for [power_inv]. *)
Definition keeps_power (ghost ghost' : Ghost) : Prop :=
  (ghost_ok ghost -> ghost_ok ghost') /\
  (frightened ghost = false -> frightened ghost' = false).

(** A level with two ghosts in a dead end and the game built from it. *)
Definition dead_end_levels : gmap Z csv_file :=
  <[0 := Rows [[Some 1; Some 1; Some 1; Some 1; Some 1; Some 1];
               [Some 1; Some 7; Some 0; Some 5; Some 5; Some 1];
               [Some 1; Some 0; Some 0; Some 0; Some 0; Some 1];
               [Some 1; Some 1; Some 1; Some 1; Some 1; Some 1]]]> ∅.

Definition dead_end_game : Game :=
  Eval vm_compute in
    match Game_init no_assets dead_end_levels 20 with
    | Ok g => g
    | Raise _ => last_life_game
    end.

(** A game in which the second ghost was eaten at time 1 while the power
    pill of time 0 is still active. *)
Definition game_with_eaten_ghost : Game :=
  Eval vm_compute in
    let g := activate_power_pill 0%Q dead_end_game in
    set_ghosts g (<[1%nat := Entity_kill 1%Q (frighten (Ghost_init 20 (100%Q, 40%Q)))]>
                    (ghosts g)).

(** The heading for which the four guards of [Ghost.is_intersection] do not
    look at the grid. *)
Definition skipped_heading (g : Ghost) : direction := current_direction g.






(** A corridor that ends at a wall, with a way out upwards at its end. *)
Definition corner : Matrix :=
  [[1; 1; 1; 1; 1];
   [1; 1; 1; 0; 1];
   [1; 0; 0; 0; 1];
   [1; 1; 1; 1; 1]].

(** A ghost that has reached the end of the corridor of [corner]. *)
Definition ghost_in_corner : Ghost :=
  mkEntity (20%Q, 40%Q) (60%Q, 40%Q) 4%Q Right true false 0%Q 4%Q.

(** Two levels with the maze of [dead_end_levels]. *)
Definition two_dead_end_levels : gmap Z csv_file :=
  <[1 := Rows [[Some 1; Some 1; Some 1; Some 1; Some 1; Some 1];
               [Some 1; Some 7; Some 0; Some 5; Some 5; Some 1];
               [Some 1; Some 0; Some 0; Some 0; Some 0; Some 1];
               [Some 1; Some 1; Some 1; Some 1; Some 1; Some 1]]]> dead_end_levels.

(** No key pressed; the first ghost keeps heading right; the second ghost
    draws [second]; no fruit. *)
Definition quiet_input (now : Q) (second : nat) : Input :=
  mkInput (mkKeys false false false false) now
          (fun i => match i with O => 2%nat | S _ => second end) 1 0 0.

(** Pac-Man respawns, then walks right for eight passes, while the second
    ghost turns down and leaves its corner. *)
Definition walk_into_dead_end : list Input :=
  quiet_input 4%Q 0 :: quiet_input 5%Q 1 :: replicate 7 (quiet_input 5%Q 0).

(** The game of [start_game] on [two_dead_end_levels] after the passes of
    [walk_into_dead_end] and the movement of the next pass: Pac-Man, with
    three lives, touches the first ghost and nothing else. *)
Definition game_at_first_touch : Game :=
  Eval vm_compute in
    match
      (g0 <- Game_init no_assets two_dead_end_levels 20 ;;
       g1 <- level_up 0%Q g0 ;;
       st <- play_game_loop walk_into_dead_end (g1, 0, 0) ;;
       handle_pacman_logic (in_keys (quiet_input 5%Q 0)) 5%Q (fun _ => 5%Q)
         (in_choice (quiet_input 5%Q 0)) (fst (fst st)))
    with
    | Ok g => g
    | Raise _ => last_life_game
    end.

(** Pac-Man on a point of the placeholder maze. *)
Definition game_on_point : Game :=
  mkGame (load_config_levels no_assets ∅) 20 default_matrix 0
         (mkPacman (Entity_init (40%Q, 40%Q) 5%Q) 3) [] 0 false 0%Q false.

(** The heading that [Ghost.change_direction_random] removes from its
    candidates: the reverse of the current one. *)
Definition opposite (d : direction) : direction :=
  match d with
  | Up => Down
  | Down => Up
  | Left => Right
  | Right => Left
  end.



(** The one-tile box at position [p] overlaps no cell that blocks the
    entity: no wall (code 1) and, for Pac-Man, no invisible wall (code 2). *)
Definition box_clear (m : Matrix) (ts : Z) (is_pacman : bool) (p : Pos) : Prop :=
  forall y x c,
    cell m y x = Some c ->
    c = 1 \/ (c = 2 /\ is_pacman = true) ->
    colliderect (entity_rect ts p) (wall_rect ts x y) = false.

(** The heading that [Pacman.move] reads from the keys: up before down
    before left before right, the current heading when none is pressed. *)
Definition requested_direction (keys : Keys) (current : direction) : direction :=
  if K_UP keys then Up
  else if K_DOWN keys then Down
  else if K_LEFT keys then Left
  else if K_RIGHT keys then Right
  else current.

(** Pac-Man at the left end of the corridor of [corner], heading right. *)
Definition pacman_in_corner : Pacman :=
  mkPacman (mkEntity (20%Q, 40%Q) (20%Q, 40%Q) 5%Q Right true false 0%Q 5%Q) 3.

(** The pixel position [[x * tile_size, y * tile_size]] of the cell in row
    [y], column [x]. *)
Definition pixel_pos (ts : Z) (y x : nat) : Pos :=
  (inject_Z (convert_to_pixels ts (Z.of_nat x)),
   inject_Z (convert_to_pixels ts (Z.of_nat y))).

(** Reading order: row by row, each row from left to right. *)
Definition reads_before (y x y' x' : nat) : Prop :=
  (y < y')%nat \/ (y = y' /\ (x <= x')%nat).

(** A level file with one row, which holds Pac-Man and a point. *)
Definition tiny_level : list (list (option Z)) := [[Some 7; Some 0]].

(** The integers of [tiny_level]. *)
Definition tiny_grid : Matrix := [[7; 0]].

(** A level file with rows of different lengths. *)
Definition ragged_level : list (list (option Z)) := [[Some 7; Some 0]; [Some 0]].

(** A configuration whose first level file is missing. *)
Definition levels_without_file : gmap Z csv_file := <[0 := Missing]> ∅.

(** How a game goes on: the configuration and the tile size stay as they
    are, the score and the level do not go down, and a game that is over
    stays over. *)
Definition carries_on (g g' : Game) : Prop :=
  levels g' = levels g /\ tile_size g' = tile_size g /\
  score g <= score g' /\ level g <= level g' /\
  (game_over g = true -> game_over g' = true).

(** Pac-Man has at most three lives, and at least one while the game is
    not over. *)
Definition lives_inv (g : Game) : Prop :=
  lives (pacman g) <= 3 /\ (game_over g = false -> 1 <= lives (pacman g)).

(** The current level is one of the configured levels. *)
Definition level_inv (g : Game) : Prop :=
  0 <= level g < Z.of_nat (size (levels g)) /\ is_Some (levels g !! level g).

(** Pac-Man on the fruit of a corridor whose other cells are empty. *)
Definition game_on_fruit : Game :=
  mkGame (load_config_levels no_assets ∅) 20
         [[3; 3; 3; 3; 3]; [3; -2; -1; -3; 3]; [3; 3; 3; 3; 3]] 0
         (mkPacman (Entity_init (20%Q, 20%Q) 5%Q) 3) [] 0 false 0%Q false.

(** A grid [m'] that is the grid [m] after play on one level: every cell
    is as it was, or held a code below 1 and now holds -1 (eaten) or -2
    (a fruit). *)
Definition worn (m m' : Matrix) : Prop :=
  forall y x,
    cell m' y x = cell m y x \/
    exists c, cell m y x = Some c /\ c < 1 /\
              (cell m' y x = Some (-1) \/ cell m' y x = Some (-2)).

(** The test of [collision_pacman_ghost] on one ghost: its box overlaps
    the box [rect] of Pac-Man. *)
Definition touching (ts : Z) (rect : Rect) (ghost : Ghost) : bool :=
  colliderect rect (entity_rect ts (pos ghost)).

(** A dead entity is at its start position. *)
Definition at_rest (e : Entity) : Prop := alive e = false -> pos e = start_pos e.

(** Pac-Man overlapping the first, frightened ghost of
    [game_with_eaten_ghost]. *)
Definition game_with_meal : Game :=
  set_pacman game_with_eaten_ghost
    (mkPacman (set_pos (entity (pacman game_with_eaten_ghost)) (70%Q, 40%Q)) 3).

(** A level with a power pill between Pac-Man and a ghost in a dead end. *)
Definition pill_levels : gmap Z csv_file :=
  <[0 := Rows [[Some 1; Some 1; Some 1; Some 1; Some 1; Some 1];
               [Some 1; Some 7; Some (-3); Some (-1); Some 5; Some 1];
               [Some 1; Some 1; Some 1; Some 1; Some 1; Some 1]]]> ∅.

(** The game constructed on [pill_levels]. *)
Definition game_on_pill_level : Game :=
  Eval vm_compute in
    match Game_init no_assets pill_levels 20 with
    | Ok g => g
    | Raise _ => last_life_game
    end.

(** No key pressed, the clock at 0, every ghost keeps its heading, no
    fruit. *)
Definition calm_input : Input :=
  mkInput (mkKeys false false false false) 0%Q (fun _ => 2%nat) 1 0 0.

(** The game, the score and the fruit counter on [pill_levels] after nine
    passes of [calm_input]: Pac-Man has walked over the power pill and into
    the ghost. *)
Definition state_after_meal : Game * Z * Z :=
  Eval vm_compute in
    match play_game_loop (replicate 9 calm_input) (game_on_pill_level, 0, 0) with
    | Ok st => st
    | Raise _ => (game_on_pill_level, 0, 0)
    end.

Definition game_after_meal : Game := Eval vm_compute in fst (fst state_after_meal).

(** The ghost of [game_after_meal]. *)
Definition eaten_ghost : Ghost :=
  Eval vm_compute in hd (Ghost_init 20 (100%Q, 40%Q)) (ghosts game_after_meal).

(** The state after the first pass of [calm_input] on [pill_levels]. *)
Definition state_after_pass : Game * Z * Z :=
  Eval vm_compute in
    match tick calm_input (game_on_pill_level, 0, 0) with
    | Ok st => st
    | Raise _ => (game_on_pill_level, 0, 0)
    end.

(** ** Menus *)

(** [a % n] on ints: the result has the sign of [n]; [ZeroDivisionError]
    on 0. *)
Definition py_mod (a n : Z) : result Z :=
  if decide (n = 0) then Raise ZeroDivisionError else Ok (a `mod` n).

(** The keys of [pygame.key.get_pressed()] that the menus read. *)
Record MenuKeys : Type := mkMenuKeys {
  arrows : Keys;
  K_RETURN : bool
}.

(** [mygame.last_input_time] and [mygame.input_delay]. *)
Record InputClock : Type := mkInputClock {
  last_input_time : Q;
  input_delay : Q
}.

(** [current_time - mygame.last_input_time > mygame.input_delay]. *)
Definition input_due (current_time : Q) (c : InputClock) : bool :=
  negb (Qle_bool (current_time - last_input_time c) (input_delay c)).

(** [mygame.last_input_time = current_time]. *)
Definition stamp (current_time : Q) (c : InputClock) : InputClock :=
  mkInputClock current_time (input_delay c).

(** [handle_menu_input(mygame, menu_options, selected_option)], with
    [time.time()] read as [current_time]; returns the clock of the game
    object next to the tuple
    [(selected_option, confirmed, left, right)]. *)
Definition handle_menu_input {A : Type} (keys : MenuKeys) (current_time : Q)
    (c : InputClock) (menu_options : list A) (selected_option : Z)
    : result (InputClock * (Z * bool * bool * bool)) :=
  up <- (if K_UP (arrows keys) && input_due current_time c then
           s <- py_mod (selected_option + 1) (Z.of_nat (length menu_options)) ;;
           Ok (stamp current_time c, s)
         else Ok (c, selected_option)) ;;
  down <- (if K_DOWN (arrows keys) && input_due current_time (fst up) then
             s <- py_mod (snd up - 1) (Z.of_nat (length menu_options)) ;;
             Ok (stamp current_time (fst up), s)
           else Ok up) ;;
  if K_RETURN keys && input_due current_time (fst down) then
    Ok (stamp current_time (fst down), (snd down, true, false, false))
  else if K_LEFT (arrows keys) && input_due current_time (fst down) then
    Ok (stamp current_time (fst down), (snd down, false, true, false))
  else if K_RIGHT (arrows keys) && input_due current_time (fst down) then
    Ok (stamp current_time (fst down), (snd down, false, false, true))
  else Ok (fst down, (snd down, false, false, false)).

(** What a call of [handle_menu_input] amounts to when the delay is not
    negative: the first key in the order up, down, return, left, right that
    is pressed is handled, if an input is due at all. *)
Definition first_key {A : Type} (keys : MenuKeys) (current_time : Q)
    (c : InputClock) (menu_options : list A) (selected_option : Z)
    : InputClock * (Z * bool * bool * bool) :=
  let n := Z.of_nat (length menu_options) in
  if input_due current_time c then
    if K_UP (arrows keys) then
      (stamp current_time c, ((selected_option + 1) `mod` n, false, false, false))
    else if K_DOWN (arrows keys) then
      (stamp current_time c, ((selected_option - 1) `mod` n, false, false, false))
    else if K_RETURN keys then (stamp current_time c, (selected_option, true, false, false))
    else if K_LEFT (arrows keys) then
      (stamp current_time c, (selected_option, false, true, false))
    else if K_RIGHT (arrows keys) then
      (stamp current_time c, (selected_option, false, false, true))
    else (c, (selected_option, false, false, false))
  else (c, (selected_option, false, false, false)).

(** Only the up key, only the down key. *)
Definition key_up : MenuKeys := mkMenuKeys (mkKeys true false false false) false.
Definition key_down : MenuKeys := mkMenuKeys (mkKeys false true false false) false.

(** The clock of a new game: [last_input_time = 0], [input_delay = 0.2]. *)
Definition new_clock : InputClock := mkInputClock 0%Q (2 # 10)%Q.

(** The options of the main menu, by their positions. *)
Definition main_menu_options : list nat := [0; 1; 2; 3; 4]%nat.

(** ** Screen resolution *)

(** An entry [[width, height, tile_size]] of [available_resolutions];
    [Game._init_settings] asserts that every entry has three elements. *)
Abbreviation Resolution := (Z * Z * Z)%type.

(** The attributes of [Game] that hold the resolution, next to
    [tile_size]. *)
Record Screen : Type := mkScreen {
  screen_width : Z;
  screen_height : Z;
  available_resolutions : list Resolution
}.

Definition set_tile_size (g : Game) (ts : Z) : Game :=
  mkGame (levels g) ts (matrix g) (level g) (pacman g) (ghosts g) (score g)
         (power_pill_active g) (power_pill_start_time g) (game_over g).

(** [l.index(x)]: the first position that holds [x]; [ValueError] if there
    is none. *)
Fixpoint list_index (x : Resolution) (l : list Resolution) : result nat :=
  match l with
  | [] => Raise ValueError
  | y :: rest =>
      if decide (y = x) then Ok O
      else i <- list_index x rest ;; Ok (S i)
  end.

(** [try: body except ValueError: handler]. *)
Definition except_ValueError {A : Type} (body handler : result A) : result A :=
  match body with
  | Raise ValueError => handler
  | r => r
  end.

(** [Game.adjust_resolution(direction)], on the screen attributes and the
    game.  The new window, the rescaled images and the settings file do
    not enter the simulation and are left out. *)
Definition adjust_resolution (direction : string) (sg : Screen * Game)
    : result (Screen * Game) :=
  let s := fst sg in
  let g := snd sg in
  let current_config := (screen_width s, screen_height s, tile_size g) in
  current_index <- except_ValueError
                     (list_index current_config (available_resolutions s)) (Ok O) ;;
  new_index <- (if String.eqb direction "left" then
                  i <- py_mod (Z.of_nat current_index - 1)
                         (Z.of_nat (length (available_resolutions s))) ;;
                  Ok (Some i)
                else if String.eqb direction "right" then
                  i <- py_mod (Z.of_nat current_index + 1)
                         (Z.of_nat (length (available_resolutions s))) ;;
                  Ok (Some i)
                else Ok None) ;;
  match new_index with
  | None => Ok sg
  | Some i =>
      r <- getitem (available_resolutions s) i ;;
      Ok (mkScreen (fst (fst r)) (snd (fst r)) (available_resolutions s),
          set_tile_size g (snd r))
  end.

(** The resolution that is set: [[width, height, tile_size]]. *)
Definition resolution (sg : Screen * Game) : Resolution :=
  (screen_width (fst sg), screen_height (fst sg), tile_size (snd sg)).

(** Three resolutions and a game at the second of them. *)
Definition three_resolutions : list Resolution :=
  [(800, 600, 20); (1000, 750, 25); (1200, 900, 30)].

Definition screen_of_three : Screen * Game :=
  (mkScreen 1000 750 three_resolutions, set_tile_size game_on_point 25).

(** ** High scores *)

(** An entry [(name, score)] of [mygame.highscores]. *)
Abbreviation Highscore := (string * Z)%type.

(** Insertion into a list with descending scores, in front of the first
    entry whose score is not higher. *)
Fixpoint insert_by_score (x : Highscore) (l : list Highscore) : list Highscore :=
  match l with
  | [] => [x]
  | y :: rest =>
      if decide (snd x < snd y) then y :: insert_by_score x rest else x :: y :: rest
  end.

(** [sorted(l, key=lambda x: x[1], reverse=True)].  [sorted] is stable, also
    with [reverse=True]: its result is the permutation of [l] with
    descending scores in which entries of equal score keep their order.
    Insertion from the right computes that list (lemma
    [sorted_by_score_stable]). *)
Definition sorted_by_score (l : list Highscore) : list Highscore :=
  foldr insert_by_score [] l.

(** The statements of [add_highscore] behind its input loop: the entry is
    appended, the list is sorted and cut to five. *)
Definition record_highscore (name : string) (score : Z) (highscores : list Highscore)
    : list Highscore :=
  take 5 (sorted_by_score (highscores ++ [(name, score)])).

(** The keys that the input loop of [add_highscore] tells apart. *)
Inductive key : Type := Key_ESCAPE | Key_RETURN | Key_BACKSPACE | Key_other.

(** A pygame event as [add_highscore] reads it.  [upper] is the value of
    [event.unicode.upper()], the upper case of the text that the key
    produced, one character of the string for each code point; the table
    of [str.upper] is not part of the embedding.  The loop reads the text
    of no key but [Key_other].  A key whose upper-cased text holds a code
    point that is no character of a string changes nothing in the loop,
    since that text is not in [ALLOWED_CHARS]: it is an [other_event]. *)
Inductive event : Type :=
  | QUIT
  | KEYDOWN (k : key) (upper : string)
  | other_event.

Definition ALLOWED_CHARS : string := "ABCDEFGHIJKLMNOPQRSTUVWXYZ0123456789".

(** [s in t] on strings: [s] occurs in [t] as a substring. *)
Definition py_in (s t : string) : bool :=
  match String.index 0 s t with
  | Some _ => true
  | None => false
  end.

(** [name[:-1]]. *)
Fixpoint but_last (s : string) : string :=
  match s with
  | EmptyString => EmptyString
  | String a rest =>
      match rest with
      | EmptyString => EmptyString
      | String _ _ => String a (but_last rest)
      end
  end.

(** Where the input loop of [add_highscore] stands: still running with
    [name] and [input_active], left by [return], or left by
    [sys.exit()]. *)
Inductive entry : Type :=
  | Typing (name : string) (input_active : bool)
  | Returned
  | Exited.

(** The body of [for event in pygame.event.get()]. *)
Definition handle_event (ev : event) (name : string) (input_active : bool) : entry :=
  match ev with
  | QUIT => Exited
  | KEYDOWN Key_ESCAPE _ => Returned
  | KEYDOWN Key_RETURN _ =>
      if (0 <? String.length name)%nat then Typing name false
      else Typing name input_active
  | KEYDOWN Key_BACKSPACE _ => Typing (but_last name) input_active
  | KEYDOWN Key_other upper =>
      if py_in upper ALLOWED_CHARS && (String.length name <? 3)%nat
      then Typing (name +:+ upper) input_active
      else Typing name input_active
  | other_event => Typing name input_active
  end.

(** The [for] loop over the events of one pass. *)
Fixpoint handle_events (events : list event) (name : string) (input_active : bool)
    : entry :=
  match events with
  | [] => Typing name input_active
  | ev :: rest =>
      match handle_event ev name input_active with
      | Typing name' active' => handle_events rest name' active'
      | e => e
      end
  end.

(** [while input_active], with the events that each pass receives; the
    loop is followed for as many passes as there are lists of events. *)
Fixpoint input_loop (passes : list (list event)) (name : string) : entry :=
  match passes with
  | [] => Typing name true
  | events :: rest =>
      match handle_events events name true with
      | Typing name' true => input_loop rest name'
      | e => e
      end
  end.

(** How a call of [add_highscore] ends. *)
Inductive added : Type :=
  | Recorded (highscores : list Highscore)
  | Cancelled
  | Left_game
  | Still_asking (name : string).

(** [add_highscore(mygame, score)] on [mygame.highscores].  The drawing,
    the time of the last input that the return key stores, and the writing
    of the file are left out. *)
Definition add_highscore (passes : list (list event)) (score : Z)
    (highscores : list Highscore) : added :=
  match input_loop passes EmptyString with
  | Typing name false => Recorded (record_highscore name score highscores)
  | Typing name true => Still_asking name
  | Returned => Cancelled
  | Exited => Left_game
  end.

(** No key appends more than one character: whenever
    [event.unicode.upper()] is in [ALLOWED_CHARS], it has at most one
    character.  This bounds the upper-cased text, not the text of the key:
    the upper case of one character can have two, that of the ligature
    U+FB06 is "ST". *)
Definition single_upper_case (passes : list (list event)) : Prop :=
  forall events upper,
    events ∈ passes -> KEYDOWN Key_other upper ∈ events ->
    py_in upper ALLOWED_CHARS = true -> (String.length upper <= 1)%nat.

(** The player types A, B, C, D, deletes once, and confirms. *)
Definition typed_name : list (list event) :=
  [[KEYDOWN Key_other "A"]; [KEYDOWN Key_other "B"; KEYDOWN Key_other "C"];
   [KEYDOWN Key_other "D"; other_event]; [KEYDOWN Key_BACKSPACE ""];
   [KEYDOWN Key_RETURN ""]].

(** The player types A, B and a key whose text has the upper case "ST",
    and confirms. *)
Definition typed_ligature : list (list event) :=
  [[KEYDOWN Key_other "A"; KEYDOWN Key_other "B"]; [KEYDOWN Key_other "ST"];
   [KEYDOWN Key_RETURN ""]].

(** The player types A and, within one pass of the loop, confirms and
    deletes. *)
Definition typed_and_deleted : list (list event) :=
  [[KEYDOWN Key_other "A"]; [KEYDOWN Key_RETURN ""; KEYDOWN Key_BACKSPACE ""]].

(** Scores do not go up along the list. *)
Definition descending (l : list Highscore) : Prop :=
  forall i j x y, (i < j)%nat -> l !! i = Some x -> l !! j = Some y -> snd y <= snd x.

(** The table that [load_highscores] writes when there is no file, and a
    fuller one. *)
Definition default_highscores : list Highscore :=
  [("AAA", 1500); ("BBB", 1200); ("CCC", 900)].

Definition full_highscores : list Highscore :=
  [("AAA", 1500); ("BBB", 1200); ("CCC", 900); ("DDD", 900); ("EEE", 100)].

(** Every character of the name is one of [ALLOWED_CHARS]. *)
Definition allowed_characters (name : string) : Prop :=
  forall c, c ∈ String.list_ascii_of_string name -> c ∈ String.list_ascii_of_string ALLOWED_CHARS.

(** No cell of the grid holds a point. *)
Definition no_points (m : Matrix) : Prop := forall y x, cell m y x <> Some 0.

(** A game whose grid holds one last point, next to Pac-Man. *)
Definition game_with_last_point : Game :=
  mkGame (load_config_levels no_assets ∅) 20
         [[3; 3; 3; 3; 3]; [3; 7; 0; -1; 3]; [3; 3; 3; 3; 3]] 0
         (mkPacman (Entity_init (20%Q, 20%Q) 5%Q) 3) [] 0 false 0%Q false.

(** The game constructed on [levels_without_file]. *)
Definition game_on_placeholder : Game :=
  Eval vm_compute in
    match Game_init no_assets levels_without_file 20 with
    | Ok g => g
    | Raise _ => last_life_game
    end.

(** ** Facts about the Python primitives *)

Lemma py_index_lt (len : nat) (i : Z) (k : nat) :
  py_index len i = Some k -> (k < len)%nat.
Proof.
  unfold py_index. repeat case_decide; intros [= <-]; lia.
Qed.

Lemma item_Ok {A : Type} (l : list A) (i : nat) (a : A) :
  item l i = Ok a <-> l !! i = Some a.
Proof.
  unfold item. destruct (l !! i); split; congruence.
Qed.

Lemma getitem_Ok {A : Type} (l : list A) (i : Z) (a : A) :
  getitem l i = Ok a <-> exists k, py_index (length l) i = Some k /\ l !! k = Some a.
Proof.
  unfold getitem. destruct (py_index (length l) i) as [k|].
  - rewrite item_Ok. split; [eauto | intros (k' & [= <-] & H); exact H].
  - split; [discriminate | intros (k & [=] & _)].
Qed.

Lemma bind_Ok {A B : Type} (m : result A) (k : A -> result B) (b : B) :
  bind m k = Ok b <-> exists a, m = Ok a /\ k a = Ok b.
Proof.
  destruct m as [a|e]; simpl; split.
  - eauto.
  - intros (a' & [= <-] & H); exact H.
  - discriminate.
  - intros (a' & [=] & _).
Qed.


(** ** The wall scan *)

Section Scan.
Variable hit : nat -> nat -> Z -> bool.

Lemma scan_row_spec (y : nat) (row : list Z) (x n : nat) :
  (x + n <= length row)%nat ->
  exists b, scan_row (hit y) row x n = Ok b /\
    (b = true <->
     exists k c, (x <= k < x + n)%nat /\ row !! k = Some c /\ hit y k c = true).
Proof.
  revert x. induction n as [|n IH]; intros x Hlen; simpl.
  - exists false. split; [done|]. split; [done|]. intros (k & c & ? & _); lia.
  - destruct (lookup_lt_is_Some_2 row x) as [c Hc]; [lia|].
    unfold item. rewrite Hc. simpl.
    destruct (hit y x c) eqn:Hhit.
    + exists true. split; [done|]. split; [|done].
      intros _. exists x, c. split; [lia|done].
    + destruct (IH (S x)) as (b & Hb & Hiff); [lia|].
      exists b. split; [done|]. rewrite Hiff. split.
      * intros (k & c' & ? & ? & ?). exists k, c'. split; [lia|done].
      * intros (k & c' & Hk & Hl & Hh). destruct (decide (k = x)) as [->|].
        -- congruence.
        -- exists k, c'. split; [lia|done].
Qed.

Lemma scan_rows_spec (m : Matrix) (y n : nat) :
  rectangular m ->
  (y + n <= length m)%nat ->
  exists b, scan_rows hit m y n = Ok b /\
    (b = true <->
     exists j k c, (y <= j < y + n)%nat /\ cell m j k = Some c /\ hit j k c = true).
Proof.
  intros Hrect. revert y. induction n as [|n IH]; intros y Hlen; simpl.
  - exists false. split; [done|]. split; [done|]. intros (j & k & c & ? & _); lia.
  - destruct (lookup_lt_is_Some_2 m 0) as [row0 H0]; [lia|].
    destruct (lookup_lt_is_Some_2 m y) as [row Hy]; [lia|].
    unfold item. rewrite H0, Hy. simpl.
    assert (Hw : length row = length row0).
    { unfold rectangular in Hrect. rewrite Forall_lookup in Hrect.
      rewrite (Hrect _ _ Hy). unfold width. destruct m; simpl in *; by simplify_eq. }
    destruct (scan_row_spec y row 0 (length row0)) as (b & Hb & Hiff); [lia|].
    rewrite Hb. simpl. destruct b.
    + exists true. split; [done|]. split; [|done]. intros _.
      destruct Hiff as [Hiff _]. destruct (Hiff eq_refl) as (k & c & Hk & Hl & Hh).
      exists y, k, c. unfold cell. rewrite Hy. split; [lia|done].
    + destruct (IH (S y)) as (b & Hb' & Hiff'); [lia|].
      exists b. split; [done|]. rewrite Hiff'. split.
      * intros (j & k & c & ? & ? & ?). exists j, k, c. split; [lia|done].
      * intros (j & k & c & Hj & Hc & Hh). destruct (decide (j = y)) as [->|].
        -- unfold cell in Hc. rewrite Hy in Hc.
           assert (false = true); [|done]. apply Hiff. exists k, c.
           split; [|done]. apply lookup_lt_Some in Hc. lia.
        -- exists j, k, c. split; [lia|done].
Qed.
End Scan.

Lemma cell_blocks_true (ts : Z) (rect : Rect) (is_pacman : bool) (y x : nat) (c : Z) :
  cell_blocks ts rect is_pacman y x c = true <->
  colliderect rect (wall_rect ts x y) = true /\ (c = 1 \/ (c = 2 /\ is_pacman = true)).
Proof.
  unfold cell_blocks.
  rewrite orb_true_iff, !andb_true_iff, !Z.eqb_eq. tauto.
Qed.

(** [check_collision_wall] on a rectangular grid: it returns, and it
    returns [True] exactly when the moved box meets a cell that blocks. *)
Lemma check_collision_wall_spec (m : Matrix) (ts : Z) (d : direction) (v : Q)
    (p : Pos) (is_pacman : bool) :
  rectangular m ->
  exists b, check_collision_wall m ts d v p is_pacman = Ok b /\
    (b = true <->
     exists y x c, cell m y x = Some c /\
       colliderect (moved_rect ts d v p) (wall_rect ts x y) = true /\
       (c = 1 \/ (c = 2 /\ is_pacman = true))).
Proof.
  intros Hrect. unfold check_collision_wall.
  destruct (scan_rows_spec (cell_blocks ts (moved_rect ts d v p) is_pacman) m 0
              (length m) Hrect) as (b & Hb & Hiff); [lia|].
  exists b. split; [done|]. rewrite Hiff. split.
  - intros (j & k & c & _ & Hc & Hh). apply cell_blocks_true in Hh. eauto.
  - intros (y & x & c & Hc & Hh). exists y, x, c.
    split; [|split; [done | by apply cell_blocks_true]].
    unfold cell in Hc. destruct (m !! y) eqn:Hy; [|done].
    apply lookup_lt_Some in Hy. lia.
Qed.

(** C1, as stated, does not hold: on [corridor_with_barrier] a ghost at tile
    (1, 1) that moves right at speed 4 overlaps the invisible wall at tile
    (2, 1), and its movement test still answers [False]. *)
Lemma ghost_passes_invisible_wall :
  ~ (forall (m : Matrix) (ts : Z) (d : direction) (v : Q) (p : Pos) (y x : nat),
        cell m y x = Some 2 ->
        colliderect (moved_rect ts d v p) (wall_rect ts x y) = true ->
        check_collision_wall m ts d v p false = Ok true).
Proof.
  intros H.
  specialize (H corridor_with_barrier 20 Right 4%Q (20%Q, 20%Q) 1%nat 2%nat
                eq_refl eq_refl).
  vm_compute in H. discriminate H.
Qed.

(** C1 (amended): on a rectangular grid the movement test always returns;
    for a ghost ([is_pacman = False]) it answers [True] exactly when the
    moved box overlaps a wall cell (code 1), invisible walls (code 2) being
    ignored; for the player ([is_pacman = True]) it answers [True] exactly
    when the moved box overlaps a cell of code 1 or of code 2. *)
Theorem invisible_wall_blocks_player_only
    (m : Matrix) (ts : Z) (d : direction) (v : Q) (p : Pos) :
  rectangular m ->
  exists ghost_blocked player_blocked,
    check_collision_wall m ts d v p false = Ok ghost_blocked /\
    check_collision_wall m ts d v p true = Ok player_blocked /\
    (ghost_blocked = true <->
     exists y x, cell m y x = Some 1 /\
       colliderect (moved_rect ts d v p) (wall_rect ts x y) = true) /\
    (player_blocked = true <->
     exists y x c, cell m y x = Some c /\ (c = 1 \/ c = 2) /\
       colliderect (moved_rect ts d v p) (wall_rect ts x y) = true).
Proof.
  intros Hrect.
  destruct (check_collision_wall_spec m ts d v p false Hrect) as (bg & Hg & Hgi).
  destruct (check_collision_wall_spec m ts d v p true Hrect) as (bp & Hp & Hpi).
  exists bg, bp. repeat split; try done.
  - intros Hb. apply Hgi in Hb as (y & x & c & Hc & Ho & [-> | [_ [=]]]). eauto.
  - intros (y & x & Hc & Ho). apply Hgi. exists y, x, 1. auto.
  - intros Hb. apply Hpi in Hb as (y & x & c & Hc & Ho & Hcode).
    exists y, x, c. intuition.
  - intros (y & x & c & Hc & Hcode & Ho). apply Hpi. exists y, x, c. intuition.
Qed.

Lemma rectangular_corridor_with_barrier : rectangular corridor_with_barrier.
Proof. repeat constructor. Qed.

Lemma invisible_wall_blocks_player_only_witness :
  rectangular corridor_with_barrier /\
  exists ghost_blocked player_blocked,
    check_collision_wall corridor_with_barrier 20 Right 4%Q (20%Q, 20%Q) false
      = Ok ghost_blocked /\
    check_collision_wall corridor_with_barrier 20 Right 4%Q (20%Q, 20%Q) true
      = Ok player_blocked /\
    (ghost_blocked = true <->
     exists y x, cell corridor_with_barrier y x = Some 1 /\
       colliderect (moved_rect 20 Right 4%Q (20%Q, 20%Q)) (wall_rect 20 x y) = true) /\
    (player_blocked = true <->
     exists y x c, cell corridor_with_barrier y x = Some c /\ (c = 1 \/ c = 2) /\
       colliderect (moved_rect 20 Right 4%Q (20%Q, 20%Q)) (wall_rect 20 x y) = true).
Proof.
  split.
  - exact rectangular_corridor_with_barrier.
  - apply (invisible_wall_blocks_player_only corridor_with_barrier 20 Right 4%Q
             (20%Q, 20%Q)).
    exact rectangular_corridor_with_barrier.
Defined.

(** ** Teleport *)



(** ** Pickups *)

Lemma occupied_Some (m : Matrix) (ts : Z) (p : Pos) (y x : nat) :
  occupied m ts p = Some (y, x) ->
  convert_to_pixels ts 1 <> 0 /\
  py_index (length m) (py_int (snd p / inject_Z (convert_to_pixels ts 1))) = Some y /\
  exists row, m !! y = Some row /\
    py_index (length row) (py_int (fst p / inject_Z (convert_to_pixels ts 1))) = Some x.
Proof.
  unfold occupied. case_decide; [done|].
  destruct (py_index (length m) _) as [y'|] eqn:Hy; [|done].
  destruct (m !! y') as [row|] eqn:Hrow; [|done].
  destruct (py_index (length row) _) as [x'|] eqn:Hx; [|done].
  intros [= <- <-]. eauto.
Qed.

Lemma set_cell_Ok (m : Matrix) (iy ix : Z) (y x : nat) (row : list Z) (v : Z) :
  py_index (length m) iy = Some y ->
  m !! y = Some row ->
  py_index (length row) ix = Some x ->
  set_cell m iy ix v = Ok (<[y := <[x := v]> row]> m).
Proof.
  intros Hy Hrow Hx. unfold set_cell, getitem, setitem, item.
  rewrite Hy, Hrow. simpl. rewrite Hx. done.
Qed.

Lemma cell_insert (m : Matrix) (y x : nat) (row : list Z) (v : Z) (y' x' : nat) :
  m !! y = Some row ->
  (x < length row)%nat ->
  cell (<[y := <[x := v]> row]> m) y' x' =
  if decide ((y', x') = (y, x)) then Some v else cell m y' x'.
Proof.
  intros Hrow Hx. unfold cell.
  assert (Hy : (y < length m)%nat) by (by eapply lookup_lt_Some).
  destruct (decide (y' = y)) as [->|Hne].
  - rewrite list_lookup_insert_eq by done. rewrite Hrow.
    destruct (decide (x' = x)) as [->|Hnx].
    + rewrite list_lookup_insert_eq by done. by rewrite decide_True.
    + rewrite list_lookup_insert_ne by done. rewrite decide_False; [done|congruence].
  - rewrite list_lookup_insert_ne by done. rewrite decide_False; [done|congruence].
Qed.



(** ** Fruits *)

Lemma elem_of_randint (a b k : Z) : k ∈ randint a b <-> a <= k <= b.
Proof. unfold randint. rewrite elem_of_seqZ. lia. Qed.

Lemma length_randint (a b : Z) : length (randint a b) = Z.to_nat (b - a + 1).
Proof. unfold randint. apply length_seqZ. Qed.

Lemma filter_eq_NoDup (l : list Z) (i : Z) :
  NoDup l -> i ∈ l -> length (filter (fun k => bool_decide (k = i) = true) l) = 1%nat.
Proof.
  induction 1 as [|k l Hk Hnd IH]; intros Hi.
  - by apply elem_of_nil in Hi.
  - rewrite filter_cons. destruct (decide (k = i)) as [->|Hne].
    + rewrite decide_True by (by apply bool_decide_eq_true_2). simpl. f_equal.
      destruct (filter _ l) as [|k' rest] eqn:Hf; [done|].
      assert (Hin : k' ∈ filter (fun k => bool_decide (k = i) = true) l)
        by (rewrite Hf; apply list_elem_of_here).
      apply list_elem_of_filter in Hin as [Hdec Hin].
      apply bool_decide_eq_true_1 in Hdec as ->. done.
    + rewrite decide_False.
      * apply IH. apply elem_of_cons in Hi as [->|Hi]; done.
      * intros Hdec. by apply bool_decide_eq_true_1 in Hdec.
Qed.

(** A draw of [random.randint(a, b)] hits each value of the range with
    probability one over the size of the range. *)
Lemma randint_uniform (a b i : Z) :
  a <= i <= b ->
  probability (fun k => bool_decide (k = i)) (randint a b) =
  (1 # Pos.of_nat (Z.to_nat (b - a + 1)))%Q.
Proof.
  intros Hi. unfold probability.
  rewrite filter_eq_NoDup, length_randint; [done | apply NoDup_seqZ |].
  by apply elem_of_randint.
Qed.

(** C9, as stated, does not hold: [random.randint(0, 200)] has 201 equally
    likely outcomes, so the guard of [place_fruits] does not pass with
    probability 1/200. *)
Lemma fruit_probability_is_not_one_in_200 :
  ~ (probability (fruit_guard 0) (randint 0 200) == 1 # 200)%Q.
Proof. vm_compute. discriminate. Qed.

Lemma place_fruits_guarded (r x y : Z) (g : Game) (fruit_count : Z) :
  fruit_guard fruit_count r = true ->
  0 <= x < Z.of_nat (height (matrix g)) ->
  0 <= y < Z.of_nat (width (matrix g)) ->
  rectangular (matrix g) ->
  exists row c,
    matrix g !! Z.to_nat x = Some row /\ row !! Z.to_nat y = Some c /\
    place_fruits r x y g fruit_count =
    if decide (c < 1)
    then Ok (fruit_count + 1,
             set_matrix g (<[Z.to_nat x := <[Z.to_nat y := -2]> row]> (matrix g)))
    else Ok (fruit_count, g).
Proof.
  unfold height, width. intros Hguard Hx Hy Hrect.
  destruct (lookup_lt_is_Some_2 (matrix g) (Z.to_nat x)) as [row Hrow]; [lia|].
  assert (Hlen : length row = length (hd [] (matrix g))).
  { unfold rectangular in Hrect. rewrite Forall_lookup in Hrect. exact (Hrect _ _ Hrow). }
  destruct (lookup_lt_is_Some_2 row (Z.to_nat y)) as [c Hc]; [rewrite Hlen; lia|].
  exists row, c. split; [done|]. split; [done|].
  assert (Hix : py_index (length (matrix g)) x = Some (Z.to_nat x)).
  { unfold py_index. by rewrite decide_True. }
  assert (Hiy : py_index (length row) y = Some (Z.to_nat y)).
  { unfold py_index. rewrite decide_True; [done|lia]. }
  assert (H0 : getitem (matrix g) 0 = Ok (hd [] (matrix g))).
  { destruct (matrix g); simpl in *; [lia|done]. }
  assert (Hcell : getitem (matrix g) x = Ok row).
  { apply getitem_Ok. eauto. }
  assert (Hcode : getitem row y = Ok c).
  { apply getitem_Ok. eauto. }
  unfold place_fruits. rewrite Hguard.
  rewrite decide_False by lia.
  rewrite H0. cbn [bind]. rewrite decide_False by lia.
  rewrite Hcell. cbn [bind]. rewrite Hcode. cbn [bind].
  destruct (decide (c < 1)); [|done].
  by rewrite (set_cell_Ok (matrix g) x y (Z.to_nat x) (Z.to_nat y) row (-2)).
Qed.

Lemma probability_ext {A : Type} (e1 e2 : A -> bool) (l : list A) :
  (forall a, e1 a = e2 a) -> probability e1 l = probability e2 l.
Proof.
  intros H. unfold probability. do 3 f_equal.
  apply list_filter_iff. intros a. by rewrite H.
Qed.

(** C9 (amended): the guard of [place_fruits] passes with probability
    exactly 1/201 while the counter is below 2, and never once it has
    reached 2; the row and the column of the tile are drawn uniformly; and
    when the guard has passed, a fruit (-2) is written into the drawn tile,
    and the counter goes up by one, exactly when the code of that tile is
    less than 1, nothing changing otherwise. *)
Theorem fruit_placement (g : Game) (fruit_count : Z) :
  (fruit_count < 2 ->
   probability (fruit_guard fruit_count) (randint 0 200) = (1 # 201)%Q) /\
  (2 <= fruit_count -> forall r, fruit_guard fruit_count r = false) /\
  (forall i, 0 <= i < Z.of_nat (height (matrix g)) ->
   probability (fun x => bool_decide (x = i))
     (randint 0 (Z.of_nat (height (matrix g)) - 1)) =
   (1 # Pos.of_nat (height (matrix g)))%Q) /\
  (forall j, 0 <= j < Z.of_nat (width (matrix g)) ->
   probability (fun y => bool_decide (y = j))
     (randint 0 (Z.of_nat (width (matrix g)) - 1)) =
   (1 # Pos.of_nat (width (matrix g)))%Q) /\
  (forall r x y,
   rectangular (matrix g) ->
   x ∈ randint 0 (Z.of_nat (height (matrix g)) - 1) ->
   y ∈ randint 0 (Z.of_nat (width (matrix g)) - 1) ->
   exists c m',
     cell (matrix g) (Z.to_nat x) (Z.to_nat y) = Some c /\
     cell m' (Z.to_nat x) (Z.to_nat y) = Some (-2) /\
     (forall y' x', (y', x') <> (Z.to_nat x, Z.to_nat y) ->
        cell m' y' x' = cell (matrix g) y' x') /\
     place_fruits r x y g fruit_count =
     if fruit_guard fruit_count r && bool_decide (c < 1)
     then Ok (fruit_count + 1, set_matrix g m')
     else Ok (fruit_count, g)).
Proof.
  split; [|split; [|split; [|split]]].
  - intros Hlt.
    rewrite (probability_ext _ (fun r => bool_decide (r = 0))).
    + by rewrite randint_uniform.
    + intros r. unfold fruit_guard. by rewrite (bool_decide_eq_true_2 _ Hlt).
  - intros Hge r. unfold fruit_guard. rewrite bool_decide_eq_false_2; [done|lia].
  - intros i Hi. rewrite randint_uniform by lia. do 2 f_equal. lia.
  - intros j Hj. rewrite randint_uniform by lia. do 2 f_equal. lia.
  - intros r x y Hrect Hx Hy.
    apply elem_of_randint in Hx. apply elem_of_randint in Hy.
    destruct (fruit_guard fruit_count r) eqn:Hguard.
    + destruct (place_fruits_guarded r x y g fruit_count Hguard) as
        (row & c & Hrow & Hc & Hplace); [lia | lia | done |].
      exists c, (<[Z.to_nat x := <[Z.to_nat y := -2]> row]> (matrix g)).
      pose proof (lookup_lt_Some _ _ _ Hc) as Hlt.
      split; [by unfold cell; rewrite Hrow|]. split; [|split].
      * rewrite (cell_insert _ _ _ _ _ _ _ Hrow Hlt). by rewrite decide_True.
      * intros y' x' Hne. rewrite (cell_insert _ _ _ _ _ _ _ Hrow Hlt).
        by rewrite decide_False.
      * rewrite Hplace. simpl. by destruct (decide (c < 1)); 
          [rewrite bool_decide_eq_true_2 | rewrite bool_decide_eq_false_2].
    + unfold height, width in *.
      destruct (lookup_lt_is_Some_2 (matrix g) (Z.to_nat x)) as [row Hrow]; [lia|].
      assert (Hlen : length row = length (hd [] (matrix g))).
      { unfold rectangular in Hrect. rewrite Forall_lookup in Hrect.
        exact (Hrect _ _ Hrow). }
      destruct (lookup_lt_is_Some_2 row (Z.to_nat y)) as [c Hc]; [lia|].
      exists c, (<[Z.to_nat x := <[Z.to_nat y := -2]> row]> (matrix g)).
      pose proof (lookup_lt_Some _ _ _ Hc) as Hlt.
      split; [by unfold cell; rewrite Hrow|]. split; [|split].
      * rewrite (cell_insert _ _ _ _ _ _ _ Hrow Hlt). by rewrite decide_True.
      * intros y' x' Hne. rewrite (cell_insert _ _ _ _ _ _ _ Hrow Hlt).
        by rewrite decide_False.
      * unfold place_fruits. by rewrite Hguard.
Qed.

(** ** Loading levels *)

(** [load_level_from_csv] catches every exception of its body. *)
Lemma load_level_from_csv_total (f : csv_file) :
  exists m, load_level_from_csv f = Ok m.
Proof.
  unfold load_level_from_csv. destruct (read_level f) as [m|[]]; eauto.
Qed.

Lemma load_level_from_csv_missing : load_level_from_csv Missing = Ok default_matrix.
Proof. reflexivity. Qed.

(** What [level_up] does when a further level is configured. *)
Lemma level_up_advance (now : Q) (g g' : Game) :
  level g < Z.of_nat (size (levels g)) - 1 ->
  level_up now g = Ok g' ->
  exists f m start rest,
    levels g !! (level g + 1) = Some f /\
    load_level_from_csv f = Ok m /\
    find_coordinates_of_value m (tile_size g) 7 = start :: rest /\
    g' = mkGame (levels g) (tile_size g) m (level g + 1)
           (Pacman_kill now (mkPacman (entity (Pacman_init (tile_size g) start))
                                      (lives (Pacman_init (tile_size g) start) + 1)))
           (create_ghosts_from_matrix m (tile_size g))
           (score g) (power_pill_active g) (power_pill_start_time g) (game_over g).
Proof.
  intros Hlt. unfold level_up. rewrite decide_True by done.
  unfold level_file, create_pacman_from_matrix. simpl.
  destruct (levels g !! (level g + 1)) as [f|] eqn:Hf; simpl; [|done].
  destruct (load_level_from_csv_total f) as [m Hm]. rewrite Hm. simpl.
  destruct (find_coordinates_of_value m (tile_size g) 7) as [|start rest] eqn:Hstart;
    simpl; [done|].
  intros [= <-]. exists f, m, start, rest. done.
Qed.

(** The handler [except FileNotFoundError] of [level_up] never runs: an
    advance that returns leaves the game-over flag as it was. *)
Lemma level_up_handler_is_dead (now : Q) (g g' : Game) :
  level g < Z.of_nat (size (levels g)) - 1 ->
  level_up now g = Ok g' ->
  game_over g' = game_over g.
Proof.
  intros Hlt Hup.
  by destruct (level_up_advance now g g' Hlt Hup) as (f & m & start & rest & _ & _ & _ & ->).
Qed.

(** C4, as stated, does not hold: [level_up] builds a new Pac-Man, so a
    player who advances with one life left does not come out with two. *)
Lemma level_up_does_not_add_a_life :
  ~ (forall (now : Q) (g g' : Game),
        level g < Z.of_nat (size (levels g)) - 1 ->
        level_up now g = Ok g' ->
        lives (pacman g') = lives (pacman g) + 1).
Proof.
  intros H.
  assert (Hup : exists g', level_up 0%Q last_life_game = Ok g' /\ lives (pacman g') = 3).
  { eexists. split; [vm_compute; reflexivity | reflexivity]. }
  destruct Hup as (g' & Hup & Hlives).
  specialize (H 0%Q last_life_game g').
  rewrite Hlives in H. simpl in H.
  assert (Hlt : 0 < Z.of_nat (size (levels last_life_game)) - 1) by (by vm_compute).
  specialize (H Hlt Hup). discriminate H.
Qed.

(** C4 (amended): an advance to a further level whose grid holds a spawn
    marker of the player returns, and keeps the session's score; it replaces
    the player by a new Pac-Man at the first spawn marker of the new grid,
    who has 3 lives whatever the lives were before (3, plus 1, minus 1 for
    the kill that pauses the game) and waits to respawn; and it replaces the
    ghosts by those of the spawn markers of the new grid. *)
Theorem level_up_recreates_player (now : Q) (g : Game) (f : csv_file) (m : Matrix)
    (start : Q * Q) (rest : list (Q * Q)) :
  level g < Z.of_nat (size (levels g)) - 1 ->
  levels g !! (level g + 1) = Some f ->
  load_level_from_csv f = Ok m ->
  find_coordinates_of_value m (tile_size g) 7 = start :: rest ->
  exists g',
    level_up now g = Ok g' /\
    score g' = score g /\
    lives (pacman g') = 3 /\
    matrix g' = m /\
    pos (entity (pacman g')) = start /\
    start_pos (entity (pacman g')) = start /\
    alive (entity (pacman g')) = false /\
    respawn_time (entity (pacman g')) = now /\
    ghosts g' = create_ghosts_from_matrix m (tile_size g) /\
    level g' = level g + 1 /\
    game_over g' = game_over g.
Proof.
  intros Hlt Hf Hm Hstart. unfold level_up. rewrite decide_True by done.
  unfold level_file, create_pacman_from_matrix. simpl.
  rewrite Hf. simpl. rewrite Hm. simpl. rewrite Hstart. simpl.
  eexists. split; [reflexivity|]. simpl. repeat split; reflexivity.
Qed.

Lemma level_up_recreates_player_witness :
  exists g',
    level_up 0%Q last_life_game = Ok g' /\
    score g' = score last_life_game /\
    lives (pacman g') = 3 /\
    matrix g' = default_matrix /\
    pos (entity (pacman g')) = (60%Q, 60%Q) /\
    start_pos (entity (pacman g')) = (60%Q, 60%Q) /\
    alive (entity (pacman g')) = false /\
    respawn_time (entity (pacman g')) = 0%Q /\
    ghosts g' = create_ghosts_from_matrix default_matrix (tile_size last_life_game) /\
    level g' = level last_life_game + 1 /\
    game_over g' = game_over last_life_game.
Proof.
  apply (level_up_recreates_player 0%Q last_life_game Missing default_matrix
           (60%Q, 60%Q) []).
  - vm_compute. reflexivity.
  - vm_compute. reflexivity.
  - reflexivity.
  - vm_compute. reflexivity.
Defined.

(** C8 on the code: a level file that is missing at the first level gives
    the placeholder maze; a level file that is missing at a level advance
    gives the placeholder maze as well, and the game is not over, because
    [load_level_from_csv] has caught the [FileNotFoundError] that the
    handler of [level_up] waits for. *)
Theorem missing_level_never_ends_the_game :
  (exists g, Game_init no_assets (<[0 := Missing]> ∅) 20 = Ok g /\ matrix g = default_matrix) /\
  (exists g', level_up 0%Q game_before_missing_level = Ok g' /\
     level g' = 1 /\ matrix g' = default_matrix /\ game_over g' = false).
Proof.
  split.
  - eexists. split; [vm_compute; reflexivity | reflexivity].
  - eexists. split; [vm_compute; reflexivity | done].
Qed.

(** ** Power pill and ghost speed *)

Lemma keeps_power_fields (ghost ghost' : Ghost) :
  speed ghost' = speed ghost ->
  frightened ghost' = frightened ghost ->
  original_speed ghost' = original_speed ghost ->
  keeps_power ghost ghost'.
Proof.
  unfold keeps_power, ghost_ok. intros -> -> ->. done.
Qed.

Lemma keeps_power_refl (ghost : Ghost) : keeps_power ghost ghost.
Proof. by apply keeps_power_fields. Qed.

Lemma keeps_power_trans (g1 g2 g3 : Ghost) :
  keeps_power g1 g2 -> keeps_power g2 g3 -> keeps_power g1 g3.
Proof. unfold keeps_power. intuition. Qed.

Lemma keeps_power_respawn (ghost : Ghost) : keeps_power ghost (respawn ghost).
Proof. unfold keeps_power, ghost_ok. simpl. done. Qed.

Lemma keeps_power_kill (now : Q) (ghost : Ghost) : keeps_power ghost (Entity_kill now ghost).
Proof. unfold Entity_kill. destruct (alive ghost); by apply keeps_power_fields. Qed.

Lemma keeps_power_change_direction (r : nat) (ghost : Ghost) :
  keeps_power ghost (change_direction_random r ghost).
Proof.
  unfold change_direction_random.
  destruct (_ !! r); by apply keeps_power_fields.
Qed.

Lemma keeps_power_Entity_move (m : Matrix) (ts : Z) (b : bool) (ghost ghost' : Ghost) :
  Entity_move m ts b ghost = Ok ghost' -> keeps_power ghost ghost'.
Proof.
  unfold Entity_move. intros H. apply bind_Ok in H as (blocked & _ & H).
  destruct blocked; injection H as <-; by apply keeps_power_fields.
Qed.

Lemma keeps_power_probe (m : Matrix) (ts : Z) (d : direction)
    (st st' : Entity * list direction) :
  probe m ts d st = Ok st' -> keeps_power (fst st) (fst st').
Proof.
  unfold probe. destruct (decide _) as [Hd|Hd].
  - intros [= <-]. apply keeps_power_refl.
  - intros H. apply bind_Ok in H as (blocked & _ & H). destruct blocked.
    + injection H as <-. apply keeps_power_refl.
    + apply bind_Ok in H as (t & _ & H).
      destruct (fst t); injection H as <-; by apply keeps_power_fields.
Qed.

Lemma keeps_power_is_intersection (m : Matrix) (ts : Z) (ghost : Ghost)
    (t : bool * Entity) :
  is_intersection m ts ghost = Ok t -> keeps_power ghost (snd t).
Proof.
  unfold is_intersection, possible_directions. intros H.
  apply bind_Ok in H as (s & H & Ht). injection Ht as <-. simpl.
  apply bind_Ok in H as (s1 & H1 & H).
  apply bind_Ok in H as (s2 & H2 & H).
  apply bind_Ok in H as (s3 & H3 & H4).
  apply keeps_power_probe in H1, H2, H3, H4. simpl in H1.
  eauto using keeps_power_trans.
Qed.

Lemma keeps_power_Ghost_move (m : Matrix) (ts : Z) (r : nat) (ghost ghost' : Ghost) :
  Ghost_move m ts r ghost = Ok ghost' -> keeps_power ghost ghost'.
Proof.
  unfold Ghost_move. intros H. apply bind_Ok in H as (blocked & _ & H).
  destruct blocked.
  - injection H as <-. apply keeps_power_change_direction.
  - apply bind_Ok in H as (g1 & Hmove & H).
    apply bind_Ok in H as (t & Hinter & H).
    apply keeps_power_Entity_move in Hmove.
    apply keeps_power_is_intersection in Hinter.
    destruct (fst t); injection H as <-;
      eauto using keeps_power_trans, keeps_power_change_direction.
Qed.

Lemma keeps_power_update_ghost (m : Matrix) (ts : Z) (now : Q) (r : nat)
    (ghost ghost' : Ghost) :
  update_ghost m ts now r ghost = Ok ghost' -> keeps_power ghost ghost'.
Proof.
  unfold update_ghost. destruct (_ && _).
  - intros [= <-]. apply keeps_power_respawn.
  - destruct (alive ghost).
    + apply keeps_power_Ghost_move.
    + intros [= <-]. apply keeps_power_refl.
Qed.

(** [update_ghosts] handles the ghosts one by one, each at its index. *)
Lemma update_ghosts_from_lookup (m : Matrix) (ts : Z) (now : nat -> Q)
    (rnd : nat -> nat) (i0 : nat) (gs gs' : list Entity) :
  update_ghosts_from m ts now rnd i0 gs = Ok gs' ->
  length gs' = length gs /\
  forall i ghost, gs !! i = Some ghost ->
    exists ghost', gs' !! i = Some ghost' /\
      update_ghost m ts (now (i0 + i)%nat) (rnd (i0 + i)%nat) ghost = Ok ghost'.
Proof.
  revert i0 gs'. induction gs as [|ghost0 rest IH]; intros i0 gs' H; simpl in H.
  - injection H as <-. split; [done|]. intros i ghost Hl. done.
  - apply bind_Ok in H as (ghost0' & H0 & H).
    apply bind_Ok in H as (rest' & Hrest & H). injection H as <-.
    destruct (IH _ _ Hrest) as [Hlen Hall]. split; [simpl; by rewrite Hlen|].
    intros [|i] ghost Hl; simpl in Hl.
    + injection Hl as <-. exists ghost0'. rewrite Nat.add_0_r. done.
    + destruct (Hall i ghost Hl) as (ghost' & Hl' & Hu).
      exists ghost'. split; [done|].
      replace (i0 + S i)%nat with (S i0 + i)%nat by lia. done.
Qed.

Lemma Forall2_keeps_power_inv (gs gs' : list Entity) :
  Forall2 keeps_power gs gs' ->
  (Forall ghost_ok gs -> Forall ghost_ok gs') /\
  (Forall (fun ghost => frightened ghost = false) gs ->
   Forall (fun ghost => frightened ghost = false) gs').
Proof.
  induction 1 as [|ghost ghost' gs gs' [Hok Hfr] _ [IHok IHfr]].
  - done.
  - split; intros Hall; apply Forall_cons in Hall as [? ?];
      apply Forall_cons; auto.
Qed.

Lemma update_ghosts_from_keeps (m : Matrix) (ts : Z) (now : nat -> Q)
    (rnd : nat -> nat) (i0 : nat) (gs gs' : list Entity) :
  update_ghosts_from m ts now rnd i0 gs = Ok gs' -> Forall2 keeps_power gs gs'.
Proof.
  revert i0 gs'. induction gs as [|ghost0 rest IH]; intros i0 gs' H; simpl in H.
  - injection H as <-. constructor.
  - apply bind_Ok in H as (ghost0' & H0 & H).
    apply bind_Ok in H as (rest' & Hrest & H). injection H as <-.
    constructor; [by eapply keeps_power_update_ghost | by eapply IH].
Qed.

Lemma fresh_ghosts_ok (m : Matrix) (ts : Z) :
  Forall ghost_ok (create_ghosts_from_matrix m ts) /\
  Forall (fun ghost => frightened ghost = false) (create_ghosts_from_matrix m ts).
Proof.
  unfold create_ghosts_from_matrix.
  split; apply Forall_fmap, Forall_true; intros p; by unfold ghost_ok.
Qed.

(** Changes that touch neither the ghosts nor the power flag. *)
Lemma power_inv_frame (g g' : Game) :
  ghosts g' = ghosts g ->
  power_pill_active g' = power_pill_active g ->
  power_inv g -> power_inv g'.
Proof. unfold power_inv. intros -> ->. done. Qed.

Lemma power_inv_fresh (g g' : Game) (m : Matrix) (ts : Z) :
  ghosts g' = create_ghosts_from_matrix m ts -> power_inv g'.
Proof.
  unfold power_inv. intros ->. destruct (fresh_ghosts_ok m ts). done.
Qed.

Lemma power_inv_init (a : Assets) (lv : gmap Z csv_file) (ts : Z) (g : Game) :
  Game_init a lv ts = Ok g -> power_inv g.
Proof.
  unfold Game_init. cbv zeta. intros H.
  apply bind_Ok in H as (f & _ & H).
  apply bind_Ok in H as (m & _ & H).
  apply bind_Ok in H as (p & _ & H). injection H as <-.
  by eapply (power_inv_fresh (mkGame ∅ ts m 0 p [] 0 false 0%Q false)).
Qed.

Lemma power_inv_update_ghosts (now : nat -> Q) (rnd : nat -> nat) (g g' : Game) :
  update_ghosts now rnd g = Ok g' -> power_inv g -> power_inv g'.
Proof.
  unfold update_ghosts. intros H [Hok Hfr].
  apply bind_Ok in H as (gs & Hgs & H). injection H as <-.
  apply update_ghosts_from_keeps, Forall2_keeps_power_inv in Hgs as [Hok' Hfr'].
  split; simpl; auto.
Qed.

Lemma power_inv_handle_pacman_logic (keys : Keys) (now : Q) (nows : nat -> Q)
    (rnd : nat -> nat) (g g' : Game) :
  handle_pacman_logic keys now nows rnd g = Ok g' -> power_inv g -> power_inv g'.
Proof.
  unfold handle_pacman_logic. destruct (_ && _).
  - intros [= <-]. by apply power_inv_frame.
  - destruct (alive _).
    + intros H Hinv. apply bind_Ok in H as (p' & _ & H).
      eapply power_inv_update_ghosts; [exact H|]. by eapply power_inv_frame.
    + by intros [= <-].
Qed.

Lemma power_inv_collide (rect : Rect) (now : Q) (i : nat) (ghost : Entity) (g : Game) :
  ghosts g !! i = Some ghost -> power_inv g -> power_inv (collide rect now i ghost g).
Proof.
  intros Hi [Hok Hfr]. unfold collide.
  destruct (colliderect _ _); [|done].
  destruct (frightened ghost) eqn:Hf.
  - split; simpl.
    + apply Forall_insert; [done|].
      apply keeps_power_kill. by eapply Forall_lookup_1.
    + intros Hoff. specialize (Hfr Hoff).
      eapply Forall_lookup_1 in Hfr; [|exact Hi]. congruence.
  - case_decide; by eapply power_inv_fresh.
Qed.

Lemma power_inv_ghost_loop (fuel : nat) (rect : Rect) (now : nat -> Q) (i : nat)
    (g : Game) :
  power_inv g -> power_inv (ghost_loop fuel rect now i g).
Proof.
  revert i g. induction fuel as [|fuel IH]; intros i g Hinv; simpl; [done|].
  destruct (ghosts g !! i) as [ghost|] eqn:Hi; [|done].
  apply IH. by apply power_inv_collide.
Qed.

Lemma power_inv_activate (now : Q) (g : Game) :
  power_inv g -> power_inv (activate_power_pill now g).
Proof.
  intros [Hok Hfr]. unfold activate_power_pill.
  destruct (power_pill_active g) eqn:Hactive;
    [split; [done | intros; congruence]|].
  specialize (Hfr eq_refl). split; simpl; [|done].
  apply Forall_fmap. apply Forall_forall. intros ghost Hin.
  eapply Forall_forall in Hok, Hfr; [|exact Hin..].
  unfold ghost_ok in *. simpl. rewrite Hfr in Hok. by rewrite Hok.
Qed.

Lemma calm_ok (ghost : Entity) :
  ghost_ok ghost -> ghost_ok (calm ghost) /\ frightened (calm ghost) = false.
Proof.
  unfold calm, ghost_ok. destruct (frightened ghost) eqn:Hf; simpl; [done|].
  rewrite Hf. done.
Qed.

Lemma power_inv_update_power_pill (now : Q) (g : Game) :
  power_inv g -> power_inv (update_power_pill now g).
Proof.
  intros [Hok Hfr]. unfold update_power_pill. destruct (_ && _); [|done].
  split; simpl; [|intros _]; apply Forall_fmap; eapply Forall_impl; try exact Hok;
    intros ghost Hg; by apply calm_ok.
Qed.

Lemma power_inv_points (now : Q) (g : Game) (s : Z) (r : bool * Z * Game) :
  handle_collisions_and_points now g s = Ok r -> power_inv g -> power_inv (snd r).
Proof.
  unfold handle_collisions_and_points. intros H Hinv.
  apply bind_Ok in H as (qx & _ & H).
  apply bind_Ok in H as (qy & _ & H).
  apply bind_Ok in H as (row & _ & H).
  apply bind_Ok in H as (c & _ & H).
  repeat case_decide.
  - apply bind_Ok in H as (m & _ & H).
    destruct (negb _); injection H as <-; by eapply power_inv_frame.
  - apply bind_Ok in H as (m & _ & H). injection H as <-. by eapply power_inv_frame.
  - apply bind_Ok in H as (m & _ & H). injection H as <-.
    eapply power_inv_frame; [..|by apply (power_inv_activate now)]; done.
  - by injection H as <-.
Qed.

Lemma power_inv_level_up (now : Q) (g g' : Game) :
  level_up now g = Ok g' -> power_inv g -> power_inv g'.
Proof.
  intros H Hinv.
  destruct (decide (level g < Z.of_nat (size (levels g)) - 1)) as [Hlt|Hge].
  - destruct (level_up_advance now g g' Hlt H) as (f & m & start & rest & _ & _ & _ & ->).
    by eapply power_inv_fresh.
  - unfold level_up in H. rewrite decide_False in H by done.
    injection H as <-. by eapply power_inv_frame.
Qed.

Lemma power_inv_fruits (r x y : Z) (g : Game) (fc : Z) (t : Z * Game) :
  place_fruits r x y g fc = Ok t -> power_inv g -> power_inv (snd t).
Proof.
  unfold place_fruits. intros H Hinv.
  destruct (fruit_guard fc r); [|by injection H as <-].
  case_decide; [done|].
  apply bind_Ok in H as (row0 & _ & H). case_decide; [done|].
  apply bind_Ok in H as (row & _ & H).
  apply bind_Ok in H as (c & _ & H).
  case_decide; [|by injection H as <-].
  apply bind_Ok in H as (m & _ & H). injection H as <-. by eapply power_inv_frame.
Qed.

Lemma power_inv_step (g g' : Game) : step g g' -> power_inv g -> power_inv g'.
Proof.
  destruct 1 as [keys now nows rnd g g' H | now g | g g' H | now g
                | now g s won s' g' H | now g g' H | r x y g fc fc' g' H].
  - by eapply power_inv_handle_pacman_logic.
  - apply power_inv_ghost_loop.
  - unfold teleport_pacman in H. apply bind_Ok in H as (t & _ & H).
    injection H as <-. by apply power_inv_frame.
  - apply power_inv_update_power_pill.
  - apply (power_inv_points _ _ _ _ H).
  - by eapply power_inv_level_up.
  - apply (power_inv_fruits _ _ _ _ _ _ H).
Qed.

(** Every game that play can reach satisfies the invariant. *)
Lemma reachable_power_inv (g : Game) : reachable g -> power_inv g.
Proof.
  induction 1 as [a lv ts g Hinit | g g' _ IH Hstep].
  - by eapply power_inv_init.
  - by eapply power_inv_step.
Qed.

Lemma elapsed_more_than (now start limit : Q) :
  (limit < now - start)%Q -> negb (Qle_bool (now - start) limit) = true.
Proof.
  intros Hlt. apply negb_true_iff, not_true_is_false. intros Hle.
  apply Qle_bool_iff in Hle. by apply Qlt_not_le in Hlt.
Qed.

Lemma calm_frighten_speed (gs : list Entity) :
  Forall ghost_ok gs ->
  Forall (fun ghost => frightened ghost = false) gs ->
  map speed (map calm (map frighten gs)) = map speed gs.
Proof.
  induction gs as [|ghost gs IH]; intros Hok Hfr; [done|].
  apply Forall_cons in Hok as [Hok1 Hok], Hfr as [Hfr1 Hfr].
  simpl. f_equal; [|by apply IH].
  unfold ghost_ok in Hok1. rewrite Hfr1 in Hok1. done.
Qed.

Lemma dead_end_game_init : Game_init no_assets dead_end_levels 20 = Ok dead_end_game.
Proof. vm_compute. reflexivity. Qed.

Lemma dead_end_game_reachable : reachable dead_end_game.
Proof. eapply reachable_init. exact dead_end_game_init. Qed.

(** C5: activating the power pill while it is active changes nothing in the
    game; in a game that play can reach, when more than 5 time units have
    passed, the update ends the power mode and gives every frightened ghost
    its original speed, which is twice the speed it had while frightened;
    and from any game that play can reach with the power mode off,
    activation followed by that update leaves every ghost with the speed it
    had. *)
Theorem power_pill_exclusive :
  (forall now g, power_pill_active g = true -> activate_power_pill now g = g) /\
  (forall now g i ghost,
     reachable g ->
     power_pill_active g = true ->
     (5 < now - power_pill_start_time g)%Q ->
     ghosts g !! i = Some ghost ->
     frightened ghost = true ->
     power_pill_active (update_power_pill now g) = false /\
     exists ghost', ghosts (update_power_pill now g) !! i = Some ghost' /\
       speed ghost' = original_speed ghost /\ frightened ghost' = false /\
       speed ghost = (speed ghost' / 2)%Q) /\
  (forall t1 t2 g,
     reachable g ->
     power_pill_active g = false ->
     (5 < t2 - t1)%Q ->
     map speed (ghosts (update_power_pill t2 (activate_power_pill t1 g))) =
     map speed (ghosts g)).
Proof.
  split; [|split].
  - intros now g Hactive. unfold activate_power_pill. by rewrite Hactive.
  - intros now g i ghost Hreach Hactive Hlate Hi Hf.
    destruct (reachable_power_inv g Hreach) as [Hok _].
    eapply Forall_lookup_1 in Hok; [|exact Hi]. unfold ghost_ok in Hok.
    rewrite Hf in Hok.
    unfold update_power_pill.
    rewrite Hactive, (elapsed_more_than _ _ _ Hlate). simpl. split; [done|].
    exists (calm ghost). rewrite list_lookup_fmap, Hi. split; [done|].
    unfold calm. rewrite Hf. done.
  - intros t1 t2 g Hreach Hoff Hlate.
    destruct (reachable_power_inv g Hreach) as [Hok Hfr]. specialize (Hfr Hoff).
    unfold activate_power_pill. rewrite Hoff.
    unfold update_power_pill. simpl.
    rewrite (elapsed_more_than _ _ _ Hlate). simpl.
    by apply calm_frighten_speed.
Qed.

Lemma power_pill_exclusive_witness :
  activate_power_pill 1%Q (activate_power_pill 0%Q dead_end_game) =
    activate_power_pill 0%Q dead_end_game /\
  map speed (ghosts (update_power_pill 6%Q (activate_power_pill 0%Q dead_end_game))) =
    map speed (ghosts dead_end_game).
Proof.
  split.
  - apply (proj1 power_pill_exclusive). reflexivity.
  - apply (proj2 (proj2 power_pill_exclusive) 0%Q 6%Q dead_end_game).
    + exact dead_end_game_reachable.
    + reflexivity.
    + reflexivity.
Defined.

(** C10: in every game that play can reach, each ghost has half its
    original speed while it is frightened and its original speed while it is
    not; and for a ghost that was eaten while frightened, once more than 3
    time units have passed, the update of the ghosts respawns it: alive, not
    frightened and at its original speed, also while the power pill is still
    active, and a further activation of the power pill does not touch it. *)
Theorem ghost_speed_invariant :
  (forall g, reachable g ->
     Forall (fun ghost =>
               speed ghost = if frightened ghost then (original_speed ghost / 2)%Q
                             else original_speed ghost) (ghosts g)) /\
  (forall now rnd g i ghost,
     power_pill_active g = true ->
     ghosts g !! i = Some ghost ->
     alive ghost = false ->
     frightened ghost = true ->
     (3 < now i - respawn_time ghost)%Q ->
     exists ghost',
       update_ghost (matrix g) (tile_size g) (now i) (rnd i) ghost = Ok ghost' /\
       alive ghost' = true /\
       frightened ghost' = false /\
       speed ghost' = original_speed ghost /\
       original_speed ghost' = original_speed ghost /\
       forall g', update_ghosts now rnd g = Ok g' ->
         power_pill_active g' = true /\
         ghosts g' !! i = Some ghost' /\
         forall t, ghosts (activate_power_pill t g') !! i = Some ghost').
Proof.
  split.
  - intros g Hreach. by destruct (reachable_power_inv g Hreach).
  - intros now rnd g i ghost Hactive Hi Hdead Hf Hlate.
    assert (Hone : update_ghost (matrix g) (tile_size g) (now i) (rnd i) ghost =
                   Ok (respawn ghost)).
    { unfold update_ghost. by rewrite Hdead, (elapsed_more_than _ _ _ Hlate). }
    exists (respawn ghost). split; [done|]. do 4 (split; [done|]).
    intros g' Hup. unfold update_ghosts in Hup.
    apply bind_Ok in Hup as (gs & Hgs & Hup). injection Hup as <-. simpl.
    apply update_ghosts_from_lookup in Hgs as [_ Hall].
    destruct (Hall i ghost Hi) as (ghost' & Hi' & Hu). simpl in Hu.
    rewrite Hone in Hu. injection Hu as <-.
    split; [done|]. split; [done|].
    intros t. unfold activate_power_pill. simpl. by rewrite Hactive.
Qed.

Lemma ghost_speed_invariant_witness :
  Forall (fun ghost =>
            speed ghost = if frightened ghost then (original_speed ghost / 2)%Q
                          else original_speed ghost) (ghosts dead_end_game) /\
  exists ghost',
    update_ghost (matrix game_with_eaten_ghost) (tile_size game_with_eaten_ghost)
      5%Q 2%nat (Entity_kill 1%Q (frighten (Ghost_init 20 (100%Q, 40%Q)))) = Ok ghost' /\
    alive ghost' = true /\
    frightened ghost' = false /\
    speed ghost' = 4%Q /\
    original_speed ghost' = 4%Q /\
    forall g',
      update_ghosts (fun _ => 5%Q) (fun _ => 2%nat) game_with_eaten_ghost = Ok g' ->
      power_pill_active g' = true /\
      ghosts g' !! 1%nat = Some ghost' /\
      forall t, ghosts (activate_power_pill t g') !! 1%nat = Some ghost'.
Proof.
  split.
  - apply (proj1 ghost_speed_invariant). exact dead_end_game_reachable.
  - apply (proj2 ghost_speed_invariant (fun _ => 5%Q) (fun _ => 2%nat)
             game_with_eaten_ghost 1%nat
             (Entity_kill 1%Q (frighten (Ghost_init 20 (100%Q, 40%Q))))).
    + reflexivity.
    + reflexivity.
    + reflexivity.
    + reflexivity.
    + reflexivity.
Defined.

(** ** The intersection test *)


(** What one of the four tests does. *)
Lemma probe_cases (m : Matrix) (ts : Z) (d : direction)
    (st st' : Entity * list direction) :
  probe m ts d st = Ok st' ->
  (st' = st /\
   (d = skipped_heading (fst st) \/
    check_collision_wall m ts d (speed (fst st)) (pos (fst st)) false = Ok true)) \/
  (d <> skipped_heading (fst st) /\
   check_collision_wall m ts d (speed (fst st)) (pos (fst st)) false = Ok false /\
   exists t,
     check_for_teleport m ts (pos (fst st)) (current_direction (fst st)) = Ok t /\
     st' = (set_pos (fst st) (snd t), if fst t then snd st else snd st ++ [d])).
Proof.
  unfold probe, skipped_heading. destruct (decide _) as [Hd|Hd].
  - intros [= <-]. left. auto.
  - intros H. apply bind_Ok in H as (blocked & Hb & H). destruct blocked.
    + injection H as <-. left. auto.
    + apply bind_Ok in H as (t & Ht & H). right.
      split; [congruence|]. split; [done|]. exists t. split; [done|].
      destruct (fst t); by injection H as <-.
Qed.











Section OnTeleport.
Variables (m : Matrix) (ts : Z) (g : Entity) (p' : Q * Q).
Hypothesis Htile : tile_at m ts (pos g) = Ok 3.
Hypothesis Htarget : teleport_target m ts (pos g) (current_direction g) = Ok p'.




Hypothesis Hrect : rectangular m.
Hypothesis Htile' : exists c', tile_at m ts p' = Ok c'.


End OnTeleport.



Lemma rectangular_corner : rectangular corner.
Proof. repeat constructor. Qed.


(** In [corner] the ghost heads right; the way up and the way back are free,
    the ways down and ahead are blocked, and the test answers [True]: the way
    back, the reverse of the heading, is one of the two it has counted. *)
Lemma is_intersection_counts_the_way_back :
  possible_directions corner 20 ghost_in_corner = Ok (ghost_in_corner, [Up; Left]) /\
  is_intersection corner 20 ghost_in_corner = Ok (true, ghost_in_corner) /\
  check_collision_wall corner 20 Right 4%Q (60%Q, 40%Q) false = Ok true /\
  check_collision_wall corner 20 Down 4%Q (60%Q, 40%Q) false = Ok true.
Proof. repeat split; vm_compute; reflexivity. Qed.

(** ** Pac-Man against the ghosts *)

Lemma collide_frame (rect : Rect) (now : Q) (i : nat) (ghost : Entity) (g : Game) :
  matrix (collide rect now i ghost g) = matrix g /\
  tile_size (collide rect now i ghost g) = tile_size g /\
  (length (ghosts (collide rect now i ghost g)) = length (ghosts g) \/
   length (ghosts (collide rect now i ghost g)) =
   length (create_ghosts_from_matrix (matrix g) (tile_size g))).
Proof.
  unfold collide. destruct (colliderect _ _); [|auto].
  destruct (frightened ghost).
  - simpl. rewrite length_insert. auto.
  - case_decide; simpl; auto.
Qed.

(** The fuel given to the loop of [collision_pacman_ghost] is enough: the
    loop has run off the end of the list before the fuel is used up, so more
    fuel does not change its result. *)
Lemma ghost_loop_fuel (fuel extra : nat) (rect : Rect) (now : nat -> Q) (i : nat)
    (g : Game) :
  (length (ghosts g) `max`
   length (create_ghosts_from_matrix (matrix g) (tile_size g)) <= i + fuel)%nat ->
  ghost_loop (fuel + extra) rect now i g = ghost_loop fuel rect now i g.
Proof.
  revert i g. induction fuel as [|fuel IH]; intros i g Hbound.
  - simpl. destruct extra as [|extra]; [done|]. simpl.
    rewrite lookup_ge_None_2; [done|lia].
  - simpl. destruct (ghosts g !! i) as [ghost|] eqn:Hi; [|done].
    apply IH.
    destruct (collide_frame rect (now i) i ghost g) as (-> & -> & [-> | ->]); lia.
Qed.

Lemma collision_pacman_ghost_fuel (extra : nat) (now : nat -> Q) (g : Game) :
  ghost_loop (length (ghosts g) `max`
              length (create_ghosts_from_matrix (matrix g) (tile_size g)) + extra)
             (entity_rect (tile_size g) (pos (entity (pacman g)))) now 0 g =
  collision_pacman_ghost now g.
Proof. unfold collision_pacman_ghost. apply ghost_loop_fuel. lia. Qed.

(** One pass of the loop whose ghost is not frightened and overlaps the box
    of Pac-Man: a life goes, the ghosts are made anew, the power pill ends,
    and the game is over when no life is left. *)
Lemma collide_fatal (rect : Rect) (now : Q) (i : nat) (ghost : Entity) (g : Game) :
  colliderect rect (entity_rect (tile_size g) (pos ghost)) = true ->
  frightened ghost = false ->
  let g' := collide rect now i ghost g in
  lives (pacman g') = lives (pacman g) - 1 /\
  ghosts g' = create_ghosts_from_matrix (matrix g) (tile_size g) /\
  power_pill_active g' = false /\
  game_over g' = (if decide (lives (pacman g) - 1 <= 0) then true else game_over g).
Proof.
  intros Hhit Hcalm. unfold collide. rewrite Hhit, Hcalm. simpl.
  case_decide; done.
Qed.

Lemma tick_reachable (i : Input) (st st' : Game * Z * Z) :
  tick i st = Ok st' -> reachable (fst (fst st)) -> reachable (fst (fst st')).
Proof.
  destruct st as [[g s] fc]. unfold tick. simpl. intros H Hreach.
  apply bind_Ok in H as (g1 & H1 & H).
  apply bind_Ok in H as (g3 & H3 & H).
  apply bind_Ok in H as ([[won s'] g5] & H5 & H).
  apply bind_Ok in H as (g6 & H6 & H).
  apply bind_Ok in H as ([fc' g7] & H7 & H). injection H as <-. simpl.
  assert (R1 : reachable g1) by eauto using reachable_step, step_pacman_logic.
  assert (R2 : reachable (collision_pacman_ghost (fun _ => in_now i) g1))
    by eauto using reachable_step, step_collision.
  assert (R3 : reachable g3) by eauto using reachable_step, step_teleport.
  assert (R4 : reachable (update_power_pill (in_now i) g3))
    by eauto using reachable_step, step_power_pill.
  assert (R5 : reachable g5) by eauto using reachable_step, step_points.
  assert (R6 : reachable g6).
  { destruct won; [eauto using reachable_step, step_level_up | by injection H6 as <-]. }
  eauto using reachable_step, step_fruits.
Qed.

Lemma play_game_loop_reachable (inputs : list Input) (st st' : Game * Z * Z) :
  play_game_loop inputs st = Ok st' ->
  reachable (fst (fst st)) -> reachable (fst (fst st')).
Proof.
  revert st. induction inputs as [|i rest IH]; intros st H Hreach; simpl in H.
  - by injection H as <-.
  - apply bind_Ok in H as (st1 & H1 & H).
    pose proof (tick_reachable _ _ _ H1 Hreach) as R1.
    destruct (game_over _); [by injection H as <- | by eapply IH].
Qed.

Lemma game_at_first_touch_reachable : reachable game_at_first_touch.
Proof.
  eapply reachable_step.
  - eapply (play_game_loop_reachable walk_into_dead_end (_, 0, 0) (_, _, _)).
    2: { simpl. eapply reachable_step.
         - eapply (reachable_init no_assets two_dead_end_levels 20). vm_compute. reflexivity.
         - eapply (step_level_up 0%Q). vm_compute. reflexivity. }
    vm_compute. reflexivity.
  - eapply (step_pacman_logic (in_keys (quiet_input 5%Q 0)) 5%Q (fun _ => 5%Q)
              (in_choice (quiet_input 5%Q 0))).
    vm_compute. reflexivity.
Qed.

(** C2 on the code: in [game_at_first_touch], which play reaches, Pac-Man
    has three lives and his box overlaps the first ghost only; the ghost is
    not frightened.  [collision_pacman_ghost] takes a life, refills the list
    of ghosts and goes on with the box it computed before the loop; that box
    overlaps the spawn cell of the second ghost, so a second life goes:
    three lives become one.  In the same game with two lives left, the same
    touch leaves no life and ends the game. *)
Theorem one_touch_costs_two_lives :
  reachable game_at_first_touch /\
  lives (pacman game_at_first_touch) = 3 /\
  map (fun ghost =>
         (colliderect
            (entity_rect (tile_size game_at_first_touch)
                         (pos (entity (pacman game_at_first_touch))))
            (entity_rect (tile_size game_at_first_touch) (pos ghost)),
          frightened ghost))
      (ghosts game_at_first_touch) = [(true, false); (false, false)] /\
  lives (pacman (collision_pacman_ghost (fun _ => 5%Q) game_at_first_touch)) = 1 /\
  (let g := set_pacman game_at_first_touch
              (mkPacman (entity (pacman game_at_first_touch)) 2) in
   lives (pacman (collision_pacman_ghost (fun _ => 5%Q) g)) = 0 /\
   game_over (collision_pacman_ghost (fun _ => 5%Q) g) = true).
Proof.
  split; [exact game_at_first_touch_reachable|].
  repeat split; vm_compute; reflexivity.
Qed.

(** ** Instances *)

Lemma rectangular_default_matrix : rectangular default_matrix.
Proof. repeat constructor. Qed.


Lemma fruit_placement_witness :
  probability (fruit_guard 0) (randint 0 200) = (1 # 201)%Q /\
  exists c m',
    cell (matrix game_on_point) (Z.to_nat 2) (Z.to_nat 2) = Some c /\
    cell m' (Z.to_nat 2) (Z.to_nat 2) = Some (-2) /\
    (forall y' x', (y', x') <> (Z.to_nat 2, Z.to_nat 2) ->
       cell m' y' x' = cell (matrix game_on_point) y' x') /\
    place_fruits 0 2 2 game_on_point 0 =
    if fruit_guard 0 0 && bool_decide (c < 1)
    then Ok (0 + 1, set_matrix game_on_point m')
    else Ok (0, game_on_point).
Proof.
  split.
  - apply (proj1 (fruit_placement game_on_point 0)). lia.
  - apply (proj2 (proj2 (proj2 (proj2 (fruit_placement game_on_point 0))))).
    + exact rectangular_default_matrix.
    + apply elem_of_randint. unfold height. simpl. lia.
    + apply elem_of_randint. unfold width. simpl. lia.
Defined.

(** ** Properties of every grid of play *)

Lemma ghost_loop_matrix (fuel : nat) (rect : Rect) (now : nat -> Q) (i : nat) (g : Game) :
  matrix (ghost_loop fuel rect now i g) = matrix g.
Proof.
  revert i g. induction fuel as [|fuel IH]; intros i g; simpl; [done|].
  destruct (ghosts g !! i) as [ghost|]; [|done].
  rewrite IH. by destruct (collide_frame rect (now i) i ghost g) as [-> _].
Qed.

Section GridInvariant.
(** A property of grids that the loader establishes and that survives the
    writing of a cell whose code is not 3. *)
Variable P : Matrix -> Prop.
Hypothesis P_load : forall f m, load_level_from_csv f = Ok m -> P m.
Hypothesis P_write : forall m m' iy ix v c row,
  getitem m iy = Ok row -> getitem row ix = Ok c -> c <> 3 ->
  set_cell m iy ix v = Ok m' -> P m -> P m'.

Lemma step_grid (g g' : Game) : step g g' -> P (matrix g) -> P (matrix g').
Proof using P_load P_write.
  destruct 1 as [keys now nows rnd g g' H | now g | g g' H | now g
                | now g s won s' g' H | now g g' H | r x y g fc fc' g' H]; intros HP.
  - unfold handle_pacman_logic in H. destruct (_ && _); [by injection H as <-|].
    destruct (alive _); [|by injection H as <-].
    apply bind_Ok in H as (p' & _ & H). unfold update_ghosts in H.
    apply bind_Ok in H as (gs & _ & H). by injection H as <-.
  - unfold collision_pacman_ghost. by rewrite ghost_loop_matrix.
  - unfold teleport_pacman in H. apply bind_Ok in H as (t & _ & H). by injection H as <-.
  - unfold update_power_pill. by destruct (_ && _).
  - unfold handle_collisions_and_points in H.
    apply bind_Ok in H as (qx & _ & H).
    apply bind_Ok in H as (qy & _ & H).
    apply bind_Ok in H as (row & Hrow & H).
    apply bind_Ok in H as (c & Hc & H).
    repeat case_decide.
    + apply bind_Ok in H as (m & Hm & H).
      destruct (negb _); injection H as _ _ <-;
        eapply (P_write _ _ _ _ _ c); eauto; lia.
    + apply bind_Ok in H as (m & Hm & H). injection H as _ _ <-.
      eapply (P_write _ _ _ _ _ c); eauto; lia.
    + apply bind_Ok in H as (m & Hm & H). injection H as _ _ <-.
      assert (Hsame : matrix (activate_power_pill now g) = matrix g).
      { unfold activate_power_pill. by destruct (power_pill_active g). }
      rewrite Hsame in Hm. simpl.
      eapply (P_write _ _ _ _ _ c); eauto; lia.
    + by injection H as _ _ <-.
  - destruct (decide (level g < Z.of_nat (size (levels g)) - 1)) as [Hlt|Hge].
    + destruct (level_up_advance now g g' Hlt H) as (f & m & start & rest & _ & Hm & _ & ->).
      by eapply P_load.
    + unfold level_up in H. rewrite decide_False in H by done. by injection H as <-.
  - unfold place_fruits in H.
    destruct (fruit_guard fc r); [|by injection H as _ <-].
    case_decide; [done|].
    apply bind_Ok in H as (row0 & _ & H). case_decide; [done|].
    apply bind_Ok in H as (row & Hrow & H).
    apply bind_Ok in H as (c & Hc & H).
    case_decide; [|by injection H as _ <-].
    apply bind_Ok in H as (m & Hm & H). injection H as _ <-.
    eapply (P_write _ _ _ _ _ c); eauto; lia.
Qed.

Lemma reachable_grid (g : Game) : reachable g -> P (matrix g).
Proof using P_load P_write.
  induction 1 as [a lv ts g Hinit | g g' _ IH Hstep].
  - unfold Game_init in Hinit. cbv zeta in Hinit.
    apply bind_Ok in Hinit as (f & _ & H).
    apply bind_Ok in H as (m & Hm & H).
    apply bind_Ok in H as (p & _ & H). injection H as <-.
    by eapply P_load.
  - by eapply step_grid.
Qed.
End GridInvariant.

Lemma set_cell_inv (m m' : Matrix) (iy ix v : Z) :
  set_cell m iy ix v = Ok m' ->
  exists y x row, m !! y = Some row /\ (x < length row)%nat /\
                  py_index (length m) iy = Some y /\
                  py_index (length row) ix = Some x /\
                  m' = <[y := <[x := v]> row]> m.
Proof.
  unfold set_cell. intros H.
  apply bind_Ok in H as (row & Hrow & H).
  apply bind_Ok in H as (row' & Hrow' & H).
  apply getitem_Ok in Hrow as (y & Hy & Hrow).
  unfold setitem in Hrow', H. rewrite Hy in H. injection H as <-.
  destruct (py_index (length row) ix) as [x|] eqn:Hx; [|done]. injection Hrow' as <-.
  exists y, x, row. split; [done|]. split; [by eapply py_index_lt|]. done.
Qed.

Lemma width_insert (m : Matrix) (y x : nat) (row : list Z) (v : Z) :
  m !! y = Some row -> width (<[y := <[x := v]> row]> m) = width m.
Proof.
  unfold width. intros Hrow.
  destruct m as [|row0 rest]; [done|]. destruct y as [|y]; simpl in *; [|done].
  injection Hrow as ->. by rewrite length_insert.
Qed.

Lemma set_cell_rectangular (m m' : Matrix) (iy ix v : Z) :
  set_cell m iy ix v = Ok m' -> rectangular m -> rectangular m'.
Proof.
  intros H Hrect. apply set_cell_inv in H as (y & x & row & Hrow & _ & _ & _ & ->).
  unfold rectangular. rewrite (width_insert _ _ _ _ _ Hrow).
  apply Forall_insert; [done|].
  rewrite length_insert. unfold rectangular in Hrect.
  rewrite Forall_lookup in Hrect. by eapply Hrect.
Qed.

Lemma set_cell_roomy (m m' : Matrix) (iy ix v : Z) :
  set_cell m iy ix v = Ok m' -> roomy m -> roomy m'.
Proof.
  intros H [Hh Hw]. apply set_cell_inv in H as (y & x & row & Hrow & _ & _ & _ & ->).
  unfold roomy, height. by rewrite length_insert, (width_insert _ _ _ _ _ Hrow).
Qed.

Lemma set_cell_border (m m' : Matrix) (iy ix v c : Z) (row : list Z) :
  getitem m iy = Ok row ->
  getitem row ix = Ok c ->
  c <> 3 ->
  set_cell m iy ix v = Ok m' ->
  border_is_3 m -> border_is_3 m'.
Proof.
  intros Hrow Hc Hne Hset Hborder.
  apply getitem_Ok in Hrow as (y & Hy & Hrow).
  apply getitem_Ok in Hc as (x & Hx & Hc).
  rewrite (set_cell_Ok m iy ix y x row v Hy Hrow Hx) in Hset. injection Hset as <-.
  assert (Hinner : forall k row', m !! k = Some row' -> Forall (fun c => c = 3) row' ->
                                  k <> y).
  { intros k row' Hk Hall ->. rewrite Hrow in Hk. injection Hk as <-.
    rewrite Forall_lookup in Hall. by apply Hall in Hc. }
  intros row' [H0 | Hlast].
  - destruct (decide (y = 0%nat)) as [->|Hy0].
    + exfalso. eapply (Hinner 0%nat row); [done| |done]. apply Hborder. by left.
    + rewrite list_lookup_insert_ne in H0 by done. apply Hborder. by left.
  - rewrite last_lookup, length_insert in Hlast.
    destruct (decide (y = pred (length m))) as [->|Hyl].
    + exfalso. eapply (Hinner (pred (length m)) row); [done| |done].
      apply Hborder. right. by rewrite last_lookup.
    + rewrite list_lookup_insert_ne in Hlast by done.
      apply Hborder. right. by rewrite last_lookup.
Qed.

(** What [load_level_from_csv] returns: a rectangular grid of at least two
    rows and columns whose first and last row hold only 3s. *)
Lemma load_level_from_csv_shape (f : csv_file) (m : Matrix) :
  load_level_from_csv f = Ok m -> rectangular m /\ roomy m /\ border_is_3 m.
Proof.
  assert (Hdefault : rectangular default_matrix /\ roomy default_matrix /\
                     border_is_3 default_matrix).
  { split; [exact rectangular_default_matrix|]. split; [split; vm_compute; lia|].
    intros row [H | H]; vm_compute in H; injection H as <-; repeat constructor. }
  unfold load_level_from_csv.
  destruct (read_level f) as [lm|e] eqn:Hread; [|by destruct e; intros [= <-]].
  intros [= <-]. unfold read_level in Hread. destruct f as [| |rows]; [done..|].
  apply bind_Ok in Hread as (rows' & _ & H).
  destruct (forallb _ rows') eqn:Hall; [|done]. injection H as <-.
  split; [|split].
  - unfold rectangular, width. simpl. rewrite length_replicate.
    apply Forall_cons. split; [by rewrite length_replicate|].
    apply Forall_app. split.
    + apply Forall_fmap, Forall_forall. intros row Hin. simpl.
      rewrite forallb_forall in Hall. apply list_elem_of_In, Hall, Nat.eqb_eq in Hin.
      rewrite length_app. simpl. lia.
    + apply Forall_singleton. by rewrite length_replicate.
  - unfold roomy, height, width. simpl.
    rewrite length_app, length_replicate. simpl. lia.
  - intros row [H0 | Hlast].
    + injection H0 as <-. by apply Forall_replicate.
    + rewrite app_comm_cons, last_snoc in Hlast. injection Hlast as <-.
      by apply Forall_replicate.
Qed.

(** The hypothesis [rectangular] of the theorems above holds throughout
    play: the loader only returns rectangular grids and pickups keep the
    shape. *)
Lemma reachable_rectangular (g : Game) : reachable g -> rectangular (matrix g).
Proof.
  apply reachable_grid.
  - intros f m Hm. by apply load_level_from_csv_shape in Hm as (? & _ & _).
  - intros m m' iy ix v c row _ _ _. apply set_cell_rectangular.
Qed.

Lemma reachable_roomy (g : Game) : reachable g -> roomy (matrix g).
Proof.
  apply reachable_grid.
  - intros f m Hm. by apply load_level_from_csv_shape in Hm as (_ & ? & _).
  - intros m m' iy ix v c row _ _ _. apply set_cell_roomy.
Qed.

(** In the grids of [load_level_from_csv] the first and the last row are one
    list object.  Throughout play both hold only 3s, and cells are written
    only where the code is 0, -2, -3 or below 1, so the shared rows are never
    written and modelling rows as values loses nothing. *)
Lemma reachable_border (g : Game) : reachable g -> border_is_3 (matrix g).
Proof.
  apply reachable_grid.
  - intros f m Hm. by apply load_level_from_csv_shape in Hm as (_ & _ & ?).
  - apply set_cell_border.
Qed.

(** ** Movement *)

Lemma moved_rect_advance (ts : Z) (d : direction) (v : Q) (p : Q * Q) :
  moved_rect ts d v p = entity_rect ts (advance d v p).
Proof. by destruct d. Qed.

(** X1: whatever stops a ghost stops the player: on a rectangular grid, when
    the movement test answers [True] for a ghost it answers [True] for
    Pac-Man at the same position, heading and speed. *)
Theorem ghost_blocked_player_blocked (m : Matrix) (ts : Z) (d : direction) (v : Q)
    (p : Pos) :
  rectangular m ->
  check_collision_wall m ts d v p false = Ok true ->
  check_collision_wall m ts d v p true = Ok true.
Proof.
  intros Hrect Hghost.
  destruct (check_collision_wall_spec m ts d v p false Hrect) as (bg & Hg & Hgi).
  destruct (check_collision_wall_spec m ts d v p true Hrect) as (bp & Hp & Hpi).
  rewrite Hg in Hghost. injection Hghost as ->. rewrite Hp. f_equal.
  apply Hpi. destruct (proj1 Hgi eq_refl) as (y & x & c & Hc & Ho & [-> | [_ [=]]]).
  exists y, x, 1. auto.
Qed.

Lemma ghost_blocked_player_blocked_witness :
  check_collision_wall corner 20 Right 4%Q (60%Q, 40%Q) true = Ok true.
Proof.
  apply (ghost_blocked_player_blocked corner 20 Right 4%Q (60%Q, 40%Q)).
  - exact rectangular_corner.
  - reflexivity.
Defined.

Lemma Entity_move_clear (m : Matrix) (ts : Z) (is_pacman : bool) (e : Entity) :
  rectangular m ->
  box_clear m ts is_pacman (pos e) ->
  exists e',
    Entity_move m ts is_pacman e = Ok e' /\
    box_clear m ts is_pacman (pos e') /\
    current_direction e' = current_direction e /\
    (e' = e \/ e' = set_pos e (advance (current_direction e) (speed e) (pos e))).
Proof.
  intros Hrect Hclear. unfold Entity_move.
  destruct (check_collision_wall_spec m ts (current_direction e) (speed e) (pos e)
              is_pacman Hrect) as (b & -> & Hiff).
  cbn [bind]. destruct b.
  - exists e. split; [done|]. split; [done|]. split; [done|]. by left.
  - eexists. split; [done|]. split; [|split; [done | by right]].
    intros y x c Hc Hcode. simpl.
    rewrite <- moved_rect_advance. apply not_true_is_false. intros Ho.
    assert (false = true); [|done]. apply Hiff. by exists y, x, c.
Qed.

(** X2: [Entity.move] keeps an entity out of the walls.  On every
    rectangular grid it returns, and the entity either stays where it is or
    advances by its speed along its heading; and if its box overlapped no
    blocking cell before, it overlaps none afterwards. *)
Theorem entity_move_stays_clear (m : Matrix) (ts : Z) (is_pacman : bool) (e : Entity) :
  rectangular m ->
  exists e',
    Entity_move m ts is_pacman e = Ok e' /\
    (e' = e \/ e' = set_pos e (advance (current_direction e) (speed e) (pos e))) /\
    (box_clear m ts is_pacman (pos e) -> box_clear m ts is_pacman (pos e')).
Proof.
  intros Hrect. unfold Entity_move.
  destruct (check_collision_wall_spec m ts (current_direction e) (speed e) (pos e)
              is_pacman Hrect) as (b & -> & Hiff).
  cbn [bind]. destruct b.
  - exists e. split; [done|]. split; [by left|done].
  - eexists. split; [done|]. split; [by right|].
    intros _ y x c Hc Hcode. simpl.
    rewrite <- moved_rect_advance. apply not_true_is_false. intros Ho.
    assert (false = true); [|done]. apply Hiff. by exists y, x, c.
Qed.

Lemma entity_move_stays_clear_witness :
  exists e',
    Entity_move corner 20 false ghost_in_corner = Ok e' /\
    (e' = ghost_in_corner \/
     e' = set_pos ghost_in_corner
            (advance (current_direction ghost_in_corner) (speed ghost_in_corner)
                     (pos ghost_in_corner))) /\
    (box_clear corner 20 false (pos ghost_in_corner) ->
     box_clear corner 20 false (pos e')).
Proof.
  apply (entity_move_stays_clear corner 20 false ghost_in_corner).
  exact rectangular_corner.
Defined.

(** X3: [Pacman.move] on a rectangular grid returns, keeps the lives and
    keeps Pac-Man out of walls and invisible walls; Pac-Man takes the
    heading asked for by the keys exactly when a step in that heading is
    free, and keeps his heading otherwise. *)
Theorem pacman_move_turns_only_when_free (m : Matrix) (ts : Z) (keys : Keys)
    (p : Pacman) :
  rectangular m ->
  box_clear m ts true (pos (entity p)) ->
  exists p' blocked,
    Pacman_move m ts keys p = Ok p' /\
    check_collision_wall m ts
      (requested_direction keys (current_direction (entity p)))
      (speed (entity p)) (pos (entity p)) true = Ok blocked /\
    current_direction (entity p') =
      (if blocked then current_direction (entity p)
       else requested_direction keys (current_direction (entity p))) /\
    lives p' = lives p /\
    box_clear m ts true (pos (entity p')).
Proof.
  intros Hrect Hclear.
  destruct (check_collision_wall_spec m ts
              (requested_direction keys (current_direction (entity p)))
              (speed (entity p)) (pos (entity p)) true Hrect) as (blocked & Hb & _).
  assert (Hturn : exists e1,
    (if decide (requested_direction keys (current_direction (entity p)) =
                current_direction (entity p)) then Ok (entity p)
     else
       blocked <- check_collision_wall m ts
                    (requested_direction keys (current_direction (entity p)))
                    (speed (entity p)) (pos (entity p)) true ;;
       if blocked then Ok (entity p)
       else Ok (set_current_direction (entity p)
                  (requested_direction keys (current_direction (entity p))))) = Ok e1 /\
    pos e1 = pos (entity p) /\
    current_direction e1 =
      (if blocked then current_direction (entity p)
       else requested_direction keys (current_direction (entity p)))).
  { case_decide as Hsame.
    - exists (entity p). split; [done|]. split; [done|].
      rewrite Hsame. by destruct blocked.
    - rewrite Hb. cbn [bind]. destruct blocked; eexists; done. }
  destruct Hturn as (e1 & Hturn & Hpos & Hdir).
  destruct (Entity_move_clear m ts true e1 Hrect) as (e2 & He2 & Hc2 & Hd2 & _);
    [by rewrite Hpos|].
  exists (mkPacman e2 (lives p)), blocked.
  split.
  { unfold Pacman_move. fold (requested_direction keys (current_direction (entity p))).
    rewrite Hturn. cbn [bind]. rewrite He2. done. }
  split; [done|]. simpl. split; [congruence|]. done.
Qed.

Lemma box_clear_corner_pacman : box_clear corner 20 true (20%Q, 40%Q).
Proof.
  intros y x c Hc Hcode.
  destruct y as [|[|[|[|y]]]]; try done;
    destruct x as [|[|[|[|[|x]]]]]; try done;
    injection Hc as <-; first [reflexivity | by destruct Hcode as [|[]]].
Qed.

Lemma pacman_move_turns_only_when_free_witness :
  exists p' blocked,
    Pacman_move corner 20 (mkKeys true false false false) pacman_in_corner = Ok p' /\
    check_collision_wall corner 20
      (requested_direction (mkKeys true false false false)
         (current_direction (entity pacman_in_corner)))
      (speed (entity pacman_in_corner)) (pos (entity pacman_in_corner)) true
      = Ok blocked /\
    current_direction (entity p') =
      (if blocked then current_direction (entity pacman_in_corner)
       else requested_direction (mkKeys true false false false)
              (current_direction (entity pacman_in_corner))) /\
    lives p' = lives pacman_in_corner /\
    box_clear corner 20 true (pos (entity p')).
Proof.
  apply (pacman_move_turns_only_when_free corner 20 (mkKeys true false false false)
           pacman_in_corner).
  - exact rectangular_corner.
  - exact box_clear_corner_pacman.
Defined.

Lemma change_direction_random_not_opposite (r : nat) (g : Entity) :
  current_direction (change_direction_random r g) <> opposite (current_direction g).
Proof.
  unfold change_direction_random.
  destruct (current_direction g) eqn:Hd;
    destruct r as [|[|[|r]]]; simpl; rewrite ?Hd; done.
Qed.

Lemma probe_heading (m : Matrix) (ts : Z) (d : direction)
    (st st' : Entity * list direction) :
  probe m ts d st = Ok st' ->
  current_direction (fst st') = current_direction (fst st).
Proof.
  intros H. by apply probe_cases in H as [[-> _] | (_ & _ & t & _ & ->)].
Qed.

Lemma is_intersection_heading (m : Matrix) (ts : Z) (g : Entity) (t : bool * Entity) :
  is_intersection m ts g = Ok t -> current_direction (snd t) = current_direction g.
Proof.
  unfold is_intersection, possible_directions. intros H.
  apply bind_Ok in H as (s & H & Ht). injection Ht as <-. simpl.
  apply bind_Ok in H as (s1 & H1 & H).
  apply bind_Ok in H as (s2 & H2 & H).
  apply bind_Ok in H as (s3 & H3 & H4).
  apply probe_heading in H1, H2, H3, H4. simpl in H1. congruence.
Qed.

(** X4: a ghost never turns back in one move.  Whatever [Ghost.move] does
    (walk on, turn at an intersection, turn when blocked), the heading it
    leaves is not the reverse of the heading it found; and a ghost that is
    blocked does not change its position. *)
Theorem ghost_never_reverses (m : Matrix) (ts : Z) (r : nat) (g g' : Ghost) :
  Ghost_move m ts r g = Ok g' ->
  current_direction g' <> opposite (current_direction g) /\
  (check_collision_wall m ts (current_direction g) (speed g) (pos g) false = Ok true ->
   pos g' = pos g).
Proof.
  unfold Ghost_move. intros H. apply bind_Ok in H as (blocked & Hb & H).
  destruct blocked.
  - injection H as <-. split; [apply change_direction_random_not_opposite|].
    intros _. unfold change_direction_random. by destruct (_ !! r).
  - split; [|by rewrite Hb].
    apply bind_Ok in H as (g1 & Hmove & H).
    apply bind_Ok in H as (t & Hinter & H).
    assert (Hd1 : current_direction g1 = current_direction g).
    { unfold Entity_move in Hmove. apply bind_Ok in Hmove as (b & _ & Hmove).
      by destruct b; injection Hmove as <-. }
    apply is_intersection_heading in Hinter.
    destruct (fst t); injection H as <-.
    + rewrite <- Hd1, <- Hinter. apply change_direction_random_not_opposite.
    + rewrite Hinter, Hd1. by destruct (current_direction g).
Qed.

Lemma ghost_never_reverses_witness :
  exists g',
    Ghost_move corner 20 0 ghost_in_corner = Ok g' /\
    current_direction g' <> opposite (current_direction ghost_in_corner) /\
    (check_collision_wall corner 20 (current_direction ghost_in_corner)
       (speed ghost_in_corner) (pos ghost_in_corner) false = Ok true ->
     pos g' = pos ghost_in_corner).
Proof.
  eexists. split; [vm_compute; reflexivity|].
  apply (ghost_never_reverses corner 20 0 ghost_in_corner).
  vm_compute. reflexivity.
Defined.

(** ** Spawn markers *)

Lemma elem_of_columns_of_value (v : Z) (row : list Z) (x0 k : nat) :
  k ∈ columns_of_value v row x0 <->
  exists j, k = (x0 + j)%nat /\ row !! j = Some v.
Proof.
  revert x0. induction row as [|c row IH]; intros x0; simpl.
  - split; [by intros ?%elem_of_nil | by intros (j & _ & ?)].
  - rewrite elem_of_app, IH. split.
    + intros [Hk | (j & -> & Hj)].
      * case_decide; [|by apply elem_of_nil in Hk].
        apply list_elem_of_singleton in Hk as ->. exists 0%nat. subst. split; [lia|done].
      * exists (S j). split; [lia|done].
    + intros ([|j] & -> & Hj); simpl in Hj.
      * left. injection Hj as ->. rewrite decide_True by done.
        apply list_elem_of_singleton. lia.
      * right. exists j. split; [lia|done].
Qed.

Lemma columns_of_value_head (v : Z) (row : list Z) (x0 k : nat) (rest : list nat) :
  columns_of_value v row x0 = k :: rest ->
  exists j, k = (x0 + j)%nat /\ row !! j = Some v /\
            forall j', row !! j' = Some v -> (j <= j')%nat.
Proof.
  revert x0. induction row as [|c row IH]; intros x0; simpl; [done|].
  case_decide as Hc; simpl.
  - intros [= <- _]. exists 0%nat. split; [lia|]. split; [by subst|]. intros; lia.
  - intros H. apply IH in H as (j & -> & Hj & Hmin). exists (S j).
    split; [lia|]. split; [done|]. intros [|j'] Hj'; simpl in Hj'.
    + by injection Hj' as ->.
    + apply Hmin in Hj'. lia.
Qed.

Lemma elem_of_coordinates_from (ts v : Z) (rows : Matrix) (y0 : nat) (p : Pos) :
  p ∈ coordinates_from ts v rows y0 <->
  exists i j, cell rows i j = Some v /\ p = pixel_pos ts (y0 + i) j.
Proof.
  revert y0. induction rows as [|row rows IH]; intros y0; simpl.
  - split; [by intros ?%elem_of_nil | by intros (i & j & ? & _)].
  - rewrite elem_of_app, IH, list_elem_of_fmap. split.
    + intros [(k & -> & Hk) | (i & j & Hc & ->)].
      * apply elem_of_columns_of_value in Hk as (j & -> & Hj).
        exists 0%nat, j. split; [done|]. unfold pixel_pos. by rewrite Nat.add_0_r.
      * exists (S i), j. split; [done|]. by replace (y0 + S i)%nat with (S y0 + i)%nat by lia.
    + intros ([|i] & j & Hc & ->).
      * left. exists j. split; [unfold pixel_pos; by rewrite Nat.add_0_r|].
        apply elem_of_columns_of_value. by exists j.
      * right. exists i, j. split; [done|]. by replace (S y0 + i)%nat with (y0 + S i)%nat by lia.
Qed.

Lemma coordinates_from_head (ts v : Z) (rows : Matrix) (y0 : nat) (p : Pos)
    (rest : list Pos) :
  coordinates_from ts v rows y0 = p :: rest ->
  exists i j, cell rows i j = Some v /\ p = pixel_pos ts (y0 + i) j /\
              forall i' j', cell rows i' j' = Some v -> reads_before i j i' j'.
Proof.
  revert y0. induction rows as [|row rows IH]; intros y0; simpl; [done|].
  destruct (columns_of_value v row 0) as [|k ks] eqn:Hcols; simpl.
  - intros H. apply IH in H as (i & j & Hc & -> & Hmin).
    exists (S i), j. split; [done|].
    split; [by replace (y0 + S i)%nat with (S y0 + i)%nat by lia|].
    intros [|i'] j' Hc'; simpl in Hc'.
    + exfalso. assert (Hin : j' ∈ columns_of_value v row 0).
      { apply elem_of_columns_of_value. by exists j'. }
      rewrite Hcols in Hin. by apply elem_of_nil in Hin.
    + apply Hmin in Hc' as [? | [-> ?]]; [left; lia | right; done].
  - intros [= <- _]. apply columns_of_value_head in Hcols as (j & -> & Hj & Hmin).
    exists 0%nat, j. split; [done|]. split; [unfold pixel_pos; by rewrite Nat.add_0_r|].
    intros [|i'] j' Hc'; simpl in Hc'; [|left; lia].
    right. split; [done|]. by apply Hmin.
Qed.

(** X5: [find_coordinates_of_value] returns exactly the pixel positions of
    the cells that hold the value: a position is in the result if and only
    if it is [[x * tile_size, y * tile_size]] for a cell (row y, column x) of
    the grid with that code. *)
Theorem find_coordinates_of_value_spec (m : Matrix) (ts v : Z) (p : Pos) :
  p ∈ find_coordinates_of_value m ts v <->
  exists y x, cell m y x = Some v /\ p = pixel_pos ts y x.
Proof. unfold find_coordinates_of_value. by rewrite elem_of_coordinates_from. Qed.

(** X6: [Pacman.create_pacman_from_matrix] either raises [ValueError], which
    it does exactly when no cell of the grid holds 7, or returns a Pac-Man
    with three lives, alive and heading right, at a quarter of a tile per
    step, on the first cell in reading order that holds 7. *)
Theorem create_pacman_from_matrix_spec (m : Matrix) (ts : Z) :
  match create_pacman_from_matrix m ts with
  | Ok p =>
      exists y x,
        cell m y x = Some 7 /\
        (forall y' x', cell m y' x' = Some 7 -> reads_before y x y' x') /\
        p = Pacman_init ts (pixel_pos ts y x) /\
        lives p = 3 /\ alive (entity p) = true /\
        pos (entity p) = pixel_pos ts y x /\
        start_pos (entity p) = pixel_pos ts y x
  | Raise e => e = ValueError /\ forall y x, cell m y x <> Some 7
  end.
Proof.
  unfold create_pacman_from_matrix, find_coordinates_of_value.
  destruct (coordinates_from ts 7 m 0) as [|start rest] eqn:Hc.
  - split; [done|]. intros y x Hyx.
    assert (Hin : pixel_pos ts y x ∈ coordinates_from ts 7 m 0).
    { apply elem_of_coordinates_from. by exists y, x. }
    rewrite Hc in Hin. by apply elem_of_nil in Hin.
  - apply coordinates_from_head in Hc as (y & x & Hyx & -> & Hmin).
    exists y, x. done.
Qed.

(** X7: [Ghost.create_ghosts_from_matrix] makes one ghost for every cell
    that holds 5 and no other: a ghost is in the list if and only if it is
    the freshly initialised ghost of such a cell; every ghost of the list
    is alive, not frightened, heading right and standing on its start
    position. *)
Theorem create_ghosts_from_matrix_spec (m : Matrix) (ts : Z) (g : Ghost) :
  (g ∈ create_ghosts_from_matrix m ts <->
   exists y x, cell m y x = Some 5 /\ g = Ghost_init ts (pixel_pos ts y x)) /\
  (g ∈ create_ghosts_from_matrix m ts ->
   alive g = true /\ frightened g = false /\ current_direction g = Right /\
   pos g = start_pos g /\ speed g = original_speed g).
Proof.
  assert (Hiff : g ∈ create_ghosts_from_matrix m ts <->
    exists y x, cell m y x = Some 5 /\ g = Ghost_init ts (pixel_pos ts y x)).
  { unfold create_ghosts_from_matrix. rewrite list_elem_of_fmap. split.
    - intros (p & -> & Hp). apply elem_of_coordinates_from in Hp as (y & x & ? & ->).
      by exists y, x.
    - intros (y & x & Hc & ->). eexists. split; [done|].
      apply elem_of_coordinates_from. by exists y, x. }
  split; [done|]. intros (y & x & _ & ->)%Hiff. done.
Qed.

(** ** Loading a level *)

Lemma int_row_Ok (row : list (option Z)) (r : list Z) :
  int_row row = Ok r -> length r = length row.
Proof.
  unfold int_row. destruct (mapM id row) as [r'|] eqn:Hm; [|done]. intros [= ->].
  symmetry. by eapply length_mapM.
Qed.

Lemma int_row_None (row : list (option Z)) :
  None ∈ row -> int_row row = Raise ValueError.
Proof.
  intros Hin. unfold int_row.
  assert (Hm : mapM id row = None); [|by rewrite Hm].
  apply mapM_None, Exists_exists. by exists None.
Qed.

Lemma int_rows_None (rows : list (list (option Z))) (row : list (option Z)) :
  row ∈ rows -> None ∈ row -> int_rows rows = Raise ValueError.
Proof.
  intros Hrow Hnone. induction rows as [|r rows IH]; [by apply elem_of_nil in Hrow|].
  apply elem_of_cons in Hrow as [<- | Hrow]; simpl.
  - destruct row as [|c row]; [by apply elem_of_nil in Hnone|].
    by rewrite (int_row_None (c :: row)).
  - destruct r as [|c r]; [by apply IH|].
    destruct (int_row (c :: r)) as [r'|e] eqn:Hr; simpl.
    + by rewrite IH.
    + unfold int_row in Hr. destruct (mapM id (c :: r)); [done|]. by injection Hr as <-.
Qed.

Lemma int_rows_lengths (rows : list (list (option Z))) (m0 : Matrix)
    (row : list (option Z)) :
  int_rows rows = Ok m0 -> row ∈ rows -> row <> [] ->
  exists r, r ∈ m0 /\ length r = length row.
Proof.
  revert m0. induction rows as [|r rows IH]; intros m0 H Hrow Hne;
    [by apply elem_of_nil in Hrow|].
  simpl in H. destruct r as [|c r].
  - apply elem_of_cons in Hrow as [-> | Hrow]; [done|]. by apply IH.
  - apply bind_Ok in H as (r' & Hr' & H). apply bind_Ok in H as (m' & Hm' & H).
    injection H as <-. apply elem_of_cons in Hrow as [-> | Hrow].
    + exists r'. split; [by left|]. by apply int_row_Ok in Hr'.
    + destruct (IH m' Hm' Hrow Hne) as (r0 & ? & ?). exists r0. split; [by right|done].
Qed.

Lemma rectangular_forallb (m0 : Matrix) :
  forallb (fun row => Nat.eqb (length row) (length (hd [] m0))) m0 = true <->
  rectangular m0.
Proof.
  unfold rectangular, width. rewrite forallb_forall, Forall_forall. split.
  - intros H row Hin. by apply Nat.eqb_eq, H, list_elem_of_In.
  - intros H row Hin. by apply Nat.eqb_eq, H, list_elem_of_In.
Qed.

(** X8: a well-formed level file is loaded unchanged inside a frame of 3s.
    When the non-empty rows of the file are integers and equally long,
    [load_level_from_csv] returns a grid that is two rows higher and two
    columns wider than the file, holds the file's cell (y, x) at
    (y + 1, x + 1), and holds 3 in its first and last row and column. *)
Theorem load_level_from_csv_frames (rows : list (list (option Z))) (m0 : Matrix) :
  int_rows rows = Ok m0 ->
  rectangular m0 ->
  exists m,
    load_level_from_csv (Rows rows) = Ok m /\
    height m = (height m0 + 2)%nat /\
    width m = (width m0 + 2)%nat /\
    (forall y x c, cell m0 y x = Some c -> cell m (S y) (S x) = Some c) /\
    (forall y x, (y < height m)%nat -> (x < width m)%nat ->
       y = 0%nat \/ y = S (height m0) \/ x = 0%nat \/ x = S (width m0) ->
       cell m y x = Some 3).
Proof.
  intros Hrows Hrect.
  set (border := replicate (width m0 + 2) (3 : Z)).
  set (m := border :: ((fun row : list Z => [3] ++ row ++ [3]) <$> m0) ++ [border]).
  assert (Hh : height m = (height m0 + 2)%nat).
  { unfold m, height. cbn [length]. rewrite length_app, length_fmap. simpl. lia. }
  assert (Hw : width m = (width m0 + 2)%nat).
  { unfold m, width at 1. cbn [hd]. unfold border. by rewrite length_replicate. }
  exists m. split.
  { unfold load_level_from_csv, read_level. rewrite Hrows. cbn [bind].
    by rewrite (proj2 (rectangular_forallb m0) Hrect). }
  split; [done|]. split; [done|]. split.
  - intros y x c Hc. unfold cell, m in *.
    destruct (m0 !! y) as [row|] eqn:Hy; [|done].
    rewrite lookup_cons_ne_0 by done. rewrite Nat.pred_succ.
    rewrite lookup_app_l by (rewrite length_fmap; by eapply lookup_lt_Some).
    rewrite list_lookup_fmap, Hy. simpl.
    rewrite lookup_app_l by (by eapply lookup_lt_Some). done.
  - intros y x Hy Hx Hedge. rewrite Hh in Hy. rewrite Hw in Hx. unfold height in *.
    unfold cell, m.
    assert (Hborder : border !! x = Some 3).
    { apply lookup_replicate. split; [done|lia]. }
    destruct y as [|y]; [done|]. rewrite lookup_cons_ne_0 by done. rewrite Nat.pred_succ.
    destruct (decide (y = length m0)) as [->|Hyn].
    + rewrite lookup_app_r by (by rewrite length_fmap).
      rewrite length_fmap, Nat.sub_diag. done.
    + assert (Hlt : (y < length m0)%nat) by lia.
      destruct (lookup_lt_is_Some_2 m0 y Hlt) as [row Hrow].
      rewrite lookup_app_l by (by rewrite length_fmap).
      rewrite list_lookup_fmap, Hrow. simpl.
      assert (Hlen : length row = width m0).
      { unfold rectangular in Hrect. rewrite Forall_lookup in Hrect. by eapply Hrect. }
      destruct x as [|x]; [done|]. simpl.
      assert (x = width m0) as -> by lia.
      rewrite lookup_app_r by lia. by rewrite Hlen, Nat.sub_diag.
Qed.

Lemma load_level_from_csv_frames_witness :
  exists m,
    load_level_from_csv (Rows tiny_level) = Ok m /\
    height m = (height tiny_grid + 2)%nat /\
    width m = (width tiny_grid + 2)%nat /\
    (forall y x c, cell tiny_grid y x = Some c -> cell m (S y) (S x) = Some c) /\
    (forall y x, (y < height m)%nat -> (x < width m)%nat ->
       y = 0%nat \/ y = S (height tiny_grid) \/ x = 0%nat \/ x = S (width tiny_grid) ->
       cell m y x = Some 3).
Proof.
  apply (load_level_from_csv_frames tiny_level tiny_grid).
  - reflexivity.
  - repeat constructor.
Defined.

(** X9: every level file that is not well-formed yields the placeholder
    maze and no exception: a missing file, an unreadable file, a file with a
    cell that is not an integer, and a file with two non-empty rows of
    different lengths. *)
Theorem load_level_from_csv_fallback (f : csv_file) :
  f = Missing \/ f = Unreadable \/
  (exists rows, f = Rows rows /\
     ((exists row, row ∈ rows /\ None ∈ row) \/
      (exists r1 r2, r1 ∈ rows /\ r2 ∈ rows /\ r1 <> [] /\ r2 <> [] /\
                     length r1 <> length r2))) ->
  load_level_from_csv f = Ok default_matrix.
Proof.
  intros [-> | [-> | (rows & -> & H)]]; [done..|].
  unfold load_level_from_csv, read_level.
  destruct H as [(row & Hrow & Hnone) | (r1 & r2 & H1 & H2 & Hn1 & Hn2 & Hlen)].
  - by rewrite (int_rows_None rows row).
  - destruct (int_rows rows) as [m0|e] eqn:Hrows; cbn [bind]; [|by destruct e].
    destruct (forallb _ m0) eqn:Hall; [|done]. exfalso.
    apply rectangular_forallb in Hall. unfold rectangular in Hall.
    rewrite Forall_forall in Hall.
    destruct (int_rows_lengths rows m0 r1 Hrows H1 Hn1) as (r1' & Hin1 & Hl1).
    destruct (int_rows_lengths rows m0 r2 Hrows H2 Hn2) as (r2' & Hin2 & Hl2).
    apply Hall in Hin1, Hin2. congruence.
Qed.

Lemma load_level_from_csv_fallback_witness :
  load_level_from_csv (Rows ragged_level) = Ok default_matrix.
Proof.
  apply (load_level_from_csv_fallback (Rows ragged_level)).
  right. right. exists ragged_level. split; [reflexivity|]. right.
  exists [Some 7; Some 0], [Some 0].
  split; [by left|]. split; [by right; left|]. split; [done|]. split; [done|].
  simpl. lia.
Defined.

(** ** Constructing the game *)

Lemma lookup_load_config_levels (a : Assets) (lv : gmap Z csv_file) (k : Z) :
  load_config_levels a lv !! k =
  match lv !! k with
  | Some f => Some f
  | None => default_levels a !! k
  end.
Proof.
  unfold load_config_levels, merge_with_defaults. rewrite lookup_union.
  destruct (lv !! k), (default_levels a !! k); done.
Qed.

(** The merged configuration holds the levels "0", "1" and "2" and every
    level of config.json. *)
Lemma load_config_levels_default_keys (a : Assets) (lv : gmap Z csv_file) (k : Z) :
  0 <= k <= 2 -> is_Some (load_config_levels a lv !! k).
Proof.
  intros Hk. rewrite lookup_load_config_levels. destruct (lv !! k); [by eexists|].
  assert (k = 0 \/ k = 1 \/ k = 2) as [-> | [-> | ->]] by lia; by eexists.
Qed.

Lemma size_load_config_levels (a : Assets) (lv : gmap Z csv_file) :
  (3 <= size (load_config_levels a lv))%nat.
Proof.
  assert (Hsub : default_levels a ⊆ default_levels a ∪ lv) by apply map_union_subseteq_l.
  assert (Hdom : dom (default_levels a) ⊆ dom (load_config_levels a lv)).
  { intros k Hk. apply elem_of_dom in Hk. apply elem_of_dom.
    rewrite lookup_load_config_levels. destruct (lv !! k); [by eexists|done]. }
  apply subseteq_size in Hdom. rewrite !size_dom in Hdom.
  assert (Hthree : size (default_levels a) = 3%nat).
  { unfold default_levels. rewrite !map_size_insert_None, map_size_empty; [done|..];
      by rewrite ?lookup_insert_ne, ?lookup_empty by done. }
  lia.
Qed.

Lemma Game_init_Ok (a : Assets) (lv : gmap Z csv_file) (ts : Z) (g : Game) :
  Game_init a lv ts = Ok g ->
  exists f,
    load_config_levels a lv !! 0 = Some f /\
    load_level_from_csv f = Ok (matrix g) /\
    create_pacman_from_matrix (matrix g) ts = Ok (pacman g) /\
    g = mkGame (load_config_levels a lv) ts (matrix g) 0 (pacman g)
               (create_ghosts_from_matrix (matrix g) ts) 0 false 0%Q false.
Proof.
  unfold Game_init, level_file. cbv zeta. intros H.
  destruct (load_config_levels a lv !! 0) as [f|] eqn:Hf; [|done]. cbn [bind] in H.
  apply bind_Ok in H as (m & Hm & H). apply bind_Ok in H as (p & Hp & H).
  injection H as <-. by exists f.
Qed.

(** X10: how [Game()] finds its first level.  [_load_config_with_defaults]
    merges the default levels "0", "1" and "2" into the configuration, so
    the configuration of a game holds at least three levels and its level
    "0" is always there: the one of config.json if it has one, the default
    one otherwise.  With the grid [m] that [load_level_from_csv] returns for
    it, the construction of the entities raises [ValueError] when [m] holds
    no 7; when it holds one, the game is on level 0 with the grid [m], the
    merged levels, score 0, a Pac-Man with three lives and the ghosts
    created from [m], no power pill, not over. *)
Theorem Game_init_spec (a : Assets) (lv : gmap Z csv_file) (ts : Z) :
  exists f m,
    load_config_levels a lv !! 0 = Some f /\
    f = match lv !! 0 with Some f' => f' | None => lvl0 a end /\
    load_level_from_csv f = Ok m /\
    (3 <= size (load_config_levels a lv))%nat /\
    ((forall y x, cell m y x <> Some 7) -> Game_init a lv ts = Raise ValueError) /\
    (forall y x, cell m y x = Some 7 ->
       exists g,
         Game_init a lv ts = Ok g /\
         matrix g = m /\ levels g = load_config_levels a lv /\ tile_size g = ts /\
         create_pacman_from_matrix m ts = Ok (pacman g) /\
         ghosts g = create_ghosts_from_matrix m ts /\
         level g = 0 /\ score g = 0 /\ lives (pacman g) = 3 /\
         game_over g = false /\ power_pill_active g = false).
Proof.
  assert (Hf : load_config_levels a lv !! 0 =
               Some (match lv !! 0 with Some f' => f' | None => lvl0 a end)).
  { rewrite lookup_load_config_levels. by destruct (lv !! 0). }
  set (f := match lv !! 0 with Some f' => f' | None => lvl0 a end) in *.
  destruct (load_level_from_csv_total f) as [m Hm].
  exists f, m. split; [done|]. split; [done|]. split; [done|].
  split; [apply size_load_config_levels|].
  assert (Hinit : Game_init a lv ts =
                  (p <- create_pacman_from_matrix m ts ;;
                   Ok (mkGame (load_config_levels a lv) ts m 0 p
                         (create_ghosts_from_matrix m ts) 0 false 0%Q false))).
  { unfold Game_init, level_file. cbv zeta. rewrite Hf. cbn [bind]. by rewrite Hm. }
  rewrite Hinit. unfold create_pacman_from_matrix, find_coordinates_of_value.
  destruct (coordinates_from ts 7 m 0) as [|start rest] eqn:Hc; cbn [bind].
  - split; [done|]. intros y x Hyx. exfalso.
    assert (Hin : pixel_pos ts y x ∈ coordinates_from ts 7 m 0).
    { apply elem_of_coordinates_from. by exists y, x. }
    rewrite Hc in Hin. by apply elem_of_nil in Hin.
  - split.
    + intros Hno. exfalso.
      assert (Hin : start ∈ coordinates_from ts 7 m 0) by (rewrite Hc; by left).
      apply elem_of_coordinates_from in Hin as (y & x & Hyx & _). by apply (Hno y x).
    + intros y x _. eexists. split; [done|]. simpl. done.
Qed.



(** ** What play keeps and what it changes *)

Ltac frame :=
  unfold carries_on, lives_inv, level_inv in *; simpl in *;
  repeat match goal with
         | |- _ /\ _ => split
         | |- _ /\ _ -> _ => intros [? ?]
         | |- _ -> _ => intro
         end;
  simpl in *; try done; try lia; try (by eexists); try (by auto).

Lemma carries_on_refl (g : Game) : carries_on g g.
Proof. frame. Qed.

Lemma carries_on_trans (g1 g2 g3 : Game) :
  carries_on g1 g2 -> carries_on g2 g3 -> carries_on g1 g3.
Proof.
  unfold carries_on. intros (? & ? & ? & ? & ?) (? & ? & ? & ? & ?).
  repeat split; [congruence | congruence | lia | lia | auto].
Qed.

Lemma Pacman_move_lives (m : Matrix) (ts : Z) (keys : Keys) (p p' : Pacman) :
  Pacman_move m ts keys p = Ok p' -> lives p' = lives p.
Proof.
  unfold Pacman_move. intros H. apply bind_Ok in H as (e1 & _ & H).
  apply bind_Ok in H as (e2 & _ & H). by injection H as <-.
Qed.

Lemma handle_pacman_logic_frame (keys : Keys) (now : Q) (nows : nat -> Q)
    (rnd : nat -> nat) (g g' : Game) :
  handle_pacman_logic keys now nows rnd g = Ok g' ->
  levels g' = levels g /\ tile_size g' = tile_size g /\ matrix g' = matrix g /\
  level g' = level g /\ score g' = score g /\ game_over g' = game_over g /\
  power_pill_active g' = power_pill_active g /\
  power_pill_start_time g' = power_pill_start_time g /\
  lives (pacman g') = lives (pacman g) /\
  length (ghosts g') = length (ghosts g).
Proof.
  unfold handle_pacman_logic. destruct (_ && _); [by intros [= <-]|].
  destruct (alive _); [|by intros [= <-]]. intros H.
  apply bind_Ok in H as (p' & Hp & H). unfold update_ghosts in H.
  apply bind_Ok in H as (gs & Hgs & H). injection H as <-. simpl.
  apply update_ghosts_from_lookup in Hgs as [Hlen _]. simpl in Hlen.
  apply Pacman_move_lives in Hp. done.
Qed.

Lemma collide_carries (rect : Rect) (now : Q) (i : nat) (ghost : Entity) (g : Game) :
  carries_on g (collide rect now i ghost g) /\
  level (collide rect now i ghost g) = level g /\
  (lives_inv g -> lives_inv (collide rect now i ghost g)).
Proof.
  unfold collide.
  destruct (colliderect _ _); [|frame].
  destruct (frightened ghost); [frame|].
  cbv zeta. case_decide; frame.
Qed.

Lemma ghost_loop_carries (fuel : nat) (rect : Rect) (now : nat -> Q) (i : nat)
    (g : Game) :
  carries_on g (ghost_loop fuel rect now i g) /\
  level (ghost_loop fuel rect now i g) = level g /\
  (lives_inv g -> lives_inv (ghost_loop fuel rect now i g)).
Proof.
  revert i g. induction fuel as [|fuel IH]; intros i g; simpl.
  - split; [apply carries_on_refl|done].
  - destruct (ghosts g !! i) as [ghost|]; [|split; [apply carries_on_refl|done]].
    destruct (collide_carries rect (now i) i ghost g) as (Hc & Hl & Hi).
    destruct (IH (S i) (collide rect (now i) i ghost g)) as (Hc' & Hl' & Hi').
    split; [by eapply carries_on_trans|]. split; [congruence|auto].
Qed.

Lemma handle_collisions_and_points_frame (now : Q) (g : Game) (s : Z)
    (won : bool) (s' : Z) (g' : Game) :
  handle_collisions_and_points now g s = Ok (won, s', g') ->
  levels g' = levels g /\ tile_size g' = tile_size g /\ level g' = level g /\
  score g' = score g /\ game_over g' = game_over g /\ pacman g' = pacman g /\
  length (ghosts g') = length (ghosts g).
Proof.
  unfold handle_collisions_and_points. intros H.
  apply bind_Ok in H as (qx & _ & H).
  apply bind_Ok in H as (qy & _ & H).
  apply bind_Ok in H as (row & _ & H).
  apply bind_Ok in H as (c & _ & H).
  repeat case_decide.
  - apply bind_Ok in H as (m & _ & H). by destruct (negb _); injection H as _ _ <-.
  - apply bind_Ok in H as (m & _ & H). by injection H as _ _ <-.
  - apply bind_Ok in H as (m & _ & H). injection H as _ _ <-.
    unfold activate_power_pill. destruct (power_pill_active g); simpl; [done|].
    by rewrite length_map.
  - by injection H as _ _ <-.
Qed.

Lemma place_fruits_frame (r x y : Z) (g : Game) (fc fc' : Z) (g' : Game) :
  place_fruits r x y g fc = Ok (fc', g') ->
  exists m, g' = set_matrix g m.
Proof.
  unfold place_fruits. intros H.
  assert (Hsame : g = set_matrix g (matrix g)) by by destruct g.
  destruct (fruit_guard fc r); [|injection H as _ <-; eauto].
  case_decide; [done|].
  apply bind_Ok in H as (row0 & _ & H). case_decide; [done|].
  apply bind_Ok in H as (row & _ & H).
  apply bind_Ok in H as (c & _ & H).
  case_decide; [|injection H as _ <-; eauto].
  apply bind_Ok in H as (m & _ & H). injection H as _ <-. eauto.
Qed.

Lemma level_inv_init (a : Assets) (lv : gmap Z csv_file) (ts : Z) (g : Game) :
  Game_init a lv ts = Ok g -> level_inv g /\ lives_inv g.
Proof.
  intros H. apply Game_init_Ok in H as (f & Hf & _ & Hp & ->).
  unfold level_inv, lives_inv. simpl.
  pose proof (size_load_config_levels a lv) as Hsize.
  assert (Hlives : lives (pacman g) = 3).
  { unfold create_pacman_from_matrix in Hp.
    destruct (find_coordinates_of_value (matrix g) ts 7); [done|]. by injection Hp as <-. }
  rewrite Hf, Hlives. repeat split; [lia | lia | by eexists | lia | lia].
Qed.

(** What every call of play does to the game. *)
Lemma step_frame (g g' : Game) :
  step g g' ->
  carries_on g g' /\ level g' <= level g + 1 /\
  (lives_inv g -> lives_inv g') /\ (level_inv g -> level_inv g').
Proof.
  destruct 1 as [keys now nows rnd g g' H | now g | g g' H | now g
                | now g s won s' g' H | now g g' H | r x y g fc fc' g' H].
  - apply handle_pacman_logic_frame in H
      as (Hlv & Hts & _ & Hl & Hs & Hgo & _ & _ & Hlives & _).
    unfold carries_on, lives_inv, level_inv. rewrite Hlv, Hts, Hl, Hs, Hgo, Hlives.
    frame.
  - unfold collision_pacman_ghost.
    destruct (ghost_loop_carries
                (length (ghosts g) `max`
                 length (create_ghosts_from_matrix (matrix g) (tile_size g)))
                (entity_rect (tile_size g) (pos (entity (pacman g)))) now 0 g)
      as (Hc & Hl & Hi).
    split; [done|]. split; [lia|]. split; [done|].
    destruct Hc as (Hlv & _). unfold level_inv. by rewrite Hl, Hlv.
  - unfold teleport_pacman in H. apply bind_Ok in H as (t & _ & H). injection H as <-.
    frame.
  - unfold update_power_pill. destruct (_ && _); frame.
  - apply handle_collisions_and_points_frame in H
      as (Hlv & Hts & Hl & Hs & Hgo & Hp & _).
    unfold carries_on, lives_inv, level_inv. rewrite Hlv, Hts, Hl, Hs, Hgo, Hp.
    frame.
  - destruct (decide (level g < Z.of_nat (size (levels g)) - 1)) as [Hlt|Hge].
    + destruct (level_up_advance now g g' Hlt H)
        as (f & m & start & rest & Hf & _ & _ & ->).
      unfold carries_on, lives_inv, level_inv. simpl. rewrite Hf. frame.
    + unfold level_up in H. rewrite decide_False in H by done. injection H as <-.
      frame.
  - apply place_fruits_frame in H as (m & ->).
    frame.
Qed.

(** ** Pickups *)

Lemma handle_collisions_and_points_occupied (now : Q) (g : Game) (s : Z)
    (r : bool * Z * Game) :
  handle_collisions_and_points now g s = Ok r ->
  exists y x c,
    occupied (matrix g) (tile_size g) (pos (entity (pacman g))) = Some (y, x) /\
    cell (matrix g) y x = Some c.
Proof.
  unfold handle_collisions_and_points, py_div, occupied, cell.
  destruct (decide (convert_to_pixels (tile_size g) 1 = 0)) as [?|_]; [done|].
  cbn [bind]. intros H.
  apply bind_Ok in H as (row & Hrow & H). apply bind_Ok in H as (c & Hc & _).
  apply getitem_Ok in Hrow as (y & Hy & Hrow). apply getitem_Ok in Hc as (x & Hx & Hc).
  exists y, x, c. rewrite Hy, Hrow. cbn. by rewrite Hx.
Qed.

(** [handle_collisions_and_points] by the code of the cell under Pac-Man. *)
Lemma handle_collisions_and_points_cases (now : Q) (g : Game) (s : Z) (y x : nat)
    (c : Z) :
  occupied (matrix g) (tile_size g) (pos (entity (pacman g))) = Some (y, x) ->
  cell (matrix g) y x = Some c ->
  exists row,
    matrix g !! y = Some row /\ (x < length row)%nat /\
    handle_collisions_and_points now g s =
    let m' := <[y := <[x := -1]> row]> (matrix g) in
    if decide (c = 0) then Ok (negb (any_zero m'), s + 10, set_matrix g m')
    else if decide (c = -2) then Ok (false, s + 100, set_matrix g m')
    else if decide (c = -3) then Ok (false, s, set_matrix (activate_power_pill now g) m')
    else Ok (false, s, g).
Proof.
  intros Hocc Hc. apply occupied_Some in Hocc as (Hts & Hy & row & Hrow & Hx).
  unfold cell in Hc. rewrite Hrow in Hc.
  exists row. split; [done|]. split; [by eapply py_index_lt|].
  assert (Hsame : matrix (activate_power_pill now g) = matrix g).
  { unfold activate_power_pill. by destruct (power_pill_active g). }
  unfold handle_collisions_and_points, py_div.
  destruct (decide (convert_to_pixels (tile_size g) 1 = 0)) as [?|_]; [done|].
  cbn [bind]. unfold getitem at 1 2, item. rewrite Hy, Hrow. cbn [bind]. rewrite Hx, Hc.
  cbn [bind]. rewrite Hsame.
  rewrite (set_cell_Ok _ _ _ _ _ _ _ Hy Hrow Hx). cbn [bind].
  repeat case_decide; try done. by destruct (any_zero _).
Qed.

Lemma occupied_insert (m : Matrix) (ts : Z) (p : Pos) (y x : nat) (row : list Z)
    (v : Z) :
  m !! y = Some row ->
  occupied (<[y := <[x := v]> row]> m) ts p = occupied m ts p.
Proof.
  intros Hrow. unfold occupied. case_decide; [done|]. rewrite length_insert.
  destruct (py_index (length m) _) as [y'|] eqn:Hy; [|done].
  destruct (decide (y' = y)) as [->|Hne].
  - rewrite list_lookup_insert_eq by (by eapply lookup_lt_Some).
    rewrite Hrow. by rewrite length_insert.
  - by rewrite list_lookup_insert_ne.
Qed.

(** X12: a pickup is made once.  Whatever [handle_collisions_and_points]
    has just done (point, fruit, power pill or nothing), a second call with
    Pac-Man on the same tile changes neither the score nor the game and
    does not signal a completed level. *)
Theorem pickup_is_made_once (now now' : Q) (g : Game) (s : Z) (won : bool) (s' : Z)
    (g' : Game) :
  handle_collisions_and_points now g s = Ok (won, s', g') ->
  handle_collisions_and_points now' g' s' = Ok (false, s', g').
Proof.
  intros H.
  destruct (handle_collisions_and_points_occupied _ _ _ _ H) as (y & x & c & Hocc & Hc).
  destruct (handle_collisions_and_points_cases now g s y x c Hocc Hc)
    as (row & Hrow & Hx & Hcases).
  rewrite Hcases in H. cbv zeta in H.
  assert (Hact : forall g0, matrix g0 = matrix g -> tile_size g0 = tile_size g ->
                            pacman g0 = pacman g ->
    handle_collisions_and_points now'
      (set_matrix g0 (<[y := <[x := -1]> row]> (matrix g))) s' =
    Ok (false, s', set_matrix g0 (<[y := <[x := -1]> row]> (matrix g)))).
  { intros g0 Hm Hts Hp.
    destruct (handle_collisions_and_points_cases now'
                (set_matrix g0 (<[y := <[x := -1]> row]> (matrix g))) s' y x (-1))
      as (row' & _ & _ & ->).
    - simpl. rewrite Hts, Hp, occupied_insert by done. done.
    - simpl. rewrite cell_insert by done. by rewrite decide_True.
    - done. }
  assert (Hsame : matrix (activate_power_pill now g) = matrix g /\
                  tile_size (activate_power_pill now g) = tile_size g /\
                  pacman (activate_power_pill now g) = pacman g).
  { unfold activate_power_pill. by destruct (power_pill_active g). }
  destruct Hsame as (? & ? & ?).
  repeat case_decide; injection H as _ <- <-.
  - by apply Hact.
  - by apply Hact.
  - by apply Hact.
  - destruct (handle_collisions_and_points_cases now' g s y x c Hocc Hc)
      as (row' & _ & _ & ->).
    cbv zeta. by rewrite !decide_False by done.
Qed.

Lemma pickup_is_made_once_witness :
  handle_collisions_and_points 1%Q
    (set_matrix game_on_point
       (<[2%nat := <[2%nat := -1]> [3; 1; 0; 0; 0; 0; 1; 3]]> default_matrix)) 10 =
  Ok (false, 10,
      set_matrix game_on_point
        (<[2%nat := <[2%nat := -1]> [3; 1; 0; 0; 0; 0; 1; 3]]> default_matrix)).
Proof.
  apply (pickup_is_made_once 0%Q 1%Q game_on_point 0 false 10). reflexivity.
Defined.

(** X13: fruit and power pill.  With Pac-Man on a fruit (code -2),
    [handle_collisions_and_points] adds 100 to the score; on a power pill
    (code -3) it activates the power pill and leaves the score; in both
    cases the cell becomes -1, no other cell changes, and the level is not
    signalled as complete.  On any other code except 0 nothing happens. *)
Theorem fruit_and_pill_pickup (now : Q) (g : Game) (s : Z) (y x : nat) (c : Z) :
  occupied (matrix g) (tile_size g) (pos (entity (pacman g))) = Some (y, x) ->
  cell (matrix g) y x = Some c ->
  c <> 0 ->
  exists m',
    handle_collisions_and_points now g s =
      (if decide (c = -2) then Ok (false, s + 100, set_matrix g m')
       else if decide (c = -3)
            then Ok (false, s, set_matrix (activate_power_pill now g) m')
            else Ok (false, s, g)) /\
    cell m' y x = Some (-1) /\
    (forall y' x', (y', x') <> (y, x) -> cell m' y' x' = cell (matrix g) y' x').
Proof.
  intros Hocc Hc Hne.
  destruct (handle_collisions_and_points_cases now g s y x c Hocc Hc)
    as (row & Hrow & Hx & ->).
  exists (<[y := <[x := -1]> row]> (matrix g)). cbv zeta.
  rewrite decide_False by done. split; [done|]. split.
  - rewrite cell_insert by done. by rewrite decide_True.
  - intros y' x' Hyx. rewrite cell_insert by done. by rewrite decide_False.
Qed.

Lemma fruit_and_pill_pickup_witness :
  exists m',
    handle_collisions_and_points 0%Q game_on_fruit 0 =
      (if decide (-2 = -2) then Ok (false, 0 + 100, set_matrix game_on_fruit m')
       else if decide (-2 = -3)
            then Ok (false, 0, set_matrix (activate_power_pill 0%Q game_on_fruit) m')
            else Ok (false, 0, game_on_fruit)) /\
    cell m' 1 1 = Some (-1) /\
    (forall y' x', (y', x') <> (1%nat, 1%nat) ->
                   cell m' y' x' = cell (matrix game_on_fruit) y' x').
Proof.
  apply (fruit_and_pill_pickup 0%Q game_on_fruit 0 1 1 (-2)).
  - reflexivity.
  - reflexivity.
  - lia.
Defined.

(** ** The game from call to call *)

(** X14: no call of play takes anything back.  Every call leaves the
    configured levels and the tile size as they are, does not lower the
    score kept in the game object, moves the level up by at most one and
    never down, and leaves a game that is over over. *)
Theorem step_never_goes_back (g g' : Game) :
  step g g' ->
  levels g' = levels g /\ tile_size g' = tile_size g /\
  score g <= score g' /\ level g <= level g' <= level g + 1 /\
  (game_over g = true -> game_over g' = true).
Proof.
  intros H. apply step_frame in H as ((? & ? & ? & ? & ?) & ? & _). done.
Qed.

Lemma step_never_goes_back_witness :
  levels (collision_pacman_ghost (fun _ => 5%Q) game_at_first_touch) =
    levels game_at_first_touch /\
  tile_size (collision_pacman_ghost (fun _ => 5%Q) game_at_first_touch) =
    tile_size game_at_first_touch /\
  score game_at_first_touch <=
    score (collision_pacman_ghost (fun _ => 5%Q) game_at_first_touch) /\
  level game_at_first_touch <=
    level (collision_pacman_ghost (fun _ => 5%Q) game_at_first_touch) <=
    level game_at_first_touch + 1 /\
  (game_over game_at_first_touch = true ->
   game_over (collision_pacman_ghost (fun _ => 5%Q) game_at_first_touch) = true).
Proof.
  apply (step_never_goes_back game_at_first_touch
           (collision_pacman_ghost (fun _ => 5%Q) game_at_first_touch)).
  apply step_collision.
Defined.

(** X15: throughout play Pac-Man has at most three lives, and at least one
    as long as the game is not over. *)
Theorem lives_between_one_and_three (g : Game) :
  reachable g ->
  lives (pacman g) <= 3 /\ (game_over g = false -> 1 <= lives (pacman g)).
Proof.
  induction 1 as [a lv ts g Hinit | g g' _ IH Hstep].
  - by apply level_inv_init in Hinit as [_ ?].
  - apply step_frame in Hstep as (_ & _ & Hlives & _). by apply Hlives.
Qed.

Lemma lives_between_one_and_three_witness :
  lives (pacman game_at_first_touch) <= 3 /\
  (game_over game_at_first_touch = false -> 1 <= lives (pacman game_at_first_touch)).
Proof.
  apply (lives_between_one_and_three game_at_first_touch).
  exact game_at_first_touch_reachable.
Defined.

(** Throughout play the current level is one of the configured levels. *)
Lemma reachable_level_inv (g : Game) : reachable g -> level_inv g.
Proof.
  induction 1 as [a lv ts g Hinit | g g' _ IH Hstep].
  - by apply level_inv_init in Hinit as [? _].
  - apply step_frame in Hstep as (_ & _ & _ & Hlevel). by apply Hlevel.
Qed.

Lemma worn_refl (m : Matrix) : worn m m.
Proof. intros y x. by left. Qed.

Lemma worn_write (m m' : Matrix) (iy ix v c : Z) (row : list Z) :
  getitem m iy = Ok row ->
  getitem row ix = Ok c ->
  c < 1 ->
  v = -1 \/ v = -2 ->
  set_cell m iy ix v = Ok m' ->
  worn m m'.
Proof.
  intros Hrow Hc Hlt Hv Hset.
  apply getitem_Ok in Hrow as (y & Hy & Hrow).
  apply getitem_Ok in Hc as (x & Hx & Hc).
  rewrite (set_cell_Ok m iy ix y x row v Hy Hrow Hx) in Hset. injection Hset as <-.
  intros y' x'. rewrite cell_insert by (done || by eapply py_index_lt).
  case_decide as Heq; [|by left]. injection Heq as -> ->.
  right. exists c. unfold cell. rewrite Hrow. split; [done|]. split; [done|].
  destruct Hv as [-> | ->]; auto.
Qed.

Lemma step_worn (g g' : Game) :
  step g g' ->
  level g' = level g ->
  worn (matrix g) (matrix g').
Proof.
  destruct 1 as [keys now nows rnd g g' H | now g | g g' H | now g
                | now g s won s' g' H | now g g' H | r x y g fc fc' g' H]; intros Hlevel.
  - apply handle_pacman_logic_frame in H as (_ & _ & -> & _). apply worn_refl.
  - unfold collision_pacman_ghost. rewrite ghost_loop_matrix. apply worn_refl.
  - unfold teleport_pacman in H. apply bind_Ok in H as (t & _ & H). injection H as <-.
    apply worn_refl.
  - unfold update_power_pill. destruct (_ && _); apply worn_refl.
  - unfold handle_collisions_and_points in H.
    apply bind_Ok in H as (qx & _ & H).
    apply bind_Ok in H as (qy & _ & H).
    apply bind_Ok in H as (row & Hrow & H).
    apply bind_Ok in H as (c & Hc & H).
    assert (Hsame : matrix (activate_power_pill now g) = matrix g).
    { unfold activate_power_pill. by destruct (power_pill_active g). }
    repeat case_decide.
    + apply bind_Ok in H as (m & Hm & H).
      destruct (negb _); injection H as _ _ <-; simpl;
        by eapply (worn_write (matrix g) m _ _ (-1) c row); [done | done | lia | left |].
    + apply bind_Ok in H as (m & Hm & H). injection H as _ _ <-. simpl.
      by eapply (worn_write (matrix g) m _ _ (-1) c row); [done | done | lia | left |].
    + apply bind_Ok in H as (m & Hm & H). injection H as _ _ <-. simpl.
      rewrite Hsame in Hm.
      by eapply (worn_write (matrix g) m _ _ (-1) c row); [done | done | lia | left |].
    + injection H as _ _ <-. apply worn_refl.
  - destruct (decide (level g < Z.of_nat (size (levels g)) - 1)) as [Hlt|Hge].
    + destruct (level_up_advance now g g' Hlt H) as (f & m & start & rest & _ & _ & _ & ->).
      simpl in Hlevel. lia.
    + unfold level_up in H. rewrite decide_False in H by done. injection H as <-.
      apply worn_refl.
  - unfold place_fruits in H.
    destruct (fruit_guard fc r); [|injection H as _ <-; apply worn_refl].
    case_decide; [done|].
    apply bind_Ok in H as (row0 & _ & H). case_decide; [done|].
    apply bind_Ok in H as (row & Hrow & H).
    apply bind_Ok in H as (c & Hc & H).
    case_decide; [|injection H as _ <-; apply worn_refl].
    apply bind_Ok in H as (m & Hm & H). injection H as _ <-. simpl.
    by eapply (worn_write (matrix g) m _ _ (-2) c row); [done | done | lia | right |].
Qed.

(** X16: within a level the maze only wears.  A call of play that does not
    change the level leaves every cell as it was, except that a cell whose
    code was below 1 may have become -1 or -2.  So walls, borders and spawn
    markers stay, and no point, power pill or other code is ever added. *)
Theorem maze_only_wears (g g' : Game) :
  step g g' ->
  level g' = level g ->
  worn (matrix g) (matrix g') /\
  (forall y x c, cell (matrix g) y x = Some c -> 1 <= c ->
                 cell (matrix g') y x = Some c) /\
  (forall y x, cell (matrix g') y x = Some 0 -> cell (matrix g) y x = Some 0).
Proof.
  intros Hstep Hlevel. pose proof (step_worn g g' Hstep Hlevel) as Hworn.
  split; [done|]. split.
  - intros y x c Hc Hwall.
    destruct (Hworn y x) as [-> | (c' & Hc' & Hlt & _)]; [done|].
    rewrite Hc in Hc'. injection Hc' as <-. lia.
  - intros y x H0.
    destruct (Hworn y x) as [<- | (c' & _ & _ & [H | H])]; [done|..];
      rewrite H0 in H; discriminate H.
Qed.

Lemma maze_only_wears_witness :
  worn (matrix game_on_point)
       (<[2%nat := <[2%nat := -1]> [3; 1; 0; 0; 0; 0; 1; 3]]> default_matrix) /\
  (forall y x c, cell (matrix game_on_point) y x = Some c -> 1 <= c ->
     cell (<[2%nat := <[2%nat := -1]> [3; 1; 0; 0; 0; 0; 1; 3]]> default_matrix) y x
       = Some c) /\
  (forall y x,
     cell (<[2%nat := <[2%nat := -1]> [3; 1; 0; 0; 0; 0; 1; 3]]> default_matrix) y x
       = Some 0 ->
     cell (matrix game_on_point) y x = Some 0).
Proof.
  apply (maze_only_wears game_on_point
           (set_matrix game_on_point
              (<[2%nat := <[2%nat := -1]> [3; 1; 0; 0; 0; 0; 1; 3]]> default_matrix))).
  - apply (step_points 0%Q game_on_point 0 false 10). reflexivity.
  - reflexivity.
Defined.

(** ** Pac-Man against the ghosts *)

Lemma set_ghosts_score_same (g : Game) : set_score (set_ghosts g (ghosts g)) (score g) = g.
Proof. by destruct g. Qed.

Lemma collide_eats (rect : Rect) (now : Q) (i : nat) (ghost : Entity) (g : Game) :
  (touching (tile_size g) rect ghost = true -> frightened ghost = true) ->
  collide rect now i ghost g =
  if touching (tile_size g) rect ghost
  then set_score (set_ghosts g (<[i := Entity_kill now ghost]> (ghosts g))) (score g + 200)
  else g.
Proof.
  unfold collide, touching. destruct (colliderect _ _); [|done].
  intros Hfr. by rewrite Hfr.
Qed.

Lemma ghost_loop_eats (rect : Rect) (now : nat -> Q) (fuel : nat) :
  forall (i : nat) (g : Game),
  (forall j ghost, (i <= j)%nat -> ghosts g !! j = Some ghost ->
     touching (tile_size g) rect ghost = true -> frightened ghost = true) ->
  (length (ghosts g) <= i + fuel)%nat ->
  ghost_loop fuel rect now i g =
    set_score (set_ghosts g (ghosts (ghost_loop fuel rect now i g)))
              (score (ghost_loop fuel rect now i g)) /\
  length (ghosts (ghost_loop fuel rect now i g)) = length (ghosts g) /\
  (forall j ghost, ghosts g !! j = Some ghost ->
     ghosts (ghost_loop fuel rect now i g) !! j =
     Some (if bool_decide (i <= j)%nat && touching (tile_size g) rect ghost
           then Entity_kill (now j) ghost else ghost)) /\
  score (ghost_loop fuel rect now i g) =
    score g + 200 * Z.of_nat (length (filter
                  (fun ghost => touching (tile_size g) rect ghost = true)
                  (drop i (ghosts g)))).
Proof.
  assert (Hend : forall i g, (length (ghosts g) <= i)%nat ->
    g = set_score (set_ghosts g (ghosts g)) (score g) /\
    length (ghosts g) = length (ghosts g) /\
    (forall j ghost, ghosts g !! j = Some ghost ->
       ghosts g !! j =
       Some (if bool_decide (i <= j)%nat && touching (tile_size g) rect ghost
             then Entity_kill (now j) ghost else ghost)) /\
    score g =
      score g + 200 * Z.of_nat (length (filter
                    (fun ghost => touching (tile_size g) rect ghost = true)
                    (drop i (ghosts g))))).
  { intros i g Hlen. split; [by rewrite set_ghosts_score_same|]. split; [done|]. split.
    - intros j ghost Hj. rewrite Hj. apply lookup_lt_Some in Hj.
      rewrite bool_decide_eq_false_2 by lia. done.
    - rewrite drop_ge by done. simpl. lia. }
  induction fuel as [|fuel IH]; intros i g Hfr Hlen; simpl.
  - apply Hend. lia.
  - destruct (ghosts g !! i) as [ghost|] eqn:Hi;
      [|by apply Hend, lookup_ge_None].
    set (g1 := collide rect (now i) i ghost g).
    assert (Hg1 : g1 = if touching (tile_size g) rect ghost
                       then set_score (set_ghosts g (<[i := Entity_kill (now i) ghost]>
                                                       (ghosts g))) (score g + 200)
                       else g).
    { apply collide_eats. by apply (Hfr i). }
    assert (Hts : tile_size g1 = tile_size g).
    { rewrite Hg1. by destruct (touching _ _ _). }
    assert (Hgs : ghosts g1 = if touching (tile_size g) rect ghost
                              then <[i := Entity_kill (now i) ghost]> (ghosts g)
                              else ghosts g).
    { rewrite Hg1. by destruct (touching _ _ _). }
    assert (Hsc : score g1 = score g + if touching (tile_size g) rect ghost
                                       then 200 else 0).
    { rewrite Hg1. destruct (touching _ _ _); simpl; lia. }
    assert (Hrest : forall gs', set_ghosts g1 gs' = set_ghosts g gs' \/
                                exists s, set_ghosts g1 gs' = set_score (set_ghosts g gs') s).
    { intros gs'. rewrite Hg1. destruct (touching _ _ _); [right; by eexists | by left]. }
    assert (Hlen1 : length (ghosts g1) = length (ghosts g)).
    { rewrite Hgs. destruct (touching _ _ _); [by rewrite length_insert | done]. }
    assert (Hother : forall j, j <> i -> ghosts g1 !! j = ghosts g !! j).
    { intros j Hne. rewrite Hgs. destruct (touching _ _ _); [|done].
      by rewrite list_lookup_insert_ne. }
    destruct (IH (S i) g1) as (E1 & E2 & E3 & E4).
    { intros j gh Hj Hgh. rewrite Hts, Hother in * by lia. by apply (Hfr j); [lia|]. }
    { lia. }
    fold g1. rewrite Hts in *. split; [|split; [|split]].
    + rewrite E1 at 1. destruct (Hrest (ghosts (ghost_loop fuel rect now (S i) g1)))
        as [-> | [s ->]]; done.
    + lia.
    + intros j gh Hj. destruct (decide (j = i)) as [->|Hne].
      * rewrite Hi in Hj. injection Hj as <-.
        rewrite bool_decide_eq_true_2 by lia. cbn [andb].
        assert (Hi1 : ghosts g1 !! i =
                      Some (if touching (tile_size g) rect ghost
                            then Entity_kill (now i) ghost else ghost)).
        { rewrite Hgs. destruct (touching _ _ _); [|done].
          apply list_lookup_insert_eq. by eapply lookup_lt_Some. }
        rewrite (E3 _ _ Hi1). rewrite bool_decide_eq_false_2 by lia. done.
      * rewrite <- Hother in Hj by done. rewrite (E3 _ _ Hj).
        destruct (decide (i <= j)%nat).
        -- by rewrite !bool_decide_eq_true_2 by lia.
        -- by rewrite !bool_decide_eq_false_2 by lia.
    + rewrite E4, Hsc. rewrite (drop_S _ _ _ Hi), filter_cons.
      assert (Hdrop : drop (S i) (ghosts g1) = drop (S i) (ghosts g)).
      { rewrite Hgs. destruct (touching _ _ _); [|done]. apply drop_insert_lt. lia. }
      rewrite Hdrop. destruct (touching (tile_size g) rect ghost) eqn:Ht.
      * rewrite decide_True by done. cbn [length]. lia.
      * rewrite decide_False by done. lia.
Qed.

(** X17: a collision pass in which every ghost that Pac-Man touches is
    frightened costs no life and ends nothing.  The game is unchanged but
    for its ghosts and score: every ghost whose box overlaps Pac-Man's is
    killed (sent to its start position, if it was alive), the others are
    as they were, and the score of the game object grows by 200 for every
    overlapping ghost, dead or alive. *)
Theorem frightened_ghosts_are_eaten (now : nat -> Q) (g : Game) :
  Forall (fun ghost =>
            touching (tile_size g)
                     (entity_rect (tile_size g) (pos (entity (pacman g)))) ghost = true ->
            frightened ghost = true) (ghosts g) ->
  collision_pacman_ghost now g =
  set_score
    (set_ghosts g
       (imap (fun j ghost =>
                if touching (tile_size g)
                            (entity_rect (tile_size g) (pos (entity (pacman g)))) ghost
                then Entity_kill (now j) ghost else ghost) (ghosts g)))
    (score g + 200 * Z.of_nat (length (filter
       (fun ghost => touching (tile_size g)
                       (entity_rect (tile_size g) (pos (entity (pacman g)))) ghost = true)
       (ghosts g)))).
Proof.
  intros Hall. unfold collision_pacman_ghost.
  set (rect := entity_rect (tile_size g) (pos (entity (pacman g)))) in *.
  set (fuel := (length (ghosts g) `max` _)%nat).
  destruct (ghost_loop_eats rect now fuel 0 g) as (E1 & E2 & E3 & E4).
  { intros j ghost _ Hj. rewrite Forall_lookup in Hall. by apply (Hall j). }
  { unfold fuel. lia. }
  rewrite E1, E4. rewrite drop_0. f_equal. f_equal.
  apply list_eq. intros j. rewrite list_lookup_imap.
  destruct (ghosts g !! j) as [ghost|] eqn:Hj.
  - rewrite (E3 _ _ Hj). by rewrite bool_decide_eq_true_2 by lia.
  - simpl. apply lookup_ge_None. rewrite E2. by apply lookup_ge_None.
Qed.

Lemma frightened_ghosts_are_eaten_witness :
  collision_pacman_ghost (fun _ => 2%Q) game_with_meal =
  set_score
    (set_ghosts game_with_meal
       (imap (fun j ghost =>
                if touching (tile_size game_with_meal)
                     (entity_rect (tile_size game_with_meal)
                                  (pos (entity (pacman game_with_meal)))) ghost
                then Entity_kill ((fun _ => 2%Q) j) ghost else ghost)
             (ghosts game_with_meal)))
    (score game_with_meal + 200 * Z.of_nat (length (filter
       (fun ghost => touching (tile_size game_with_meal)
                       (entity_rect (tile_size game_with_meal)
                                    (pos (entity (pacman game_with_meal)))) ghost = true)
       (ghosts game_with_meal)))).
Proof.
  apply (frightened_ghosts_are_eaten (fun _ => 2%Q) game_with_meal).
  repeat constructor.
Defined.

(** A collision pass in which Pac-Man touches no ghost changes nothing. *)
Lemma collision_without_touch (now : nat -> Q) (g : Game) :
  Forall (fun ghost =>
            touching (tile_size g)
                     (entity_rect (tile_size g) (pos (entity (pacman g)))) ghost = false)
         (ghosts g) ->
  collision_pacman_ghost now g = g.
Proof.
  intros Hall. unfold collision_pacman_ghost.
  generalize (length (ghosts g) `max`
              length (create_ghosts_from_matrix (matrix g) (tile_size g)))%nat.
  generalize 0%nat. intros i fuel. revert i.
  induction fuel as [|fuel IH]; intros i; simpl; [done|].
  destruct (ghosts g !! i) as [ghost|] eqn:Hi; [|done].
  rewrite Forall_lookup in Hall. pose proof (Hall _ _ Hi) as Ht.
  unfold collide. unfold touching in Ht. rewrite Ht. apply IH.
Qed.

(** ** Dead ghosts *)

Lemma Entity_move_alive (m : Matrix) (ts : Z) (b : bool) (e e' : Entity) :
  Entity_move m ts b e = Ok e' -> alive e' = alive e.
Proof.
  unfold Entity_move. intros H. apply bind_Ok in H as (blocked & _ & H).
  by destruct blocked; injection H as <-.
Qed.

Lemma probe_alive (m : Matrix) (ts : Z) (d : direction)
    (st st' : Entity * list direction) :
  probe m ts d st = Ok st' -> alive (fst st') = alive (fst st).
Proof.
  intros H. by apply probe_cases in H as [[-> _] | (_ & _ & t & _ & ->)].
Qed.

Lemma change_direction_random_alive (r : nat) (g : Entity) :
  alive (change_direction_random r g) = alive g.
Proof. unfold change_direction_random. by destruct (_ !! r). Qed.

Lemma Ghost_move_alive (m : Matrix) (ts : Z) (r : nat) (g g' : Ghost) :
  Ghost_move m ts r g = Ok g' -> alive g' = alive g.
Proof.
  unfold Ghost_move. intros H. apply bind_Ok in H as (blocked & _ & H).
  destruct blocked.
  - injection H as <-. apply change_direction_random_alive.
  - apply bind_Ok in H as (g1 & Hmove & H).
    apply bind_Ok in H as (t & Hinter & H).
    apply Entity_move_alive in Hmove.
    unfold is_intersection, possible_directions in Hinter.
    apply bind_Ok in Hinter as (s & Hs & Ht). injection Ht as <-.
    apply bind_Ok in Hs as (s1 & H1 & Hs).
    apply bind_Ok in Hs as (s2 & H2 & Hs).
    apply bind_Ok in Hs as (s3 & H3 & H4).
    apply probe_alive in H1, H2, H3, H4. simpl in *.
    destruct (bool_decide _); injection H as <-;
      rewrite ?change_direction_random_alive; congruence.
Qed.

Lemma at_rest_update_ghost (m : Matrix) (ts : Z) (now : Q) (r : nat)
    (ghost ghost' : Ghost) :
  update_ghost m ts now r ghost = Ok ghost' -> at_rest ghost -> at_rest ghost'.
Proof.
  unfold update_ghost, at_rest. destruct (_ && _); [by intros [= <-]|].
  destruct (alive ghost) eqn:Ha; [|intros [= <-] Hr _; by apply Hr].
  intros H _ Hdead. apply Ghost_move_alive in H. congruence.
Qed.

Lemma at_rest_fresh (m : Matrix) (ts : Z) : Forall at_rest (create_ghosts_from_matrix m ts).
Proof. unfold create_ghosts_from_matrix. by apply Forall_fmap, Forall_true. Qed.

Lemma at_rest_kill (now : Q) (ghost : Ghost) : at_rest ghost -> at_rest (Entity_kill now ghost).
Proof.
  unfold at_rest, Entity_kill. destruct (alive ghost); [done|]. intros Hr _. by apply Hr.
Qed.

Lemma at_rest_collide (rect : Rect) (now : Q) (i : nat) (ghost : Entity) (g : Game) :
  ghosts g !! i = Some ghost ->
  Forall at_rest (ghosts g) -> Forall at_rest (ghosts (collide rect now i ghost g)).
Proof.
  intros Hi Hall. unfold collide. destruct (colliderect _ _); [|done].
  destruct (frightened ghost); simpl.
  - apply Forall_insert; [done|]. apply at_rest_kill.
    rewrite Forall_lookup in Hall. by eapply Hall.
  - case_decide; apply at_rest_fresh.
Qed.

Lemma at_rest_ghost_loop (fuel : nat) (rect : Rect) (now : nat -> Q) (i : nat)
    (g : Game) :
  Forall at_rest (ghosts g) -> Forall at_rest (ghosts (ghost_loop fuel rect now i g)).
Proof.
  revert i g. induction fuel as [|fuel IH]; intros i g Hall; simpl; [done|].
  destruct (ghosts g !! i) as [ghost|] eqn:Hi; [|done].
  by apply IH, at_rest_collide.
Qed.

Lemma at_rest_step (g g' : Game) :
  step g g' -> Forall at_rest (ghosts g) -> Forall at_rest (ghosts g').
Proof.
  destruct 1 as [keys now nows rnd g g' H | now g | g g' H | now g
                | now g s won s' g' H | now g g' H | r x y g fc fc' g' H]; intros Hall.
  - unfold handle_pacman_logic in H. destruct (_ && _); [by injection H as <-|].
    destruct (alive _); [|by injection H as <-].
    apply bind_Ok in H as (p' & _ & H). unfold update_ghosts in H.
    apply bind_Ok in H as (gs & Hgs & H). injection H as <-. simpl in *.
    apply update_ghosts_from_lookup in Hgs as [Hlen Hgs].
    apply Forall_lookup. intros j ghost' Hj.
    destruct (lookup_lt_is_Some_2 (ghosts g) j) as [ghost Hghost].
    { rewrite <- Hlen. by eapply lookup_lt_Some. }
    destruct (Hgs _ _ Hghost) as (ghost'' & Hj' & Hu).
    rewrite Hj in Hj'. injection Hj' as <-.
    eapply at_rest_update_ghost; [done|]. rewrite Forall_lookup in Hall. by eapply Hall.
  - by apply at_rest_ghost_loop.
  - unfold teleport_pacman in H. apply bind_Ok in H as (t & _ & H). by injection H as <-.
  - unfold update_power_pill. destruct (_ && _); [|done]. simpl.
    apply Forall_fmap. eapply Forall_impl; [done|]. intros ghost Hr. simpl.
    unfold calm. by destruct (frightened ghost).
  - unfold handle_collisions_and_points in H.
    apply bind_Ok in H as (qx & _ & H).
    apply bind_Ok in H as (qy & _ & H).
    apply bind_Ok in H as (row & _ & H).
    apply bind_Ok in H as (c & _ & H).
    repeat case_decide.
    + apply bind_Ok in H as (m & _ & H). by destruct (negb _); injection H as _ _ <-.
    + apply bind_Ok in H as (m & _ & H). by injection H as _ _ <-.
    + apply bind_Ok in H as (m & _ & H). injection H as _ _ <-. simpl.
      unfold activate_power_pill. destruct (power_pill_active g); [done|]. simpl.
      apply Forall_fmap. eapply Forall_impl; [done|]. by intros ghost Hr.
    + by injection H as _ _ <-.
  - destruct (decide (level g < Z.of_nat (size (levels g)) - 1)) as [Hlt|Hge].
    + destruct (level_up_advance now g g' Hlt H) as (f & m & start & rest & _ & _ & _ & ->).
      apply at_rest_fresh.
    + unfold level_up in H. rewrite decide_False in H by done. by injection H as <-.
  - by apply place_fruits_frame in H as (m & ->).
Qed.

(** X18: a dead ghost waits where it started.  Throughout play every ghost
    that is not alive stands on its start position: being eaten sends it
    there and nothing moves it before it respawns. *)
Theorem dead_ghosts_wait_at_start (g : Game) (ghost : Ghost) :
  reachable g ->
  ghost ∈ ghosts g ->
  alive ghost = false ->
  pos ghost = start_pos ghost.
Proof.
  intros Hreach Hin.
  assert (Hall : Forall at_rest (ghosts g)).
  { clear ghost Hin. induction Hreach as [a lv ts g Hinit | g g' _ IH Hstep].
    - unfold Game_init in Hinit. cbv zeta in Hinit.
      apply bind_Ok in Hinit as (f & _ & H).
      apply bind_Ok in H as (m & _ & H).
      apply bind_Ok in H as (p & _ & H). injection H as <-. apply at_rest_fresh.
    - by eapply at_rest_step. }
  rewrite Forall_forall in Hall. by apply Hall.
Qed.


Lemma game_after_meal_reachable : reachable game_after_meal.
Proof.
  eapply (play_game_loop_reachable (replicate 9 calm_input) (_, 0, 0) (_, _, _)).
  2: { simpl. eapply (reachable_init no_assets pill_levels 20). vm_compute. reflexivity. }
  vm_compute. reflexivity.
Qed.

Lemma dead_ghosts_wait_at_start_witness : pos eaten_ghost = start_pos eaten_ghost.
Proof.
  apply (dead_ghosts_wait_at_start game_after_meal eaten_ghost).
  - exact game_after_meal_reachable.
  - apply list_elem_of_here.
  - reflexivity.
Defined.

(** ** The counters of [play_game] *)

Lemma place_fruits_count (r x y : Z) (g : Game) (fc fc' : Z) (g' : Game) :
  place_fruits r x y g fc = Ok (fc', g') -> fc' = fc \/ (fc' = fc + 1 /\ fc < 2).
Proof.
  unfold place_fruits, fruit_guard. intros H.
  destruct (bool_decide (fc < 2)) eqn:Hfc; cbn [andb] in H; [|injection H as <- _; by left].
  apply bool_decide_eq_true in Hfc.
  destruct (bool_decide (r = 0)); [|injection H as <- _; by left].
  case_decide; [done|].
  apply bind_Ok in H as (row0 & _ & H). case_decide; [done|].
  apply bind_Ok in H as (row & _ & H).
  apply bind_Ok in H as (c & _ & H).
  case_decide; [|injection H as <- _; by left].
  apply bind_Ok in H as (m & _ & H). injection H as <- _. by right.
Qed.

Lemma handle_collisions_and_points_score (now : Q) (g : Game) (s : Z) (won : bool)
    (s' : Z) (g' : Game) :
  handle_collisions_and_points now g s = Ok (won, s', g') ->
  s' = s \/ s' = s + 10 \/ s' = s + 100.
Proof.
  unfold handle_collisions_and_points. intros H.
  apply bind_Ok in H as (qx & _ & H).
  apply bind_Ok in H as (qy & _ & H).
  apply bind_Ok in H as (row & _ & H).
  apply bind_Ok in H as (c & _ & H).
  repeat case_decide.
  - apply bind_Ok in H as (m & _ & H). destruct (negb _); injection H as _ <- _; auto.
  - apply bind_Ok in H as (m & _ & H). injection H as _ <- _. auto.
  - apply bind_Ok in H as (m & _ & H). injection H as _ <- _. auto.
  - injection H as _ <- _. auto.
Qed.

(** One pass of the loop of [play_game], call by call. *)
Lemma tick_frame (i : Input) (g : Game) (s fc : Z) (g' : Game) (s' fc' : Z) :
  tick i (g, s, fc) = Ok (g', s', fc') ->
  carries_on g g' /\
  (s' = s \/ s' = s + 10 \/ s' = s + 100) /\
  (fc' = fc \/ (fc' = fc + 1 /\ fc < 2)).
Proof.
  unfold tick. intros H.
  apply bind_Ok in H as (g1 & H1 & H).
  apply bind_Ok in H as (g3 & H3 & H).
  apply bind_Ok in H as ([[won s1] g5] & H5 & H).
  apply bind_Ok in H as (g6 & H6 & H).
  apply bind_Ok in H as ([fc1 g7] & H7 & H). injection H as <- <- <-.
  assert (C1 : carries_on g g1).
  { eapply step_frame, step_pacman_logic, H1. }
  assert (C2 : carries_on g1 (collision_pacman_ghost (fun _ => in_now i) g1)).
  { eapply step_frame, step_collision. }
  assert (C3 : carries_on (collision_pacman_ghost (fun _ => in_now i) g1) g3).
  { eapply step_frame, step_teleport, H3. }
  assert (C4 : carries_on g3 (update_power_pill (in_now i) g3)).
  { eapply step_frame, step_power_pill. }
  assert (C5 : carries_on (update_power_pill (in_now i) g3) g5).
  { eapply step_frame, step_points, H5. }
  assert (C6 : carries_on g5 g6).
  { destruct won; [eapply step_frame, step_level_up, H6|].
    injection H6 as <-. apply carries_on_refl. }
  assert (C7 : carries_on g6 g7).
  { eapply step_frame, step_fruits, H7. }
  split; [eauto 10 using carries_on_trans|].
  split; [by eapply handle_collisions_and_points_score | by eapply place_fruits_count].
Qed.

(** X19: the counters of one pass of [play_game].  The score that
    [play_game] counts and returns grows by 0, 10 or 100 in a pass, and by
    nothing else: the 200 points for an eaten ghost are added to the score
    of the game object only.  The fruit counter grows by at most one, and
    only while it is below 2; it never goes down. *)
Theorem tick_counts (i : Input) (g : Game) (s fc : Z) (g' : Game) (s' fc' : Z) :
  tick i (g, s, fc) = Ok (g', s', fc') ->
  (s' = s \/ s' = s + 10 \/ s' = s + 100) /\
  (fc' = fc \/ (fc' = fc + 1 /\ fc < 2)).
Proof. intros H. by apply tick_frame in H as (_ & ? & ?). Qed.

Lemma tick_counts_witness :
  (snd (fst state_after_pass) = 0 \/ snd (fst state_after_pass) = 0 + 10 \/
   snd (fst state_after_pass) = 0 + 100) /\
  (snd state_after_pass = 0 \/ (snd state_after_pass = 0 + 1 /\ 0 < 2)).
Proof.
  apply (tick_counts calm_input game_on_pill_level 0 0 (fst (fst state_after_pass))
           (snd (fst state_after_pass)) (snd state_after_pass)).
  vm_compute. reflexivity.
Defined.

(** X20: a whole run of [play_game].  The score it returns is at least the
    score it started with and at most 100 more per pass; the fruit counter
    only grows and, started at 0, never exceeds 2, so at most two fruits
    are placed in a run; the score of the game object and the level do not
    go down and a game that is over stays over. *)
Theorem play_game_loop_counts (inputs : list Input) (g : Game) (s fc : Z) (g' : Game)
    (s' fc' : Z) :
  play_game_loop inputs (g, s, fc) = Ok (g', s', fc') ->
  s <= s' <= s + 100 * Z.of_nat (length inputs) /\
  fc <= fc' /\ (fc <= 2 -> fc' <= 2) /\
  carries_on g g'.
Proof.
  revert g s fc. induction inputs as [|i rest IH]; intros g s fc H; simpl in H.
  - injection H as <- <- <-. split; [simpl; lia|]. split; [lia|]. split; [done|].
    apply carries_on_refl.
  - apply bind_Ok in H as ([[g1 s1] fc1] & H1 & H).
    apply tick_frame in H1 as (C1 & Hs & Hfc).
    assert (Hlen : Z.of_nat (length (i :: rest)) = Z.of_nat (length rest) + 1)
      by (simpl; lia).
    rewrite Hlen. simpl in H. destruct (game_over g1).
    + injection H as <- <- <-. split; [lia|]. split; [lia|]. split; [lia|done].
    + apply IH in H as (Hs' & Hfc' & Hfc2 & C).
      split; [lia|]. split; [lia|]. split; [intros; apply Hfc2; lia|].
      by eapply carries_on_trans.
Qed.

Lemma play_game_loop_counts_witness :
  0 <= snd (fst state_after_meal) <= 0 + 100 * Z.of_nat (length (replicate 9 calm_input)) /\
  0 <= snd state_after_meal /\ (0 <= 2 -> snd state_after_meal <= 2) /\
  carries_on game_on_pill_level (fst (fst state_after_meal)).
Proof.
  apply (play_game_loop_counts (replicate 9 calm_input) game_on_pill_level 0 0
           (fst (fst state_after_meal)) (snd (fst state_after_meal))
           (snd state_after_meal)).
  vm_compute. reflexivity.
Defined.

(** ** Menu input *)

Lemma input_due_stamp (t : Q) (c : InputClock) :
  (0 <= input_delay c)%Q -> input_due t (stamp t c) = false.
Proof.
  intros Hd. unfold input_due, stamp. simpl. apply negb_false_iff, Qle_bool_iff.
  assert (H0 : (t - t == 0)%Q) by ring. by rewrite H0.
Qed.

Lemma handle_menu_input_first_key {A : Type} (keys : MenuKeys) (t : Q) (c : InputClock)
    (menu_options : list A) (selected_option : Z) :
  (0 <= input_delay c)%Q ->
  menu_options <> [] ->
  handle_menu_input keys t c menu_options selected_option =
  Ok (first_key keys t c menu_options selected_option).
Proof.
  intros Hd Hne.
  assert (Hn : Z.of_nat (length menu_options) <> 0) by (destruct menu_options; simpl; [done|lia]).
  pose proof (input_due_stamp t c Hd) as Hs.
  unfold handle_menu_input, first_key, py_mod.
  destruct (decide (Z.of_nat (length menu_options) = 0)) as [?|_]; [done|].
  destruct keys as [[up down left right] ret].
  cbn [arrows K_UP K_DOWN K_LEFT K_RIGHT K_RETURN].
  destruct (input_due t c) eqn:Hdue.
  - destruct up; cbn [andb bind fst snd].
    + rewrite Hs, !andb_false_r. cbn [bind fst snd]. by rewrite Hs, !andb_false_r.
    + rewrite Hdue. destruct down; cbn [andb bind fst snd].
      * by rewrite Hs, !andb_false_r.
      * rewrite Hdue. by destruct ret, left, right.
  - rewrite !andb_false_r. cbn [bind fst snd]. rewrite Hdue, !andb_false_r.
    cbn [bind fst snd]. by rewrite Hdue, !andb_false_r.
Qed.

(** X21: with a delay that is not negative, a call of [handle_menu_input]
    handles at most one key.  If no input is due, nothing happens whatever
    is pressed.  Otherwise the first pressed key in the order up, down,
    return, left, right is handled and the rest is ignored: up adds one to
    the selection and down takes one off, modulo the number of options;
    return, left and right leave the selection and set their flag; and the
    time of the last input becomes the current time. *)
Theorem handle_menu_input_one_key {A : Type} (keys : MenuKeys) (t : Q) (c : InputClock)
    (menu_options : list A) (selected_option : Z) :
  (0 <= input_delay c)%Q ->
  menu_options <> [] ->
  handle_menu_input keys t c menu_options selected_option =
  Ok (first_key keys t c menu_options selected_option).
Proof. apply handle_menu_input_first_key. Qed.

Lemma handle_menu_input_one_key_witness :
  handle_menu_input (mkMenuKeys (mkKeys true true false false) true) 1%Q new_clock
    main_menu_options 4 =
  Ok (first_key (mkMenuKeys (mkKeys true true false false) true) 1%Q new_clock
        main_menu_options 4).
Proof.
  apply (handle_menu_input_one_key (mkMenuKeys (mkKeys true true false false) true)
           1%Q new_clock main_menu_options 4).
  - vm_compute. discriminate.
  - discriminate.
Defined.

(** X22: [handle_menu_input] keeps the selection inside the menu.  For a
    menu that is not empty and a selection that is an index of it, the
    call raises nothing and returns a selection that is an index of the
    menu, whatever is pressed and whatever the delay is; on an empty menu
    an up key that is due raises [ZeroDivisionError]. *)
Theorem handle_menu_input_in_range {A : Type} (keys : MenuKeys) (t : Q) (c : InputClock)
    (menu_options : list A) (selected_option : Z) :
  (menu_options <> [] ->
   0 <= selected_option < Z.of_nat (length menu_options) ->
   exists c' s confirmed left right,
     handle_menu_input keys t c menu_options selected_option =
       Ok (c', (s, confirmed, left, right)) /\
     0 <= s < Z.of_nat (length menu_options)) /\
  (menu_options = [] ->
   K_UP (arrows keys) = true -> input_due t c = true ->
   handle_menu_input keys t c menu_options selected_option = Raise ZeroDivisionError).
Proof.
  split.
  - intros Hne Hsel.
    assert (Hn : 0 < Z.of_nat (length menu_options))
      by (destruct menu_options; simpl; [done|lia]).
    unfold handle_menu_input, py_mod.
    destruct (decide (Z.of_nat (length menu_options) = 0)) as [?|_]; [lia|].
    pose proof (Z.mod_pos_bound (selected_option + 1) _ Hn) as Hup.
    set (up := if K_UP (arrows keys) && input_due t c then _ else _).
    assert (Hupd : exists c1 s1, up = Ok (c1, s1) /\
                                 0 <= s1 < Z.of_nat (length menu_options)).
    { unfold up. destruct (_ && _); simpl; eauto. }
    destruct Hupd as (c1 & s1 & -> & Hs1). cbn [bind fst snd].
    pose proof (Z.mod_pos_bound (s1 - 1) _ Hn) as Hdown.
    set (down := if K_DOWN (arrows keys) && input_due t c1 then _ else _).
    assert (Hdownd : exists c2 s2, down = Ok (c2, s2) /\
                                   0 <= s2 < Z.of_nat (length menu_options)).
    { unfold down. destruct (_ && _); simpl; eauto. }
    destruct Hdownd as (c2 & s2 & -> & Hs2). cbn [bind fst snd].
    repeat (destruct (_ && _); [eauto 10|]). eauto 10.
  - intros -> Hup Hdue. unfold handle_menu_input. by rewrite Hup, Hdue.
Qed.

(** X23: up and down undo each other.  On a menu that is not empty, with a
    delay that is not negative and a selection that is an index of the
    menu, a call with only the up key and a later call with only the down
    key, both with an input due, leave the selection where it was. *)
Theorem menu_up_then_down {A : Type} (t1 t2 : Q) (c : InputClock)
    (menu_options : list A) (selected_option : Z) :
  (0 <= input_delay c)%Q ->
  menu_options <> [] ->
  0 <= selected_option < Z.of_nat (length menu_options) ->
  input_due t1 c = true ->
  input_due t2 (stamp t1 c) = true ->
  exists s1,
    handle_menu_input key_up t1 c menu_options selected_option =
      Ok (stamp t1 c, (s1, false, false, false)) /\
    handle_menu_input key_down t2 (stamp t1 c) menu_options s1 =
      Ok (stamp t2 c, (selected_option, false, false, false)).
Proof.
  intros Hd Hne Hsel Hdue1 Hdue2.
  assert (Hn : 0 < Z.of_nat (length menu_options))
    by (destruct menu_options; simpl; [done|lia]).
  exists ((selected_option + 1) `mod` Z.of_nat (length menu_options)).
  rewrite !handle_menu_input_first_key by done.
  unfold first_key. rewrite Hdue1, Hdue2. simpl. split; [done|].
  rewrite Zminus_mod_idemp_l.
  replace (selected_option + 1 - 1) with selected_option by lia.
  by rewrite Z.mod_small by lia.
Qed.

Lemma menu_up_then_down_witness :
  exists s1,
    handle_menu_input key_up 1%Q new_clock main_menu_options 4 =
      Ok (stamp 1%Q new_clock, (s1, false, false, false)) /\
    handle_menu_input key_down 2%Q (stamp 1%Q new_clock) main_menu_options s1 =
      Ok (stamp 2%Q new_clock, (4, false, false, false)).
Proof.
  apply (menu_up_then_down 1%Q 2%Q new_clock main_menu_options 4).
  - vm_compute. discriminate.
  - discriminate.
  - simpl. lia.
  - reflexivity.
  - reflexivity.
Defined.

(** ** Screen resolution *)

Lemma list_index_Ok (x : Resolution) (l : list Resolution) (i : nat) :
  list_index x l = Ok i <->
  l !! i = Some x /\ forall j, (j < i)%nat -> l !! j <> Some x.
Proof.
  revert i. induction l as [|y l IH]; intros i; simpl.
  - split; [done|]. by intros [? _].
  - case_decide as Hy.
    + split.
      * intros [= <-]. split; [by subst|]. intros; lia.
      * intros [Hi Hmin]. destruct i as [|i]; [done|].
        exfalso. apply (Hmin 0%nat); [lia|]. by subst.
    + split.
      * intros H. apply bind_Ok in H as (k & Hk & H). injection H as <-.
        apply IH in Hk as [Hk Hmin]. split; [done|].
        intros [|j] Hj; simpl; [congruence|]. apply Hmin. lia.
      * intros [Hi Hmin]. destruct i as [|i]; simpl in Hi; [congruence|].
        assert (Hk : list_index x l = Ok i).
        { apply IH. split; [done|]. intros j Hj. apply (Hmin (S j)). lia. }
        by rewrite Hk.
Qed.

Lemma list_index_Raise (x : Resolution) (l : list Resolution) (e : exn) :
  list_index x l = Raise e -> e = ValueError /\ x ∉ l.
Proof.
  induction l as [|y l IH]; simpl.
  - intros [= <-]. split; [done|]. apply not_elem_of_nil.
  - case_decide as Hy; [done|].
    destruct (list_index x l) as [k|e'] eqn:Hk; simpl; [done|].
    intros [= <-]. destruct (IH eq_refl) as [-> Hnot]. split; [done|].
    rewrite not_elem_of_cons. split; [congruence|done].
Qed.

Lemma list_index_NoDup (l : list Resolution) (i : nat) (x : Resolution) :
  NoDup l -> l !! i = Some x -> list_index x l = Ok i.
Proof.
  intros Hnd Hi. apply list_index_Ok. split; [done|].
  intros j Hj Hjx. rewrite NoDup_alt in Hnd. specialize (Hnd _ _ _ Hi Hjx). lia.
Qed.

(** The index at which [adjust_resolution] starts. *)
Lemma current_index_spec (x : Resolution) (l : list Resolution) :
  exists i,
    except_ValueError (list_index x l) (Ok O) = Ok i /\
    (l <> [] -> (i < length l)%nat) /\
    (forall k, NoDup l -> l !! k = Some x -> i = k).
Proof.
  destruct (list_index x l) as [i|e] eqn:Hi.
  - exists i. split; [done|]. split.
    + intros _. apply list_index_Ok in Hi as [Hi _]. by eapply lookup_lt_Some.
    + intros k Hnd Hk. apply (list_index_NoDup _ _ _ Hnd) in Hk. congruence.
  - apply list_index_Raise in Hi as [-> Hnot]. exists 0%nat. split; [done|]. split.
    + intros Hne. destruct l; simpl; [done|lia].
    + intros k _ Hk. exfalso. apply Hnot. by eapply list_elem_of_lookup_2.
Qed.

(** [adjust_resolution] by the position it moves to. *)
Lemma adjust_resolution_step (left : bool) (sg : Screen * Game) :
  available_resolutions (fst sg) <> [] ->
  exists i r,
    except_ValueError
      (list_index (resolution sg) (available_resolutions (fst sg))) (Ok O) = Ok i /\
    available_resolutions (fst sg) !!
      Z.to_nat ((Z.of_nat i + (if left then -1 else 1))
                `mod` Z.of_nat (length (available_resolutions (fst sg)))) = Some r /\
    adjust_resolution (if left then "left" else "right") sg =
      Ok (mkScreen (fst (fst r)) (snd (fst r)) (available_resolutions (fst sg)),
          set_tile_size (snd sg) (snd r)).
Proof.
  intros Hne. set (l := available_resolutions (fst sg)) in *.
  assert (Hn : 0 < Z.of_nat (length l)) by (destruct l; simpl; [done|lia]).
  destruct (current_index_spec (resolution sg) l) as (i & Hi & _).
  pose proof (Z.mod_pos_bound (Z.of_nat i + (if left then -1 else 1)) _ Hn) as Hb.
  destruct (lookup_lt_is_Some_2 l
              (Z.to_nat ((Z.of_nat i + (if left then -1 else 1)) `mod` Z.of_nat (length l))))
    as [r Hr]; [lia|].
  exists i, r. split; [done|]. split; [done|].
  unfold adjust_resolution. fold l. unfold resolution in Hi. rewrite Hi. cbn [bind].
  unfold py_mod. destruct (decide (Z.of_nat (length l) = 0)) as [?|_]; [lia|].
  assert (Hget : getitem l ((Z.of_nat i + (if left then -1 else 1))
                            `mod` Z.of_nat (length l)) = Ok r).
  { apply getitem_Ok. eexists. split; [|done]. unfold py_index. by rewrite decide_True. }
  destruct left.
  - change (String.eqb "left" "left") with true. cbn [bind].
    replace (Z.of_nat i - 1) with (Z.of_nat i + -1) by lia. by rewrite Hget.
  - change (String.eqb "right" "left") with false.
    change (String.eqb "right" "right") with true. cbn [bind]. by rewrite Hget.
Qed.

(** X24: [adjust_resolution] always lands on one of the available
    resolutions.  With a list of resolutions that is not empty, "left" and
    "right" return and set a resolution of the list, also when the current
    resolution is not in the list; the game object is unchanged but for its
    tile size, so the positions and speeds of Pac-Man and the ghosts are
    not rescaled.  Any other direction changes nothing, and on an empty
    list "left" and "right" raise [ZeroDivisionError]. *)
Theorem adjust_resolution_lands_in_list (direction : string) (sg : Screen * Game) :
  (available_resolutions (fst sg) <> [] ->
   exists sg',
     adjust_resolution direction sg = Ok sg' /\
     available_resolutions (fst sg') = available_resolutions (fst sg) /\
     snd sg' = set_tile_size (snd sg) (tile_size (snd sg')) /\
     (direction = "left" \/ direction = "right" ->
      resolution sg' ∈ available_resolutions (fst sg)) /\
     (direction <> "left" -> direction <> "right" -> sg' = sg)) /\
  (available_resolutions (fst sg) = [] ->
   direction = "left" \/ direction = "right" ->
   adjust_resolution direction sg = Raise ZeroDivisionError).
Proof.
  split.
  - intros Hne.
    destruct (String.eqb direction "left") eqn:Hl.
    { apply String.eqb_eq in Hl as ->.
      destruct (adjust_resolution_step true sg Hne) as (i & r & _ & Hr & ->).
      eexists. split; [done|]. simpl. split; [done|]. split; [done|]. split; [|done].
      intros _. unfold resolution. simpl. destruct r as [[w h] ts]. simpl.
      by eapply list_elem_of_lookup_2. }
    destruct (String.eqb direction "right") eqn:Hr.
    { apply String.eqb_eq in Hr as ->.
      destruct (adjust_resolution_step false sg Hne) as (i & r & _ & Hr & ->).
      eexists. split; [done|]. simpl. split; [done|]. split; [done|]. split; [|done].
      intros _. unfold resolution. simpl. destruct r as [[w h] ts]. simpl.
      by eapply list_elem_of_lookup_2. }
    exists sg. split.
    + unfold adjust_resolution.
      destruct (current_index_spec (screen_width (fst sg), screen_height (fst sg),
                                    tile_size (snd sg)) (available_resolutions (fst sg)))
        as (i & -> & _).
      cbn [bind]. by rewrite Hl, Hr.
    + apply String.eqb_neq in Hl, Hr.
      split; [done|]. split; [by destruct sg as [s []]|]. split; [by intros [|]|done].
  - intros Hempty Hdir. unfold adjust_resolution. rewrite Hempty. simpl.
    by destruct Hdir as [-> | ->].
Qed.

(** X25: "left" and "right" undo each other.  When the available
    resolutions are pairwise different and the current resolution is one
    of them, "right" followed by "left" and "left" followed by "right" set
    the resolution that was set before. *)
Theorem adjust_resolution_round_trip (sg : Screen * Game) :
  NoDup (available_resolutions (fst sg)) ->
  resolution sg ∈ available_resolutions (fst sg) ->
  exists sg1 sg2 sg3 sg4,
    adjust_resolution "right" sg = Ok sg1 /\ adjust_resolution "left" sg1 = Ok sg2 /\
    adjust_resolution "left" sg = Ok sg3 /\ adjust_resolution "right" sg3 = Ok sg4 /\
    resolution sg2 = resolution sg /\ resolution sg4 = resolution sg.
Proof.
  intros Hnd Hin. set (l := available_resolutions (fst sg)) in *.
  assert (Hne : l <> []) by (intros Hl; rewrite Hl in Hin; by apply elem_of_nil in Hin).
  assert (Hn : 0 < Z.of_nat (length l)) by (destruct l; simpl; [done|lia]).
  apply list_elem_of_lookup in Hin as [k Hk].
  assert (Hklt : (k < length l)%nat) by (by eapply lookup_lt_Some).
  assert (Hback : forall (left : bool) sg1 i r,
    except_ValueError (list_index (resolution sg) l) (Ok O) = Ok i ->
    l !! Z.to_nat ((Z.of_nat i + (if left then -1 else 1)) `mod` Z.of_nat (length l))
      = Some r ->
    sg1 = (mkScreen (fst (fst r)) (snd (fst r)) l, set_tile_size (snd sg) (snd r)) ->
    exists sg2, adjust_resolution (if left then "right" else "left") sg1 = Ok sg2 /\
                resolution sg2 = resolution sg).
  { intros left sg1 i r Hi Hr ->.
    destruct (current_index_spec (resolution sg) l) as (i' & Hi' & _ & Huniq).
    rewrite Hi in Hi'. injection Hi' as <-. pose proof (Huniq k Hnd Hk) as ->.
    pose proof (Z.mod_pos_bound (Z.of_nat k + (if left then -1 else 1)) _ Hn) as Hb.
    set (k1 := Z.to_nat ((Z.of_nat k + (if left then -1 else 1)) `mod` Z.of_nat (length l)))
      in *.
    set (sg1 := (mkScreen (fst (fst r)) (snd (fst r)) l, set_tile_size (snd sg) (snd r))).
    destruct (adjust_resolution_step (negb left) sg1) as (j & r2 & Hj & Hr2 & Hstep);
      [done|].
    simpl in Hj, Hr2, Hstep.
    destruct (current_index_spec (resolution sg1) l) as (j' & Hj' & _ & Huniq1).
    rewrite Hj in Hj'. injection Hj' as <-.
    assert (Hres1 : resolution sg1 = r) by (by destruct r as [[? ?] ?]).
    rewrite Hres1 in Huniq1. pose proof (Huniq1 k1 Hnd Hr) as ->.
    assert (Hk2 : Z.to_nat ((Z.of_nat k1 + (if negb left then -1 else 1))
                            `mod` Z.of_nat (length l)) = k).
    { unfold k1. rewrite Z2Nat.id by lia.
      rewrite Zplus_mod_idemp_l.
      replace (Z.of_nat k + (if left then -1 else 1) + (if negb left then -1 else 1))
        with (Z.of_nat k) by (destruct left; simpl; lia).
      rewrite Z.mod_small by lia. lia. }
    rewrite Hk2, Hk in Hr2. injection Hr2 as <-.
    eexists. split.
    - destruct left; exact Hstep.
    - unfold resolution. simpl. by destruct sg as [s g]. }
  destruct (adjust_resolution_step false sg Hne) as (i & r & Hi & Hr & Hright).
  destruct (adjust_resolution_step true sg Hne) as (i' & r' & Hi' & Hr' & Hleft).
  simpl in Hright, Hleft.
  destruct (Hback false _ i r Hi Hr eq_refl) as (sg2 & H2 & E2).
  destruct (Hback true _ i' r' Hi' Hr' eq_refl) as (sg4 & H4 & E4).
  simpl in H2, H4. eauto 10.
Qed.

Lemma NoDup_three_resolutions : NoDup three_resolutions.
Proof. by apply (bool_decide_unpack _). Qed.

Lemma adjust_resolution_round_trip_witness :
  exists sg1 sg2 sg3 sg4,
    adjust_resolution "right" screen_of_three = Ok sg1 /\
    adjust_resolution "left" sg1 = Ok sg2 /\
    adjust_resolution "left" screen_of_three = Ok sg3 /\
    adjust_resolution "right" sg3 = Ok sg4 /\
    resolution sg2 = resolution screen_of_three /\
    resolution sg4 = resolution screen_of_three.
Proof.
  apply (adjust_resolution_round_trip screen_of_three).
  - exact NoDup_three_resolutions.
  - right. left.
Defined.

(** ** High scores *)

Lemma filter_none {A : Type} (P : A -> Prop) `{forall x, Decision (P x)} (l : list A) :
  Forall (fun x => ~ P x) l -> filter P l = [].
Proof.
  induction 1 as [|x l Hx _ IH]; [done|]. by rewrite filter_cons, decide_False, IH.
Qed.

Lemma filter_every {A : Type} (P : A -> Prop) `{forall x, Decision (P x)} (l : list A) :
  Forall P l -> filter P l = l.
Proof.
  induction 1 as [|x l Hx _ IH]; [done|]. by rewrite filter_cons, decide_True, IH.
Qed.

Lemma insert_by_score_Permutation (x : Highscore) (l : list Highscore) :
  insert_by_score x l ≡ₚ x :: l.
Proof.
  induction l as [|y l IH]; simpl; [done|].
  case_decide; [|done]. rewrite IH. apply Permutation_swap.
Qed.

Lemma sorted_by_score_Permutation (l : list Highscore) : sorted_by_score l ≡ₚ l.
Proof.
  induction l as [|x l IH]; simpl; [done|].
  by rewrite insert_by_score_Permutation, IH.
Qed.

Lemma descending_cons (x : Highscore) (l : list Highscore) :
  descending (x :: l) <-> Forall (fun y => snd y <= snd x) l /\ descending l.
Proof.
  unfold descending. split.
  - intros H. split.
    + apply Forall_lookup. intros j y Hj. by apply (H 0%nat (S j) x y); [lia| |].
    + intros i j a b Hij Hi Hj. by apply (H (S i) (S j)); [lia| |].
  - intros [Hall H] [|i] [|j] a b Hij Hi Hj; simpl in *; try lia.
    + injection Hi as <-. rewrite Forall_lookup in Hall. by eapply Hall.
    + by apply (H i j); [lia| |].
Qed.

Lemma insert_by_score_descending (x : Highscore) (l : list Highscore) :
  descending l -> descending (insert_by_score x l).
Proof.
  induction l as [|y l IH]; intros Hl; simpl.
  - apply descending_cons. split; [constructor|]. by intros i j a b _ [=].
  - apply descending_cons in Hl as [Hall Hl]. case_decide as Hxy.
    + apply descending_cons. split; [|by apply IH].
      rewrite insert_by_score_Permutation. constructor; [lia|done].
    + apply descending_cons. split.
      * constructor; [lia|]. eapply Forall_impl; [done|]. simpl. intros; lia.
      * apply descending_cons. done.
Qed.

Lemma sorted_by_score_descending (l : list Highscore) : descending (sorted_by_score l).
Proof.
  induction l as [|x l IH]; simpl; [by intros i j a b _ [=]|].
  by apply insert_by_score_descending.
Qed.

(** Entries of equal score keep their order: the model of [sorted] is
    stable. *)
Lemma insert_by_score_stable (k : Z) (x : Highscore) (l : list Highscore) :
  descending l ->
  filter (fun y => snd y = k) (insert_by_score x l) =
  filter (fun y => snd y = k) (x :: l).
Proof.
  induction l as [|y l IH]; intros Hl; simpl; [done|].
  apply descending_cons in Hl as [Hall Hl]. case_decide as Hxy; [|done].
  rewrite !filter_cons. rewrite filter_cons in IH. rewrite (IH Hl).
  destruct (decide (snd y = k)), (decide (snd x = k)); try done. lia.
Qed.

Lemma sorted_by_score_stable (k : Z) (l : list Highscore) :
  filter (fun y => snd y = k) (sorted_by_score l) = filter (fun y => snd y = k) l.
Proof.
  induction l as [|x l IH]; simpl; [done|].
  rewrite insert_by_score_stable by apply sorted_by_score_descending.
  by rewrite !filter_cons, IH.
Qed.

Lemma insert_by_score_behind (x : Highscore) (l : list Highscore) :
  descending l ->
  insert_by_score x l =
  filter (fun y => snd x < snd y) l ++ x :: filter (fun y => ~ snd x < snd y) l.
Proof.
  induction l as [|y l IH]; intros Hl; simpl; [done|].
  apply descending_cons in Hl as [Hall Hl]. rewrite !filter_cons. case_decide as Hxy.
  - rewrite decide_False by tauto. simpl. by rewrite <- IH.
  - rewrite decide_True by done.
    assert (Hnone : filter (fun y0 => snd x < snd y0) l = []).
    { apply filter_none. eapply Forall_impl; [done|]. simpl. intros; lia. }
    assert (Hall' : filter (fun y0 => ~ snd x < snd y0) l = l).
    { apply filter_every. eapply Forall_impl; [done|]. simpl. intros; lia. }
    by rewrite Hnone, Hall'.
Qed.

Lemma insert_by_score_front (y : Highscore) (l : list Highscore) :
  Forall (fun z => snd z <= snd y) l -> insert_by_score y l = y :: l.
Proof.
  destruct l as [|z l]; simpl; [done|]. intros Hall.
  apply Forall_cons in Hall as [Hz _]. by rewrite decide_False by lia.
Qed.

Lemma Forall_filter_keep {A : Type} (P Q : A -> Prop) `{forall x, Decision (Q x)}
    (l : list A) :
  Forall P l -> Forall P (filter Q l).
Proof.
  rewrite !Forall_forall. intros Hall x Hx. apply list_elem_of_filter in Hx as [_ Hx]. auto.
Qed.

Lemma sorted_by_score_snoc (hs : list Highscore) (x : Highscore) :
  descending hs ->
  sorted_by_score (hs ++ [x]) =
  filter (fun y => snd x <= snd y) hs ++ x :: filter (fun y => snd y < snd x) hs.
Proof.
  unfold sorted_by_score. rewrite foldr_app. simpl.
  induction hs as [|y l IH]; intros Hd; simpl; [done|].
  apply descending_cons in Hd as [Hall Hd]. rewrite (IH Hd). rewrite !filter_cons.
  destruct (decide (snd x <= snd y)) as [Hxy|Hxy].
  - rewrite decide_False by lia. simpl. apply insert_by_score_front.
    apply Forall_app. split; [by apply Forall_filter_keep|].
    constructor; [done|]. by apply Forall_filter_keep.
  - rewrite decide_True by lia.
    assert (Hnone : filter (fun y0 => snd x <= snd y0) l = []).
    { apply filter_none. eapply Forall_impl; [done|]. simpl. intros; lia. }
    assert (Hall' : filter (fun y0 => snd y0 < snd x) l = l).
    { apply filter_every. eapply Forall_impl; [done|]. simpl. intros; lia. }
    rewrite Hnone, Hall'. simpl. rewrite decide_True by lia.
    by rewrite insert_by_score_front.
Qed.

(** X26: [add_highscore] records the best five.  After the new entry has been
    added, the table has one entry more than before but at most five, its
    scores do not go up along the list, and it consists of entries of the
    old table and the new entry; what has been dropped has no higher score
    than anything that has been kept. *)
Theorem record_highscore_keeps_the_best (name : string) (score : Z)
    (highscores : list Highscore) :
  length (record_highscore name score highscores) = (5 `min` S (length highscores))%nat /\
  descending (record_highscore name score highscores) /\
  exists dropped,
    record_highscore name score highscores ++ dropped ≡ₚ highscores ++ [(name, score)] /\
    forall x y, x ∈ record_highscore name score highscores -> y ∈ dropped ->
                snd y <= snd x.
Proof.
  unfold record_highscore. set (l := sorted_by_score (highscores ++ [(name, score)])).
  assert (Hperm : l ≡ₚ highscores ++ [(name, score)]) by apply sorted_by_score_Permutation.
  assert (Hdesc : descending l) by apply sorted_by_score_descending.
  split; [|split].
  - rewrite length_take, Hperm, length_app. cbn [length]. lia.
  - intros i j x y Hij Hi Hj.
    apply lookup_take_Some in Hi as [Hi _]. apply lookup_take_Some in Hj as [Hj _].
    by eapply Hdesc.
  - exists (drop 5 l). split; [by rewrite take_drop|].
    intros x y Hx Hy. apply elem_of_take in Hx as (i & Hi & Hlt).
    apply list_elem_of_lookup in Hy as [j Hj]. rewrite lookup_drop in Hj.
    eapply (Hdesc i (5 + j)%nat); [lia|done..].
Qed.

(** X27: a new score goes behind the scores it does not beat.  On a table
    whose scores do not go up along the list, [add_highscore] puts the new
    entry behind every entry with the same or a higher score and in front
    of every entry with a lower score, and cuts the table to five; so a
    score that does not beat the fifth entry of the table is not
    recorded. *)
Theorem record_highscore_behind_equal_scores (name : string) (score : Z)
    (highscores : list Highscore) :
  descending highscores ->
  record_highscore name score highscores =
    take 5 (filter (fun y => score <= snd y) highscores
            ++ (name, score) :: filter (fun y => snd y < score) highscores) /\
  (forall fifth, highscores !! 4%nat = Some fifth -> score <= snd fifth ->
     record_highscore name score highscores = take 5 highscores).
Proof.
  intros Hd. unfold record_highscore. rewrite sorted_by_score_snoc by done. simpl.
  split; [done|]. intros fifth H5 Hscore.
  assert (Hfront : take 5 (filter (fun y => score <= snd y) highscores) = take 5 highscores).
  { rewrite <- (take_drop 5 highscores) at 1. rewrite filter_app.
    rewrite filter_every.
    - rewrite take_app_le; [by rewrite take_take|].
      rewrite length_take. apply lookup_lt_Some in H5. lia.
    - apply Forall_forall. intros x Hx. apply elem_of_take in Hx as (i & Hi & Hlt).
      destruct (decide (i = 4%nat)) as [->|Hne]; [congruence|].
      pose proof (Hd i 4%nat x fifth ltac:(lia) Hi H5). lia. }
  rewrite take_app_le.
  - done.
  - assert (Hlen : length (take 5 (filter (fun y => score <= snd y) highscores)) = 5%nat).
    { rewrite Hfront, length_take. apply lookup_lt_Some in H5. lia. }
    rewrite length_take in Hlen. lia.
Qed.

Lemma descending_full_highscores : descending full_highscores.
Proof.
  intros i j x y Hij Hi Hj.
  destruct i as [|[|[|[|[|i]]]]]; try done;
    destruct j as [|[|[|[|[|j]]]]]; try done; try lia;
    injection Hi as <-; injection Hj as <-; simpl; lia.
Qed.

Lemma record_highscore_behind_equal_scores_witness :
  record_highscore "NEW" 100 full_highscores =
    take 5 (filter (fun y => 100 <= snd y) full_highscores
            ++ ("NEW", 100) :: filter (fun y => snd y < 100) full_highscores) /\
  (forall fifth, full_highscores !! 4%nat = Some fifth -> 100 <= snd fifth ->
     record_highscore "NEW" 100 full_highscores = take 5 full_highscores).
Proof.
  apply (record_highscore_behind_equal_scores "NEW" 100 full_highscores).
  exact descending_full_highscores.
Defined.

Lemma string_length_app (s t : string) :
  String.length (s +:+ t) = (String.length s + String.length t)%nat.
Proof. induction s as [|a s IH]; simpl; [done|]. by rewrite IH. Qed.

Lemma list_ascii_of_string_app (s t : string) :
  String.list_ascii_of_string (s +:+ t) = String.list_ascii_of_string s ++ String.list_ascii_of_string t.
Proof. induction s as [|a s IH]; simpl; [done|]. by rewrite IH. Qed.

Lemma but_last_length (s : string) : (String.length (but_last s) <= String.length s)%nat.
Proof.
  induction s as [|a s IH]; simpl; [done|]. destruct s as [|b s]; simpl in *; lia.
Qed.

Lemma but_last_chars (s : string) (c : Ascii.ascii) :
  c ∈ String.list_ascii_of_string (but_last s) -> c ∈ String.list_ascii_of_string s.
Proof.
  induction s as [|a s IH]; simpl; [done|]. destruct s as [|b s]; [by intros ?%elem_of_nil|].
  intros [->|Hc]%elem_of_cons; [by left|]. right. by apply IH.
Qed.

Lemma substring_length (n m : nat) (s : string) :
  (String.length (String.substring n m s) <= String.length s)%nat.
Proof.
  revert n m. induction s as [|c s IH]; intros [|n] [|m]; simpl; try lia.
  - specialize (IH 0%nat m). lia.
  - specialize (IH n 0%nat). lia.
  - specialize (IH n (S m)). lia.
Qed.

Lemma substring_chars (n m : nat) (s : string) (c : Ascii.ascii) :
  c ∈ String.list_ascii_of_string (String.substring n m s) ->
  c ∈ String.list_ascii_of_string s.
Proof.
  revert n m. induction s as [|b s IH]; intros [|n] [|m]; simpl; try done.
  - by intros ?%elem_of_nil.
  - intros [->|Hc]%elem_of_cons; [by left|]. right. by apply (IH 0%nat m).
  - intros Hc. right. by apply (IH n 0%nat).
  - intros Hc. right. by apply (IH n (S m)).
Qed.

(** [s in t] holds only of a run of characters of [t]. *)
Lemma py_in_substring (s t : string) :
  py_in s t = true -> exists n, String.substring n (String.length s) t = s.
Proof.
  unfold py_in. destruct (String.index 0 s t) as [n|] eqn:Hn; [|done].
  intros _. exists n. by apply (String.index_correct1 0).
Qed.

Lemma py_in_length (s t : string) :
  py_in s t = true -> (String.length s <= String.length t)%nat.
Proof.
  intros [n Hn]%py_in_substring. rewrite <- Hn at 1. apply substring_length.
Qed.

Lemma py_in_chars (s t : string) (c : Ascii.ascii) :
  py_in s t = true ->
  c ∈ String.list_ascii_of_string s -> c ∈ String.list_ascii_of_string t.
Proof.
  intros [n Hn]%py_in_substring Hc. rewrite <- Hn in Hc. by apply substring_chars in Hc.
Qed.

(** What one event does to the name. *)
Lemma handle_event_name (ev : event) (name name' : string) (a a' : bool) :
  handle_event ev name a = Typing name' a' ->
  name' = name \/ name' = but_last name \/
  exists upper,
    ev = KEYDOWN Key_other upper /\ py_in upper ALLOWED_CHARS = true /\
    (String.length name < 3)%nat /\ name' = name +:+ upper.
Proof.
  destruct ev as [|k upper|]; simpl; [done| |intros [= <- _]; by left].
  destruct k.
  - done.
  - destruct (0 <? _)%nat; intros [= <- _]; by left.
  - intros [= <- _]. right. by left.
  - destruct (py_in upper ALLOWED_CHARS) eqn:Hin; simpl; [|intros [= <- _]; by left].
    destruct (String.length name <? 3)%nat eqn:Hlt; intros [= <- _]; [|by left].
    apply Nat.ltb_lt in Hlt. right. right. by exists upper.
Qed.

Section name_invariant.

Variable I : string -> Prop.
Variable ok : string -> Prop.
Hypothesis I_but_last : forall name, I name -> I (but_last name).
Hypothesis I_append :
  forall name upper,
    I name -> ok upper -> py_in upper ALLOWED_CHARS = true ->
    (String.length name < 3)%nat -> I (name +:+ upper).

Lemma handle_events_name (events : list event) (name name' : string) (a a' : bool) :
  (forall upper, KEYDOWN Key_other upper ∈ events -> ok upper) ->
  I name ->
  handle_events events name a = Typing name' a' ->
  I name'.
Proof.
  revert name a. induction events as [|ev rest IH]; intros name a Hok Hname; simpl.
  - by intros [= <- _].
  - destruct (handle_event ev name a) as [name1 a1| |] eqn:Hev; [|done..].
    apply IH; [intros upper Hin; apply Hok; by right|].
    apply handle_event_name in Hev as [-> | [-> | (upper & -> & Hin & Hlt & ->)]].
    + done.
    + by apply I_but_last.
    + apply I_append; [done| |done..]. apply Hok. by left.
Qed.

Lemma input_loop_name (passes : list (list event)) (name name' : string) (a' : bool) :
  (forall events upper, events ∈ passes -> KEYDOWN Key_other upper ∈ events -> ok upper) ->
  I name ->
  input_loop passes name = Typing name' a' ->
  I name'.
Proof.
  revert name. induction passes as [|events rest IH]; intros name Hok Hname; simpl.
  - by intros [= <- _].
  - destruct (handle_events events name true) as [name1 a1| |] eqn:Hev; [|done..].
    assert (Hname1 : I name1).
    { eapply handle_events_name; [|done..]. intros upper Hin.
      apply (Hok events upper); [by left|done]. }
    destruct a1.
    + apply IH; [|done]. intros events' upper Hin. apply Hok. by right.
    + by intros [= <- _].
Qed.

End name_invariant.

(** X28: the name that [add_highscore] records.  A call that records a
    score leaves the old table with one entry added, sorted and cut to
    five; the name of that entry consists of capital letters and digits of
    [ALLOWED_CHARS] and has at most 38 characters.  It has at most three
    characters when no key appends more than one, that is when
    [event.unicode.upper()] has at most one character for every key event
    at which it is in [ALLOWED_CHARS]. *)
Theorem add_highscore_records_allowed_characters (passes : list (list event))
    (score : Z) (highscores highscores' : list Highscore) :
  add_highscore passes score highscores = Recorded highscores' ->
  exists name,
    highscores' = record_highscore name score highscores /\
    allowed_characters name /\
    (String.length name <= 38)%nat /\
    (single_upper_case passes -> (String.length name <= 3)%nat).
Proof.
  unfold add_highscore.
  destruct (input_loop passes EmptyString) as [name [|]| |] eqn:Hloop; [done| |done..].
  intros [= <-]. exists name. split; [done|].
  assert (Hall : allowed_characters name /\ (String.length name <= 38)%nat).
  { apply (input_loop_name
             (fun name => allowed_characters name /\ (String.length name <= 38)%nat)
             (fun _ => True)) with (passes := passes) (name := EmptyString) (a' := false).
    - intros n [Hchars Hlen]. split.
      + intros c Hc. by apply Hchars, but_last_chars.
      + pose proof (but_last_length n). lia.
    - intros n upper [Hchars Hlen] _ Hin Hlt. split.
      + intros c. rewrite list_ascii_of_string_app, elem_of_app.
        intros [Hc | Hc]; [by apply Hchars | by apply (py_in_chars upper)].
      + rewrite string_length_app. apply py_in_length in Hin. simpl in Hin. lia.
    - done.
    - split; [by intros c ?%elem_of_nil | simpl; lia].
    - done. }
  destruct Hall as [Hchars Hlen]. split; [done|]. split; [done|].
  intros Hone.
  apply (input_loop_name
           (fun name => (String.length name <= 3)%nat)
           (fun upper => py_in upper ALLOWED_CHARS = true -> (String.length upper <= 1)%nat))
    with (passes := passes) (name := EmptyString) (a' := false).
  - intros n Hn. pose proof (but_last_length n). lia.
  - intros n upper Hn Hok Hin Hlt. rewrite string_length_app. specialize (Hok Hin). lia.
  - intros events upper Hev Hin. by apply (Hone events upper).
  - simpl. lia.
  - done.
Qed.

Lemma add_highscore_records_allowed_characters_witness :
  exists name,
    record_highscore "AB" 1000 default_highscores =
      record_highscore name 1000 default_highscores /\
    allowed_characters name /\
    (String.length name <= 38)%nat /\
    (single_upper_case typed_name -> (String.length name <= 3)%nat).
Proof.
  apply (add_highscore_records_allowed_characters typed_name 1000 default_highscores
           (record_highscore "AB" 1000 default_highscores)).
  reflexivity.
Defined.

(** Three characters are no bound on the name: a key whose text has the
    upper case "ST" (the ligature U+FB06) is accepted behind two
    characters, and the score is recorded under a name of four. *)
Lemma add_highscore_name_of_four :
  add_highscore typed_ligature 1000 default_highscores =
    Recorded (record_highscore "ABST" 1000 default_highscores).
Proof. reflexivity. Qed.

(** Nor is the name sure to hold a character: the events behind the
    return key in the same pass are still handled, and a backspace among
    them can empty the name that the return key has accepted. *)
Lemma add_highscore_empty_name :
  add_highscore typed_and_deleted 1000 default_highscores =
    Recorded (record_highscore "" 1000 default_highscores).
Proof. reflexivity. Qed.

(** ** Levels that cannot be completed *)

Lemma worn_no_points (m m' : Matrix) : worn m m' -> no_points m -> no_points m'.
Proof.
  intros Hworn Hno y x H0.
  destruct (Hworn y x) as [Heq | (c & _ & _ & [H | H])].
  - rewrite Heq in H0. by apply (Hno y x).
  - rewrite H0 in H. discriminate H.
  - rewrite H0 in H. discriminate H.
Qed.

Lemma handle_collisions_and_points_no_points (now : Q) (g : Game) (s : Z) (won : bool)
    (s' : Z) (g' : Game) :
  no_points (matrix g) ->
  handle_collisions_and_points now g s = Ok (won, s', g') ->
  won = false.
Proof.
  intros Hno H.
  destruct (handle_collisions_and_points_occupied _ _ _ _ H) as (y & x & c & Hocc & Hc).
  destruct (handle_collisions_and_points_cases now g s y x c Hocc Hc) as (row & _ & _ & Hcases).
  rewrite Hcases in H. cbv zeta in H.
  rewrite decide_False in H by (intros ->; by apply (Hno y x)).
  by repeat case_decide; injection H as <- _ _.
Qed.

Lemma tick_no_points (i : Input) (g : Game) (s fc : Z) (g' : Game) (s' fc' : Z) :
  no_points (matrix g) ->
  tick i (g, s, fc) = Ok (g', s', fc') ->
  level g' = level g /\ no_points (matrix g').
Proof.
  intros Hno. unfold tick. intros H.
  apply bind_Ok in H as (g1 & H1 & H).
  apply bind_Ok in H as (g3 & H3 & H).
  apply bind_Ok in H as ([[won s1] g5] & H5 & H).
  apply bind_Ok in H as (g6 & H6 & H).
  apply bind_Ok in H as ([fc1 g7] & H7 & H). injection H as <- <- <-.
  apply handle_pacman_logic_frame in H1 as (_ & _ & Hm1 & Hl1 & _).
  set (g2 := collision_pacman_ghost (fun _ => in_now i) g1) in *.
  assert (Hm2 : matrix g2 = matrix g1).
  { unfold g2, collision_pacman_ghost. apply ghost_loop_matrix. }
  assert (Hl2 : level g2 = level g1).
  { unfold g2, collision_pacman_ghost. apply ghost_loop_carries. }
  assert (Hg3 : matrix g3 = matrix g2 /\ level g3 = level g2).
  { unfold teleport_pacman in H3. apply bind_Ok in H3 as (t & _ & H3).
    by injection H3 as <-. }
  destruct Hg3 as [Hm3 Hl3].
  set (g4 := update_power_pill (in_now i) g3) in *.
  assert (Hg4 : matrix g4 = matrix g3 /\ level g4 = level g3).
  { unfold g4, update_power_pill. by destruct (_ && _). }
  destruct Hg4 as [Hm4 Hl4].
  assert (Hno4 : no_points (matrix g4)) by (by rewrite Hm4, Hm3, Hm2, Hm1).
  assert (Hwon : won = false) by (by eapply handle_collisions_and_points_no_points).
  subst won. injection H6 as <-.
  pose proof (handle_collisions_and_points_frame _ _ _ _ _ _ H5) as (_ & _ & Hl5 & _).
  assert (Hno5 : no_points (matrix g5)).
  { eapply worn_no_points; [|exact Hno4].
    eapply step_worn; [eapply step_points, H5|done]. }
  pose proof (place_fruits_frame _ _ _ _ _ _ _ H7) as (m & Hg7).
  assert (Hl7 : level g7 = level g5) by (by rewrite Hg7).
  split; [simpl; congruence|]. simpl.
  eapply worn_no_points; [|exact Hno5].
  eapply step_worn; [eapply step_fruits, H7|done].
Qed.

Lemma play_game_loop_no_points (inputs : list Input) (g : Game) (s fc : Z) (g' : Game)
    (s' fc' : Z) :
  no_points (matrix g) ->
  play_game_loop inputs (g, s, fc) = Ok (g', s', fc') ->
  level g' = level g /\ no_points (matrix g').
Proof.
  revert g s fc. induction inputs as [|i rest IH]; intros g s fc Hno H; simpl in H.
  - by injection H as <- <- <-.
  - apply bind_Ok in H as ([[g1 s1] fc1] & H1 & H).
    apply tick_no_points in H1 as [Hl1 Hno1]; [|done]. simpl in H.
    destruct (game_over g1).
    + by injection H as <- <- <-.
    + apply IH in H as [Hl Hno']; [|done]. split; [congruence|done].
Qed.

(** X29: a fruit on the last point leaves a level that cannot be
    completed.  [place_fruits] does not tell points from empty cells: when
    its draw falls on the only cell that still holds a point, the point is
    replaced by the fruit.  From then on the grid holds no point, no pass
    of [play_game] signals a completed level, and the game stays on this
    level for as long as play goes on. *)
Theorem fruit_on_the_last_point_locks_the_level (g : Game) (fruit_count row col : Z) :
  rectangular (matrix g) ->
  fruit_count < 2 ->
  0 <= row < Z.of_nat (height (matrix g)) ->
  0 <= col < Z.of_nat (width (matrix g)) ->
  cell (matrix g) (Z.to_nat row) (Z.to_nat col) = Some 0 ->
  (forall y x, (y, x) <> (Z.to_nat row, Z.to_nat col) -> cell (matrix g) y x <> Some 0) ->
  exists g1,
    place_fruits 0 row col g fruit_count = Ok (fruit_count + 1, g1) /\
    cell (matrix g1) (Z.to_nat row) (Z.to_nat col) = Some (-2) /\
    no_points (matrix g1) /\
    forall inputs s g' s' fc',
      play_game_loop inputs (g1, s, fruit_count + 1) = Ok (g', s', fc') ->
      level g' = level g /\ no_points (matrix g').
Proof.
  intros Hrect Hfc Hrow Hcol Hpoint Hlast.
  destruct (place_fruits_guarded 0 row col g fruit_count) as (r & c & Hr & Hc & Hplace);
    [|done..|].
  { unfold fruit_guard. by rewrite !bool_decide_eq_true_2 by (done || lia). }
  unfold cell in Hpoint. rewrite Hr, Hc in Hpoint. injection Hpoint as ->.
  rewrite decide_True in Hplace by lia.
  eexists. split; [exact Hplace|]. simpl.
  assert (Hlt : (Z.to_nat col < length r)%nat) by (by eapply lookup_lt_Some).
  assert (Hno : no_points (<[Z.to_nat row := <[Z.to_nat col := -2]> r]> (matrix g))).
  { intros y x. rewrite cell_insert by done. case_decide as Heq; [done|]. by apply Hlast. }
  split; [by rewrite cell_insert, decide_True by done|]. split; [done|].
  intros inputs s g' s' fc' Hloop.
  by apply play_game_loop_no_points in Hloop.
Qed.

Lemma rectangular_game_with_last_point : rectangular (matrix game_with_last_point).
Proof. repeat constructor. Qed.

Lemma fruit_on_the_last_point_locks_the_level_witness :
  exists g1,
    place_fruits 0 1 2 game_with_last_point 0 = Ok (0 + 1, g1) /\
    cell (matrix g1) (Z.to_nat 1) (Z.to_nat 2) = Some (-2) /\
    no_points (matrix g1) /\
    forall inputs s g' s' fc',
      play_game_loop inputs (g1, s, 0 + 1) = Ok (g', s', fc') ->
      level g' = level game_with_last_point /\ no_points (matrix g').
Proof.
  apply (fruit_on_the_last_point_locks_the_level game_with_last_point 0 1 2).
  - exact rectangular_game_with_last_point.
  - lia.
  - vm_compute. split; [discriminate|reflexivity].
  - vm_compute. split; [discriminate|reflexivity].
  - reflexivity.
  - intros y x Hne.
    destruct y as [|[|[|y]]]; try done;
      destruct x as [|[|[|[|[|x]]]]]; try done.
Defined.

(** X30: play begins on level "1".  [start_game] calls [level_up] on the
    game that [Game()] has built.  Since the configuration always holds the
    levels "0", "1" and "2", that call finds a level "1".  With the grid
    [m] that [load_level_from_csv] returns for it, the call raises
    [ValueError] when [m] holds no 7; when it holds one, play starts on
    level 1 with the grid [m] and the game not over, with the ghosts of [m]
    and with a Pac-Man of three lives who is not alive: he waits on his
    start position for the delay of the respawn that [handle_pacman_logic]
    measures from the time of the call. *)
Theorem start_game_begins_on_level_one (a : Assets) (lv : gmap Z csv_file) (ts : Z)
    (g : Game) (now : Q) :
  Game_init a lv ts = Ok g ->
  exists f m,
    levels g !! 1 = Some f /\
    load_level_from_csv f = Ok m /\
    ((forall y x, cell m y x <> Some 7) -> level_up now g = Raise ValueError) /\
    (forall y x, cell m y x = Some 7 ->
       exists g',
         level_up now g = Ok g' /\
         level g' = 1 /\ matrix g' = m /\ game_over g' = false /\ score g' = 0 /\
         ghosts g' = create_ghosts_from_matrix m ts /\
         lives (pacman g') = 3 /\
         alive (entity (pacman g')) = false /\
         respawn_time (entity (pacman g')) = now /\
         pos (entity (pacman g')) = start_pos (entity (pacman g'))).
Proof.
  intros Hinit. apply Game_init_Ok in Hinit as (f0 & _ & _ & _ & Hg).
  destruct (load_config_levels_default_keys a lv 1) as [f Hf]; [lia|].
  destruct (load_level_from_csv_total f) as [m Hm].
  pose proof (size_load_config_levels a lv) as Hsize.
  exists f, m. rewrite Hg. simpl. split; [done|]. split; [done|].
  unfold level_up. cbn [level levels]. rewrite decide_True by lia.
  unfold level_file. cbn [level levels set_level]. change (0 + 1) with 1.
  rewrite Hf. cbn [bind]. rewrite Hm. cbn [bind]. simpl.
  unfold create_pacman_from_matrix, find_coordinates_of_value.
  destruct (coordinates_from ts 7 m 0) as [|start rest] eqn:Hc; simpl.
  - split; [done|]. intros y x Hyx. exfalso.
    assert (Hin : pixel_pos ts y x ∈ coordinates_from ts 7 m 0).
    { apply elem_of_coordinates_from. by exists y, x. }
    rewrite Hc in Hin. by apply elem_of_nil in Hin.
  - split.
    + intros Hno. exfalso.
      assert (Hin : start ∈ coordinates_from ts 7 m 0) by (rewrite Hc; by left).
      apply elem_of_coordinates_from in Hin as (y & x & Hyx & _). by apply (Hno y x).
    + intros y x _. eexists. split; [done|]. simpl. done.
Qed.

Lemma start_game_begins_on_level_one_witness :
  exists f m,
    levels game_on_placeholder !! 1 = Some f /\
    load_level_from_csv f = Ok m /\
    ((forall y x, cell m y x <> Some 7) ->
     level_up 0%Q game_on_placeholder = Raise ValueError) /\
    (forall y x, cell m y x = Some 7 ->
       exists g',
         level_up 0%Q game_on_placeholder = Ok g' /\
         level g' = 1 /\ matrix g' = m /\ game_over g' = false /\ score g' = 0 /\
         ghosts g' = create_ghosts_from_matrix m 20 /\
         lives (pacman g') = 3 /\
         alive (entity (pacman g')) = false /\
         respawn_time (entity (pacman g')) = 0%Q /\
         pos (entity (pacman g')) = start_pos (entity (pacman g'))).
Proof.
  apply (start_game_begins_on_level_one no_assets levels_without_file 20
           game_on_placeholder 0%Q).
  reflexivity.
Defined.
